(** * GameVault backend: the file reconciliation core

    A shallow embedding of [src/services/files.service.ts] (class
    [FilesService]), of the [Game] entity it manipulates with the
    transformer of its [size] column, and of the module of
    [getDatabaseConfiguration], followed by the properties of the filename
    parser, the filesystem lister, the two reconciliation passes
    [indexFiles] and [integrityCheck], the download header, the database
    options and the transformer.

    Conventions.
    - A JavaScript string is a [list ascii]: one element per code unit, the
      code units being restricted to the Latin-1 range 0..255.
    - A [bigint] is an [N]; a [Date] is its time value, a [Z] number of
      milliseconds since the epoch.
    - An exception is a value of [exn]; a function that may throw returns a
      [result]. *)

From Stdlib Require Import String Ascii List Bool Arith NArith ZArith Lia.
Import ListNotations.

Set Implicit Arguments.

(** ** Strings *)

Definition str := list ascii.

(** [js "abc"] is the JavaScript string literal ["abc"]. *)
Definition js (s : string) : str := list_ascii_of_string s.

Definition str_eqb (a b : str) : bool :=
  if list_eq_dec ascii_dec a b then true else false.

Definition chr_is (c : ascii) : ascii -> bool := Ascii.eqb c.
Definition chr_not (c : ascii) : ascii -> bool := fun x => negb (Ascii.eqb c x).

(** Line terminators of ECMAScript within Latin-1: LF and CR. *)
Definition is_line_terminator (c : ascii) : bool :=
  let n := nat_of_ascii c in Nat.eqb n 10 || Nat.eqb n 13.

(** The regular expression atom [.] (no [s] flag): anything but a line
    terminator. *)
Definition re_dot (c : ascii) : bool := negb (is_line_terminator c).

(** The class of the two path separators, backslash and slash. *)
Definition is_sep (c : ascii) : bool := chr_is "\" c || chr_is "/" c.

(** The class [\d]. *)
Definition is_digit (c : ascii) : bool :=
  let n := nat_of_ascii c in Nat.leb 48 n && Nat.leb n 57.

(** White space and line terminators stripped by [String.prototype.trim],
    within Latin-1: TAB, LF, VT, FF, CR, SP and NBSP. *)
Definition is_ws (c : ascii) : bool :=
  let n := nat_of_ascii c in
  (Nat.leb 9 n && Nat.leb n 13) || Nat.eqb n 32 || Nat.eqb n 160.

(** ** A backtracking matcher for the regular expressions of the service

    The patterns of [files.service.ts] are sequences of the atoms below; a
    quantifier is only ever applied to a character class. *)

Inductive atom : Type :=
| AChar (p : ascii -> bool)          (* one character of the class *)
| AStar (p : ascii -> bool)          (* greedy [p*] *)
| APlus (p : ascii -> bool)          (* greedy [p+] *)
| ARep (n : nat) (p : ascii -> bool) (* [p{n}] *)
| ABol                               (* [^], no [m] flag *)
| AEol                               (* [$], no [m] flag *)
| AOpen                              (* opening of capture group 1 *)
| AClose.                            (* closing of capture group 1 *)

Definition regex := list atom.

(** Result of a successful match attempt at one position: the input left
    after the match and the inputs left at the two ends of group 1. *)
Record mres : Type := MRes {
  m_rest : str;
  m_open : option str;
  m_close : option str
}.

Definition set_open (s : str) (m : mres) : mres :=
  MRes (m_rest m) (Some s) (m_close m).
Definition set_close (s : str) (m : mres) : mres :=
  MRes (m_rest m) (m_open m) (Some s).

(** Greedy iteration of a class followed by the continuation [k]: the longest
    run is tried first, then shorter ones. [b] tells whether the position is
    the start of the input. *)
Fixpoint star_then (k : bool -> str -> option mres) (p : ascii -> bool)
    (b : bool) (s : str) {struct s} : option mres :=
  match s with
  | c :: r =>
      if p c then
        match star_then k p false r with
        | Some m => Some m
        | None => k b s
        end
      else k b s
  | [] => k b []
  end.

(** Exactly [n] characters of the class. *)
Fixpoint take_class (n : nat) (p : ascii -> bool) (s : str) : option str :=
  match n with
  | O => Some s
  | S n' =>
      match s with
      | c :: r => if p c then take_class n' p r else None
      | [] => None
      end
  end.

Fixpoint match_here (re : regex) (b : bool) (s : str) {struct re}
    : option mres :=
  match re with
  | [] => Some (MRes s None None)
  | AChar p :: k =>
      match s with
      | c :: r => if p c then match_here k false r else None
      | [] => None
      end
  | AStar p :: k => star_then (match_here k) p b s
  | APlus p :: k =>
      match s with
      | c :: r => if p c then star_then (match_here k) p false r else None
      | [] => None
      end
  | ARep n p :: k =>
      match take_class n p s with
      | Some r => match_here k (b && Nat.eqb n 0) r
      | None => None
      end
  | ABol :: k => if b then match_here k b s else None
  | AEol :: k =>
      match s with
      | [] => match_here k b s
      | _ :: _ => None
      end
  | AOpen :: k => option_map (set_open s) (match_here k b s)
  | AClose :: k => option_map (set_close s) (match_here k b s)
  end.

(** Result of [RegExp.prototype.exec]: the text before the match, the input
    at the start of the match, and the match itself. *)
Record exec_result : Type := ExecResult {
  x_before : str;
  x_start : str;
  x_match : mres
}.

(** The leftmost match: start positions are tried from left to right; [acc]
    is the text already skipped, reversed. *)
Fixpoint exec_from (re : regex) (b : bool) (acc : str) (s : str)
    : option exec_result :=
  match match_here re b s with
  | Some m => Some (ExecResult (rev acc) s m)
  | None =>
      match s with
      | [] => None
      | c :: r => exec_from re false (c :: acc) r
      end
  end.

Definition exec (re : regex) (s : str) : option exec_result :=
  exec_from re true [] s.

(** [match[1]]: the text of capture group 1. *)
Definition group1 (x : exec_result) : option str :=
  match m_open (x_match x), m_close (x_match x) with
  | Some o, Some c => Some (firstn (length o - length c) o)
  | _, _ => None
  end.

(** [re.test(s)]. *)
Definition test (re : regex) (s : str) : bool :=
  match exec re s with Some _ => true | None => false end.

(** [s.replace(re, "")] for a pattern without the [g] flag. *)
Definition replace_empty (re : regex) (s : str) : str :=
  match exec re s with
  | Some x => x_before x ++ m_rest (x_match x)
  | None => s
  end.

(** [s.replaceAll(re, "")] for a pattern with the [g] flag: matches are
    removed from left to right, the search resuming at the end of each
    match (one character further after an empty match). *)
Fixpoint replaceAll_empty_fuel (fuel : nat) (re : regex) (b : bool) (s : str)
    : str :=
  match fuel with
  | O => s
  | S fuel' =>
      match exec_from re b [] s with
      | None => s
      | Some x =>
          let rest := m_rest (x_match x) in
          x_before x ++
            (if Nat.eqb (length rest) (length (x_start x)) then
               match rest with
               | [] => []
               | c :: r => c :: replaceAll_empty_fuel fuel' re false r
               end
             else replaceAll_empty_fuel fuel' re false rest)
      end
  end.

Definition replaceAll_empty (re : regex) (s : str) : str :=
  replaceAll_empty_fuel (S (length s)) re true s.

(** [s.trim()]. *)
Fixpoint trimStart (s : str) : str :=
  match s with
  | c :: r => if is_ws c then trimStart r else s
  | [] => []
  end.

Definition trimEnd (s : str) : str := rev (trimStart (rev s)).

Definition trim (s : str) : str := trimEnd (trimStart s).

(** ** Exceptions and results *)

Inductive exn : Type :=
| TypeError          (* reading a property of [null] *)
| StoreWriteError    (* a rejected or failed write of the record store *)
| StoreReadError.    (* a failed read of the record store *)

Inductive result (A : Type) : Type :=
| Ok (a : A)
| Err (e : exn).
Arguments Ok {A} a.
Arguments Err {A} e.

Definition bind {A B : Type} (r : result A) (f : A -> result B) : result B :=
  match r with
  | Ok a => f a
  | Err e => Err e
  end.

Notation "x <- c1 ;; c2" := (bind c1 (fun x => c2))
  (at level 61, c1 at next level, right associativity).

(** ** The filename extractors of [FilesService] *)

(** First pattern of [regexExtractTitle]: start of input, the longest run
    of [.], one of the two separators. *)
Definition re_directory : regex := [ABol; AStar re_dot; AChar is_sep].

(** Second pattern of [regexExtractTitle]: a dot, group 1 made of the
    longest run of characters other than a dot, end of input. *)
Definition re_extension : regex :=
  [AChar (chr_is "."); AOpen; AStar (chr_not "."); AClose; AEol].

(** Third pattern of [regexExtractTitle], global: an opening parenthesis,
    the longest run of characters other than a closing parenthesis, a
    closing parenthesis. *)
Definition re_parentheses : regex :=
  [AChar (chr_is "("); AStar (chr_not ")"); AChar (chr_is ")")].

(** Pattern of [regexExtractVersion]: an opening parenthesis, group 1 made
    of the letter v and a non-empty longest run of characters other than a
    closing parenthesis, a closing parenthesis. *)
Definition re_version : regex :=
  [AChar (chr_is "("); AOpen; AChar (chr_is "v"); APlus (chr_not ")");
   AClose; AChar (chr_is ")")].

(** Pattern of [regexExtractReleaseYear]: an opening parenthesis, group 1
    made of exactly four digits, a closing parenthesis. *)
Definition re_release_year : regex :=
  [AChar (chr_is "("); AOpen; ARep 4 is_digit; AClose; AChar (chr_is ")")].

(** Pattern of [regexExtractEarlyAccessFlag]: the four characters of the
    marker (EA). *)
Definition re_early_access : regex :=
  [AChar (chr_is "("); AChar (chr_is "E"); AChar (chr_is "A");
   AChar (chr_is ")")].

Definition regexExtractTitle (fileName : str) : str :=
  trim
    (replaceAll_empty re_parentheses
       (replace_empty re_extension
          (replace_empty re_directory fileName))).

(** [match?.[1]] is truthy when group 1 is a non-empty string. *)
Definition regexExtractVersion (fileName : str) : option str :=
  match exec re_version fileName with
  | Some x =>
      match group1 x with
      | Some (c :: r) => Some (c :: r)
      | _ => None
      end
  | None => None
  end.

(** [exec(fileName)[1]]: indexing the [null] of a failed match throws. *)
Definition regexExtractReleaseYear (fileName : str) : result (option str) :=
  match exec re_release_year fileName with
  | Some x => Ok (group1 x)
  | None => Err TypeError
  end.

Definition regexExtractEarlyAccessFlag (fileName : str) : bool :=
  test re_early_access fileName.

(** ** Dates

    A [Date] is its time value; [None] is the Invalid Date. *)

Definition Date := option Z.

Definition digit_value (c : ascii) : Z := Z.of_nat (nat_of_ascii c) - 48.

Definition digits_value (s : str) : Z :=
  fold_left (fun acc c => (10 * acc + digit_value c)%Z) s 0%Z.

(** Number of leap years among the years 1..y of the proleptic Gregorian
    calendar. *)
Definition leap_years_through (y : Z) : Z := (y / 4 - y / 100 + y / 400)%Z.

(** Day number of the first of January of year [y], day 0 being
    1970-01-01. *)
Definition day_of_year_start (y : Z) : Z :=
  (365 * (y - 1970) + leap_years_through (y - 1) - leap_years_through 1969)%Z.

Definition ms_per_day : Z := 86400000.

(** [new Date(v)] for the arguments the service can pass: the year-only
    date-time string [YYYY] denotes UTC midnight of the first of January;
    [undefined] and every other string are taken as not parseable. *)
Definition new_Date (v : option str) : Date :=
  match v with
  | Some s =>
      if Nat.eqb (length s) 4 && forallb is_digit s
      then Some (day_of_year_start (digits_value s) * ms_per_day)%Z
      else None
  | None => None
  end.

(** ** The [Game] entity

    The columns of [game.entity.ts]; [id] and the soft-delete marker
    [deleted_at] come from [AbstractEntity]. An image or a related entity
    is represented by its identifier. A column that is [undefined] or
    [null] is [None] (the empty string or list for [title], [file_path] and
    the relations, [0] for [size]). *)

Record Game : Type := MkGame {
  id : option N;
  deleted_at : Date;
  rawg_id : option Z;
  title : str;
  rawg_title : option str;
  version : option str;
  release_date : Date;
  rawg_release_date : Date;
  cache_date : Date;
  file_path : str;
  size : N;
  description : option str;
  box_image : option N;
  background_image : option N;
  website_url : option str;
  metacritic_rating : option Z;
  average_playtime : option Z;
  early_access : bool;
  progresses : list N;
  publishers : list N;
  developers : list N;
  stores : list N;
  tags : list N;
  genres : list N
}.

(** [new Game()] *)
Definition new_Game : Game :=
  MkGame None None None [] None None None None None [] 0%N None None None
    None None None false [] [] [] [] [] [].

(** Assignments [g.field = v], as functional updates. *)
Definition set_file_path (v : str) (g : Game) : Game :=
  MkGame (id g) (deleted_at g) (rawg_id g) (title g) (rawg_title g)
    (version g) (release_date g) (rawg_release_date g) (cache_date g) v
    (size g) (description g) (box_image g) (background_image g)
    (website_url g) (metacritic_rating g) (average_playtime g)
    (early_access g) (progresses g) (publishers g) (developers g) (stores g)
    (tags g) (genres g).

Definition set_title (v : str) (g : Game) : Game :=
  MkGame (id g) (deleted_at g) (rawg_id g) v (rawg_title g) (version g)
    (release_date g) (rawg_release_date g) (cache_date g) (file_path g)
    (size g) (description g) (box_image g) (background_image g)
    (website_url g) (metacritic_rating g) (average_playtime g)
    (early_access g) (progresses g) (publishers g) (developers g) (stores g)
    (tags g) (genres g).

Definition set_release_date (v : Date) (g : Game) : Game :=
  MkGame (id g) (deleted_at g) (rawg_id g) (title g) (rawg_title g)
    (version g) v (rawg_release_date g) (cache_date g) (file_path g) (size g)
    (description g) (box_image g) (background_image g) (website_url g)
    (metacritic_rating g) (average_playtime g) (early_access g) (progresses g)
    (publishers g) (developers g) (stores g) (tags g) (genres g).

Definition set_size (v : N) (g : Game) : Game :=
  MkGame (id g) (deleted_at g) (rawg_id g) (title g) (rawg_title g)
    (version g) (release_date g) (rawg_release_date g) (cache_date g)
    (file_path g) v (description g) (box_image g) (background_image g)
    (website_url g) (metacritic_rating g) (average_playtime g)
    (early_access g) (progresses g) (publishers g) (developers g) (stores g)
    (tags g) (genres g).

Definition set_version (v : option str) (g : Game) : Game :=
  MkGame (id g) (deleted_at g) (rawg_id g) (title g) (rawg_title g) v
    (release_date g) (rawg_release_date g) (cache_date g) (file_path g)
    (size g) (description g) (box_image g) (background_image g)
    (website_url g) (metacritic_rating g) (average_playtime g)
    (early_access g) (progresses g) (publishers g) (developers g) (stores g)
    (tags g) (genres g).

Definition set_early_access (v : bool) (g : Game) : Game :=
  MkGame (id g) (deleted_at g) (rawg_id g) (title g) (rawg_title g)
    (version g) (release_date g) (rawg_release_date g) (cache_date g)
    (file_path g) (size g) (description g) (box_image g) (background_image g)
    (website_url g) (metacritic_rating g) (average_playtime g) v
    (progresses g) (publishers g) (developers g) (stores g) (tags g)
    (genres g).

Definition set_deleted_at (v : Date) (g : Game) : Game :=
  MkGame (id g) v (rawg_id g) (title g) (rawg_title g) (version g)
    (release_date g) (rawg_release_date g) (cache_date g) (file_path g)
    (size g) (description g) (box_image g) (background_image g)
    (website_url g) (metacritic_rating g) (average_playtime g)
    (early_access g) (progresses g) (publishers g) (developers g) (stores g)
    (tags g) (genres g).

Definition set_id (v : option N) (g : Game) : Game :=
  MkGame v (deleted_at g) (rawg_id g) (title g) (rawg_title g) (version g)
    (release_date g) (rawg_release_date g) (cache_date g) (file_path g)
    (size g) (description g) (box_image g) (background_image g)
    (website_url g) (metacritic_rating g) (average_playtime g)
    (early_access g) (progresses g) (publishers g) (developers g) (stores g)
    (tags g) (genres g).

(** [IGameVaultFile]: a file of the listing, its path relative to the root
    and its size. *)
Record IGameVaultFile : Type := MkFile {
  name : str;
  file_size : N
}.

(** The enumeration [GameExistance]. *)
Inductive GameExistance : Type :=
| EXISTS
| DOES_NOT_EXIST
| EXISTS_BUT_DELETED
| EXISTS_BUT_ALTERED.

(** ** The world: record store, and the trace of what was logged and
    written *)

(** The table of games, and the next identifier the store hands out. *)
Record Store : Type := MkStore {
  rows : list Game;
  next_id : N
}.

Inductive Message : Type :=
| MsgStartedIndexing
| MsgFinishedIndexing
| MsgIdenticalCopy (path : str)       (* debug, verdict EXISTS *)
| MsgIndexingNew (path : str)         (* debug, verdict DOES_NOT_EXIST *)
| MsgRestoring (path : str)           (* debug, verdict EXISTS_BUT_DELETED *)
| MsgDetectedChanges (path : str)     (* debug, verdict EXISTS_BUT_ALTERED *)
| MsgUpdatedInformation (path : str)  (* log, in [updateGame] *)
| MsgFailedToIndex (e : exn) (path : str)  (* error, in the [catch] *)
| MsgStartedIntegrityCheck
| MsgFinishedIntegrityCheck
| MsgMarkedAsDeleted (path : str).

(** A write the store has carried out. *)
Inductive StoreWrite : Type :=
| Created (row : Game)
| Updated (row : Game)
| Restored (row : Game)
| SoftDeleted (row : Game).

Inductive Event : Type :=
| Logged (m : Message)
| Wrote (w : StoreWrite).

Record World : Type := MkWorld {
  db : Store;
  events : list Event
}.

(** Computations of the services: they may throw, and what they did to the
    world before throwing stays done. *)
Definition M (A : Type) : Type := World -> result A * World.

Definition ret {A : Type} (a : A) : M A := fun w => (Ok a, w).

Definition throw {A : Type} (e : exn) : M A := fun w => (Err e, w).

Definition mbind {A B : Type} (m : M A) (f : A -> M B) : M B :=
  fun w =>
    match m w with
    | (Ok a, w') => f a w'
    | (Err e, w') => (Err e, w')
    end.

Notation "x <~ c1 ;; c2" := (mbind c1 (fun x => c2))
  (at level 61, c1 at next level, right associativity).
Notation "c1 ;;; c2" := (mbind c1 (fun _ => c2))
  (at level 61, right associativity).

(** [try { m } catch (error) { h error }] *)
Definition try_catch {A : Type} (m : M A) (h : exn -> M A) : M A :=
  fun w =>
    match m w with
    | (Ok a, w') => (Ok a, w')
    | (Err e, w') => h e w'
    end.

(** A synchronous computation that may throw, run inside [M]. *)
Definition lift {A : Type} (r : result A) : M A :=
  fun w => (r, w).

Definition emit (e : Event) : M unit :=
  fun w => (Ok tt, MkWorld (db w) (events w ++ [e])).

Definition logger (m : Message) : M unit := emit (Logged m).

Definition get_db : M Store := fun w => (Ok (db w), w).

Definition put_db (s : Store) : M unit :=
  fun w => (Ok tt, MkWorld s (events w)).

(** ** The record store behind [GamesService]

    [games.service.ts] is not part of the sources at hand; its four
    operations used by [FilesService] are modelled from the specification.
    The environment may make any call fail: [fails] tells, for a call and
    its arguments, whether the store rejects it (connectivity and the
    like). *)

Inductive Call : Type :=
| CallCheck (game : Game)
| CallSave (game : Game)
| CallRestore (i : option N)
| CallDelete (game : Game).

Definition has_id (i : N) (r : Game) : bool :=
  match id r with
  | Some j => N.eqb i j
  | None => false
  end.

Definition has_path (p : str) (r : Game) : bool := str_eqb (file_path r) p.

Definition is_active (r : Game) : bool :=
  match deleted_at r with
  | None => true
  | Some _ => false
  end.

(** Modelled from the spec: [RecordStore.findByPath], which sees the
    soft-deleted rows too. *)
Definition findByPath (p : str) (s : Store) : option Game :=
  find (has_path p) (rows s).

(** Modelled from the spec: [RecordStore.listActive]. *)
Definition listActive (s : Store) : list Game := filter is_active (rows s).

(** The column [file_path] is declared [unique] in [game.entity.ts]: a
    write that would give the path of another row is rejected. *)
Definition path_taken (p : str) (self : option N) (s : Store) : bool :=
  existsb
    (fun r =>
       has_path p r &&
       negb (match self with Some i => has_id i r | None => false end))
    (rows s).

Definition map_row (i : N) (f : Game -> Game) (s : Store) : Store :=
  MkStore (map (fun r => if has_id i r then f r else r) (rows s)) (next_id s).

Section GamesService.

Variable fails : Call -> bool.

(** The clock reading the store stamps on a soft-deleted row. *)
Variable now : Z.

(** Modelled from the spec: the existence classifier
    [checkIfGameExistsInDatabase] of the missing [games.service.ts],
    section 4.3: keyed by the exact path; no row is DOES_NOT_EXIST, a
    soft-deleted row is EXISTS_BUT_DELETED whatever its size, an active row
    is EXISTS with the same size and EXISTS_BUT_ALTERED otherwise. The
    verdict comes with the matched row. *)
Definition existence (game : Game) (s : Store)
    : GameExistance * option Game :=
  match findByPath (file_path game) s with
  | None => (DOES_NOT_EXIST, None)
  | Some r =>
      if is_active r then
        if N.eqb (size r) (size game) then (EXISTS, Some r)
        else (EXISTS_BUT_ALTERED, Some r)
      else (EXISTS_BUT_DELETED, Some r)
  end.

Definition checkIfGameExistsInDatabase (game : Game)
    : M (GameExistance * option Game) :=
  if fails (CallCheck game) then throw StoreReadError
  else
    s <~ get_db ;;
    ret (existence game s).

(** Modelled from the spec: [saveGame] of the missing [games.service.ts],
    the [create] and [update] of the record store: a game without an
    identifier becomes a new row with a fresh identifier; a game with the
    identifier of a row replaces that row in place. *)
Definition saveGame (game : Game) : M Game :=
  if fails (CallSave game) then throw StoreWriteError
  else
    s <~ get_db ;;
    if path_taken (file_path game) (id game) s then throw StoreWriteError
    else
      match id game with
      | None =>
          let row := set_id (Some (next_id s)) game in
          put_db (MkStore (rows s ++ [row]) (N.succ (next_id s))) ;;;
          emit (Wrote (Created row)) ;;;
          ret row
      | Some i =>
          if existsb (has_id i) (rows s) then
            put_db (map_row i (fun _ => game) s) ;;;
            emit (Wrote (Updated game)) ;;;
            ret game
          else throw StoreWriteError
      end.

(** Modelled from the spec: [restoreGame] of the missing
    [games.service.ts], the [restore] of the record store: clears the
    soft-delete marker of the row and returns the row. *)
Definition restoreGame (i : option N) : M Game :=
  if fails (CallRestore i) then throw StoreWriteError
  else
    s <~ get_db ;;
    match i with
    | None => throw StoreWriteError
    | Some i =>
        match find (has_id i) (rows s) with
        | None => throw StoreWriteError
        | Some r =>
            let row := set_deleted_at None r in
            put_db (map_row i (set_deleted_at None) s) ;;;
            emit (Wrote (Restored row)) ;;;
            ret row
        end
    end.

(** Modelled from the spec: [deleteGame] of the missing
    [games.service.ts], the [softDelete] of the record store: sets the
    soft-delete marker of the row, and removes nothing. *)
Definition deleteGame (game : Game) : M unit :=
  if fails (CallDelete game) then throw StoreWriteError
  else
    s <~ get_db ;;
    match id game with
    | None => throw StoreWriteError
    | Some i =>
        match find (has_id i) (rows s) with
        | None => throw StoreWriteError
        | Some r =>
            put_db (map_row i (set_deleted_at (Some now)) s) ;;;
            emit (Wrote (SoftDeleted (set_deleted_at (Some now) r)))
        end
    end.

(** ** [FilesService] *)

(** The assignments to [gameToIndex] at the head of the [try] block. *)
Definition gameToIndex (file : IGameVaultFile) : result Game :=
  let g := new_Game in
  let g := set_file_path (name file) g in
  let g := set_title (regexExtractTitle (file_path g)) g in
  let g := set_size (file_size file) g in
  year <- regexExtractReleaseYear (file_path g) ;;
  let g := set_release_date (new_Date year) g in
  let g := set_version (regexExtractVersion (file_path g)) g in
  let g := set_early_access (regexExtractEarlyAccessFlag (file_path g)) g in
  Ok g.

(** The object literal of [updateGame]: the spread of [gameToUpdate], then
    the six properties taken from [updatesToApply]. *)
Definition updatedGame (gameToUpdate updatesToApply : Game) : Game :=
  set_early_access (early_access updatesToApply)
    (set_version (version updatesToApply)
       (set_size (size updatesToApply)
          (set_release_date (release_date updatesToApply)
             (set_title (title updatesToApply)
                (set_file_path (file_path updatesToApply)
                   gameToUpdate))))).

Definition updateGame (gameToUpdate updatesToApply : Game) : M Game :=
  logger (MsgUpdatedInformation (file_path gameToUpdate)) ;;;
  saveGame (updatedGame gameToUpdate updatesToApply).

(** The identifier read off [existingGameTuple[1]]; reading it off
    [undefined] throws. *)
Definition tuple_id (existing : option Game) : M (option N) :=
  match existing with
  | Some g => ret (id g)
  | None => throw TypeError
  end.

Definition tuple_game (existing : option Game) : M Game :=
  match existing with
  | Some g => ret g
  | None => throw TypeError
  end.

(** The body of the [try] block of [indexFiles], for one file. *)
Definition tryIndexFile (file : IGameVaultFile) : M unit :=
  g <~ lift (gameToIndex file) ;;
  existingGameTuple <~ checkIfGameExistsInDatabase g ;;
  match fst existingGameTuple with
  | EXISTS =>
      logger (MsgIdenticalCopy (file_path g))
  | DOES_NOT_EXIST =>
      logger (MsgIndexingNew (file_path g)) ;;;
      saveGame g ;;;
      ret tt
  | EXISTS_BUT_DELETED =>
      logger (MsgRestoring (file_path g)) ;;;
      i <~ tuple_id (snd existingGameTuple) ;;
      restoredGame <~ restoreGame i ;;
      updateGame restoredGame g ;;;
      ret tt
  | EXISTS_BUT_ALTERED =>
      logger (MsgDetectedChanges (file_path g)) ;;;
      existing <~ tuple_game (snd existingGameTuple) ;;
      updateGame existing g ;;;
      ret tt
  end.

(** One turn of the [for] loop: the [try] block and its [catch]. The
    path is assigned to [gameToIndex] before anything can throw, so the
    handler always logs the path of the file. *)
Definition indexFile (file : IGameVaultFile) : M unit :=
  try_catch (tryIndexFile file)
    (fun error => logger (MsgFailedToIndex error (name file))).

Fixpoint forEach {A : Type} (body : A -> M unit) (l : list A) : M unit :=
  match l with
  | [] => ret tt
  | x :: l' => body x ;;; forEach body l'
  end.

Definition indexFiles (gamesInFileSystem : list IGameVaultFile) : M unit :=
  logger MsgStartedIndexing ;;;
  forEach indexFile gamesInFileSystem ;;;
  logger MsgFinishedIndexing.

(** [gamesInFileSystem.find((g) => g.name === gameInDatabase.file_path)] *)
Definition find_in_listing (gamesInFileSystem : list IGameVaultFile)
    (gameInDatabase : Game) : option IGameVaultFile :=
  find (fun g => str_eqb (name g) (file_path gameInDatabase))
    gamesInFileSystem.

Definition checkGame (gamesInFileSystem : list IGameVaultFile)
    (gameInDatabase : Game) : M unit :=
  match find_in_listing gamesInFileSystem gameInDatabase with
  | Some _ => ret tt
  | None =>
      deleteGame gameInDatabase ;;;
      logger (MsgMarkedAsDeleted (file_path gameInDatabase))
  end.

Definition integrityCheck (gamesInFileSystem : list IGameVaultFile)
    (gamesInDatabase : list Game) : M unit :=
  logger MsgStartedIntegrityCheck ;;;
  forEach (checkGame gamesInFileSystem) gamesInDatabase ;;;
  logger MsgFinishedIntegrityCheck.

End GamesService.

(** The environment in which no call to the store fails. *)
Definition never_fails : Call -> bool := fun _ => false.

(** ** The filesystem lister *)

(** State of the backward scan of Node's [path.posix.extname]. *)
Record ExtScan : Type := MkExtScan {
  startDot : option nat;
  startPart : nat;
  end_ : option nat;
  matchedSlash : bool;
  preDotState : Z;
  stopped : bool
}.

(** One turn of the loop of [extname], at index [i] holding [c]. *)
Definition extname_step (i : nat) (c : ascii) (st : ExtScan) : ExtScan :=
  if stopped st then st
  else if chr_is "/" c then
    if negb (matchedSlash st) then
      MkExtScan (startDot st) (i + 1) (end_ st) (matchedSlash st)
        (preDotState st) true
    else st
  else
    let st1 :=
      match end_ st with
      | None =>
          MkExtScan (startDot st) (startPart st) (Some (i + 1)) false
            (preDotState st) false
      | Some _ => st
      end in
    if chr_is "." c then
      match startDot st1 with
      | None =>
          MkExtScan (Some i) (startPart st1) (end_ st1) (matchedSlash st1)
            (preDotState st1) false
      | Some _ =>
          if negb (Z.eqb (preDotState st1) 1) then
            MkExtScan (startDot st1) (startPart st1) (end_ st1)
              (matchedSlash st1) 1 false
          else st1
      end
    else
      match startDot st1 with
      | Some _ =>
          MkExtScan (startDot st1) (startPart st1) (end_ st1)
            (matchedSlash st1) (-1) false
      | None => st1
      end.

(** The loop, from the last index down to 0; [rev_path] is the path
    reversed, and its head has index [length rev_path - 1]. *)
Fixpoint extname_scan (rev_path : str) (st : ExtScan) : ExtScan :=
  match rev_path with
  | [] => st
  | c :: r => extname_scan r (extname_step (length r) c st)
  end.

Definition slice (a b : nat) (s : str) : str := firstn (b - a) (skipn a s).

(** Node's [path.extname] on a POSIX host: the text from the last dot of
    the last segment of the path to its end, empty when there is no dot or
    when the segment only starts with one. *)
Definition extname (path : str) : str :=
  let st := extname_scan (rev path) (MkExtScan None 0 None true 0 false) in
  match startDot st, end_ st with
  | Some sd, Some e =>
      if Z.eqb (preDotState st) 0
         || (Z.eqb (preDotState st) 1 && Nat.eqb sd (e - 1)
             && Nat.eqb sd (startPart st + 1))
      then []
      else slice sd e path
  | _, _ => []
  end.

(** The part of [configuration] read by [getFiles]. *)
Record Configuration : Type := MkConfiguration {
  MOCK_FILES : bool;
  FILES : str
}.

(** The part of Node's [fs] used by [getFiles]: the recursive listing of a
    directory, as paths relative to it, and the size reported by a stat. *)
Record FileSystem : Type := MkFileSystem {
  readdirSync : str -> result (list str);
  statSync_size : str -> result N
}.

Definition archive_extensions : list str :=
  map js [".zip"; ".7z"; ".rar"; ".tar"; ".tar.gz"; ".tar.bz2"; ".tar.xz";
          ".tgz"; ".tbz2"; ".txz"]%string.

Definition includes (l : list str) (x : str) : bool := existsb (str_eqb x) l.

Fixpoint mapM {A B : Type} (f : A -> result B) (l : list A)
    : result (list B) :=
  match l with
  | [] => Ok []
  | x :: l' => y <- f x ;; ys <- mapM f l' ;; Ok (y :: ys)
  end.

(** [mock] is the list of [mock/games.mock.ts], which is not part of the
    sources at hand. *)
Definition getFiles (configuration : Configuration)
    (mock : list IGameVaultFile) (fs : FileSystem)
    : result (list IGameVaultFile) :=
  if MOCK_FILES configuration then Ok mock
  else
    entries <- readdirSync fs (FILES configuration) ;;
    mapM
      (fun file =>
         sz <- statSync_size fs (FILES configuration ++ js "/" ++ file) ;;
         Ok (MkFile file sz))
      (filter (fun file => includes archive_extensions (extname file))
         entries).

(** ** The download header

    [downloadGame] hands the file to a [StreamableFile] under a
    [disposition] that carries the path of the game, passed through
    [encodeURIComponent]. The lookup of the game, the read stream and the
    table of media types belong to code that is not part of the sources at
    hand. *)

(** The characters [encodeURIComponent] leaves as they are: the letters,
    the digits, and the marks [- _ . ! ~ * ' ( )]. *)
Definition uriUnescaped (c : ascii) : bool :=
  let n := nat_of_ascii c in
  (Nat.leb 65 n && Nat.leb n 90) || (Nat.leb 97 n && Nat.leb n 122)
  || (Nat.leb 48 n && Nat.leb n 57)
  || existsb (Ascii.eqb c) (js "-_.!~*'()").

Definition hex_digit (n : nat) : ascii :=
  nth n (js "0123456789ABCDEF") "0"%char.

(** An octet as a percent sign and two upper-case hexadecimal digits. *)
Definition percent (octet : nat) : str :=
  ["%"%char; hex_digit (octet / 16); hex_digit (octet mod 16)].

(** The UTF-8 octets of a code unit below 256: one octet below 128, two
    above. *)
Definition utf8_octets (n : nat) : list nat :=
  if Nat.ltb n 128 then [n] else [192 + n / 64; 128 + n mod 64].

Definition encode_unit (c : ascii) : str :=
  if uriUnescaped c then [c]
  else flat_map percent (utf8_octets (nat_of_ascii c)).

Definition encodeURIComponent (s : str) : str := flat_map encode_unit s.

(** The [disposition] option of the [StreamableFile] of [downloadGame]. *)
Definition disposition (game : Game) : str :=
  js "attachment; filename=" ++ encodeURIComponent (file_path game).

(** ** The database configuration

    The module of [getDatabaseConfiguration]. An options object is the list
    of its properties in insertion order. *)

Inductive OptionValue : Type :=
| VBoolean (b : bool)
| VString (s : str)
| VNumber (n : Z)
| VStrings (l : list str)
| VSnakeNamingStrategy.

Definition Options := list (str * OptionValue).

Definition get (key : str) (o : Options) : option OptionValue :=
  match find (fun kv => str_eqb (fst kv) key) o with
  | Some kv => Some (snd kv)
  | None => None
  end.

(** The object literal of two spreads: the properties of [a], each with
    the value [b] gives it if [b] has it, then the properties of [b] that
    [a] has not. *)
Definition spread (a b : Options) : Options :=
  map (fun kv =>
         match get (fst kv) b with
         | Some v => (fst kv, v)
         | None => kv
         end) a
  ++ filter (fun kv => match get (fst kv) a with
                       | Some _ => false
                       | None => true
                       end) b.

(** The part of [configuration] read by the module: [DB], and the two
    entries of [TESTING] and [VOLUMES] for SQLite. *)
Record DatabaseConfiguration : Type := MkDatabaseConfiguration {
  SYSTEM : str;
  HOST : str;
  PORT : Z;
  USERNAME : str;
  PASSWORD : str;
  DATABASE : str;
  DEBUG : bool;
  SYNCHRONIZE : bool;
  IN_MEMORY_DB : bool;
  SQLITEDB : str
}.

Section DatabaseModule.

Variable configuration : DatabaseConfiguration.

Definition baseConfig : Options :=
  [(js "entities", VStrings [js "dist/database/entities/*.js"]);
   (js "synchronize", VBoolean (SYNCHRONIZE configuration));
   (js "cache", VBoolean true);
   (js "namingStrategy", VSnakeNamingStrategy);
   (js "migrationsRun", VBoolean (negb (SYNCHRONIZE configuration)));
   (js "logging", VBoolean (DEBUG configuration))].

Definition postgresConfig : Options :=
  [(js "type", VString (js "postgres"));
   (js "host", VString (HOST configuration));
   (js "port", VNumber (PORT configuration));
   (js "username", VString (USERNAME configuration));
   (js "password", VString (PASSWORD configuration));
   (js "database", VString (DATABASE configuration));
   (js "migrations", VStrings [js "dist/database/migrations/postgres/*.js"])].

Definition sqliteConfig : Options :=
  [(js "type", VString (js "better-sqlite3"));
   (js "migrations", VStrings [js "dist/database/migrations/sqlite/*.js"]);
   (js "database",
    VString (if IN_MEMORY_DB configuration then js ":memory:"
             else SQLITEDB configuration ++ js "/database.sqlite"))].

Definition getDatabaseConfiguration : Options :=
  if str_eqb (SYSTEM configuration) (js "SQLITE") then
    spread baseConfig sqliteConfig
  else if str_eqb (SYSTEM configuration) (js "POSTGRESQL") then
    spread baseConfig postgresConfig
  else spread baseConfig postgresConfig.

End DatabaseModule.

(** ** The [size] column

    The value transformer of the column [size] of [game.entity.ts]. The
    values are the primitive values of the language, of its seven types. *)

(** A JavaScript number, as far as truthiness and [BigInt] tell numbers
    apart: not a number, an infinity, an integral value (0 for both zeros)
    or a finite value with a fractional part. *)
Inductive Number : Type :=
| NaN
| Infinity (negative : bool)
| Integral (z : Z)
| Fractional.

Inductive JsValue : Type :=
| JsUndefined
| JsNull
| JsBoolean (b : bool)
| JsNumber (n : Number)
| JsString (s : str)
| JsBigInt (z : Z)
| JsSymbol.

Module Js.

Inductive Error : Type :=
| SyntaxError
| RangeError
| TypeError.

End Js.

(** The test of [if (value)]. *)
Definition ToBoolean (value : JsValue) : bool :=
  match value with
  | JsUndefined | JsNull => false
  | JsBoolean b => b
  | JsNumber NaN => false
  | JsNumber (Integral z) => negb (Z.eqb z 0)
  | JsNumber _ => true
  | JsString s => match s with [] => false | _ => true end
  | JsBigInt z => negb (Z.eqb z 0)
  | JsSymbol => true
  end.

(** The value of a digit in a radix up to 16, letters of both cases. *)
Definition digit_of (radix : N) (c : ascii) : option N :=
  let n := N.of_nat (nat_of_ascii c) in
  let v :=
    if N.leb 48 n && N.leb n 57 then Some (n - 48)%N
    else if N.leb 97 n && N.leb n 102 then Some (n - 87)%N
    else if N.leb 65 n && N.leb n 70 then Some (n - 55)%N
    else None in
  match v with
  | Some d => if N.ltb d radix then Some d else None
  | None => None
  end.

Fixpoint digits_from (radix acc : N) (s : str) : option N :=
  match s with
  | [] => Some acc
  | c :: r =>
      match digit_of radix c with
      | Some d => digits_from radix (radix * acc + d) r
      | None => None
      end
  end.

(** A non-empty run of digits. *)
Definition integer_digits (radix : N) (s : str) : option Z :=
  match s with
  | [] => None
  | _ => option_map Z.of_N (digits_from radix 0 s)
  end.

(** [StrIntegerLiteral]: decimal digits with an optional sign, or binary,
    octal or hexadecimal digits after their prefix, without sign. *)
Definition StrIntegerLiteral (t : str) : option Z :=
  match t with
  | [] => Some 0%Z
  | c :: r =>
      if chr_is "+" c then integer_digits 10 r
      else if chr_is "-" c then option_map Z.opp (integer_digits 10 r)
      else
        match r with
        | x :: r' =>
            if chr_is "0" c && (chr_is "x" x || chr_is "X" x)
            then integer_digits 16 r'
            else if chr_is "0" c && (chr_is "o" x || chr_is "O" x)
            then integer_digits 8 r'
            else if chr_is "0" c && (chr_is "b" x || chr_is "B" x)
            then integer_digits 2 r'
            else integer_digits 10 t
        | [] => integer_digits 10 t
        end
  end.

(** [StringToBigInt]: the integer a string denotes once the white space
    around it is removed, 0 for the empty string, nothing for any other
    text. *)
Definition StringToBigInt (s : str) : option Z := StrIntegerLiteral (trim s).

(** [BigInt(value)] *)
Definition BigInt (value : JsValue) : Js.Error + Z :=
  match value with
  | JsNumber (Integral z) => inr z
  | JsNumber _ => inl Js.RangeError
  | JsUndefined | JsNull | JsSymbol => inl Js.TypeError
  | JsBoolean b => inr (if b then 1 else 0)%Z
  | JsBigInt z => inr z
  | JsString s =>
      match StringToBigInt s with
      | Some z => inr z
      | None => inl Js.SyntaxError
      end
  end.

(** The decimal digits of [n], the most significant first; [fuel] bounds
    their number. *)
Fixpoint decimal_digits (fuel : nat) (n : N) : str :=
  match fuel with
  | O => []
  | S fuel' =>
      (if N.ltb n 10 then [] else decimal_digits fuel' (n / 10))
      ++ [ascii_of_nat (48 + N.to_nat (n mod 10))]
  end.

(** [BigInt.prototype.toString] in radix 10. *)
Definition BigInt_toString (z : Z) : str :=
  let n := Z.abs_N z in
  let digits := decimal_digits (S (N.to_nat (N.log2 n))) n in
  if Z.ltb z 0 then "-"%char :: digits else digits.

(** The two functions of the transformer. *)
Definition transformer_to (value : JsValue) : JsValue := value.

Definition transformer_from (value : JsValue) : Js.Error + JsValue :=
  if ToBoolean value then
    match BigInt value with
    | inr z => inr (JsString (BigInt_toString z))
    | inl e => inl e
    end
  else inr value.

(** * Vocabulary of the properties, and sample data *)

(** The pattern has no [^]. *)
Definition bol_free (re : regex) : bool :=
  forallb (fun a => match a with ABol => false | _ => true end) re.

(** What is left of [s] after its longest prefix in the class [p], and that
    prefix. *)
Fixpoint dropWhile (p : ascii -> bool) (s : str) : str :=
  match s with
  | c :: r => if p c then dropWhile p r else s
  | [] => []
  end.

Fixpoint takeWhile (p : ascii -> bool) (s : str) : str :=
  match s with
  | c :: r => if p c then c :: takeWhile p r else []
  | [] => []
  end.

Arguments chr_is _ _ : simpl never.
Arguments chr_not _ _ : simpl never.

(** [suf] starts with a parenthesized group of exactly four digits [d]. *)
Definition year_group_at (suf d post : str) : Prop :=
  suf = "("%char :: d ++ ")"%char :: post /\
  length d = 4 /\ forallb is_digit d = true.

(** [suf] starts with a group made of the letter v and a non-empty text [t]
    without closing parenthesis. *)
Definition version_group_at (suf t post : str) : Prop :=
  suf = "("%char :: "v"%char :: t ++ ")"%char :: post /\
  t <> [] /\ forallb (chr_not ")") t = true.

(** [P] holds of the suffix of [s] after [pre], and of no suffix starting
    further left. *)
Definition first_at (P : str -> Prop) (s pre suf : str) : Prop :=
  s = pre ++ suf /\ P suf /\
  forall pre1 suf1,
    s = pre1 ++ suf1 -> length pre1 < length pre -> ~ P suf1.

(** [P] holds of some suffix of [s]. *)
Definition occurs (P : str -> Prop) (s : str) : Prop :=
  exists pre suf, s = pre ++ suf /\ P suf.

Definition starts_year_group (suf : str) : Prop :=
  exists d post, year_group_at suf d post.

Definition starts_version_group (suf : str) : Prop :=
  exists t post, version_group_at suf t post.

Definition no_sep (s : str) : bool := forallb (fun c => negb (is_sep c)) s.

Definition no_dot (s : str) : bool := forallb (chr_not ".") s.

(** Removal of every parenthesized group, written directly: outside a
    group, an opening parenthesis that some closing parenthesis follows
    starts a group; inside, the first closing parenthesis ends it. *)
Fixpoint strip_groups (inside : bool) (s : str) : str :=
  match s with
  | [] => []
  | c :: r =>
      if inside then
        if chr_is ")" c then strip_groups false r else strip_groups true r
      else if chr_is "(" c && existsb (chr_is ")") r then strip_groups true r
      else c :: strip_groups false r
  end.

Definition not_sep (c : ascii) : bool := negb (is_sep c).

(** The text after the last path separator. *)
Definition last_segment (path : str) : str :=
  rev (takeWhile not_sep (rev path)).

(** The text up to the last path separator, included. *)
Definition directory_prefix (path : str) : str :=
  rev (dropWhile not_sep (rev path)).

(** The text before the final dot, the whole text when there is no dot. *)
Definition without_extension (seg : str) : str :=
  match dropWhile (chr_not ".") (rev seg) with
  | [] => seg
  | _ :: stem_rev => rev stem_rev
  end.

(** The title, in the words of the specification. *)
Definition title_of (path : str) : str :=
  trim (strip_groups false (without_extension (last_segment path))).

(** The year of a release date: midnight UTC of its first of January. *)
Definition start_of_year (d : str) : Date :=
  Some (day_of_year_start (digits_value d) * ms_per_day)%Z.

(** The line feed. *)
Definition LF : ascii := "010"%char.

Definition grand_theft_auto : str :=
  js "Grand Theft Auto V (2013) (v1.0.0) (EA).zip".

(** A path whose directory name holds a line terminator. *)
Definition path_with_line_terminator : str :=
  js "old" ++ LF :: js "games/Portal (2007).zip".

Definition path_with_year_in_directory : str :=
  js "old" ++ LF :: js "games (2007)/Portal.zip".

(** The constraints the database keeps: [file_path] is unique, [id] is the
    primary key, and the identifiers in use are below the next one. *)
Definition store_wf (s : Store) : Prop :=
  NoDup (map file_path (rows s)) /\
  NoDup (map id (rows s)) /\
  Forall (fun r => exists i, id r = Some i /\ (i < next_id s)%N) (rows s).

(** The row [saveGame] creates for a game without identifier, and the store
    it leaves. *)
Definition created_row (game : Game) (s : Store) : Game :=
  set_id (Some (next_id s)) game.

Definition after_create (game : Game) (s : Store) : Store :=
  MkStore (rows s ++ [created_row game s]) (N.succ (next_id s)).

(** [others i p l]: no row of [l] has the identifier [i] or the path [p]. *)
Definition others (i : N) (p : str) (l : list Game) : Prop :=
  forall y, In y l -> id y <> Some i /\ file_path y <> p.

(** The row [restoreGame] leaves and returns. *)
Definition restored (r : Game) : Game := set_deleted_at None r.

(** What a turn of the loop logs and writes, for the three verdicts that
    write. *)
Definition events_new (g : Game) (s : Store) : list Event :=
  [Logged (MsgIndexingNew (file_path g));
   Wrote (Created (created_row g s))].

Definition events_restore (r g : Game) : list Event :=
  [Logged (MsgRestoring (file_path g));
   Wrote (Restored (restored r));
   Logged (MsgUpdatedInformation (file_path (restored r)));
   Wrote (Updated (updatedGame (restored r) g))].

Definition events_alter (r g : Game) : list Event :=
  [Logged (MsgDetectedChanges (file_path g));
   Logged (MsgUpdatedInformation (file_path r));
   Wrote (Updated (updatedGame r g))].

(** The six fields [updateGame] takes from the candidate. *)
Definition takes_candidate_fields (u c : Game) : Prop :=
  file_path u = file_path c /\ title u = title c /\
  release_date u = release_date c /\ size u = size c /\
  version u = version c /\ early_access u = early_access c.

(** The fields [updateGame] never touches: all the others, the soft-delete
    marker apart. *)
Definition keeps_other_fields (u e : Game) : Prop :=
  id u = id e /\ rawg_id u = rawg_id e /\ rawg_title u = rawg_title e /\
  rawg_release_date u = rawg_release_date e /\
  cache_date u = cache_date e /\ description u = description e /\
  box_image u = box_image e /\ background_image u = background_image e /\
  website_url u = website_url e /\
  metacritic_rating u = metacritic_rating e /\
  average_playtime u = average_playtime e /\
  progresses u = progresses e /\ publishers u = publishers e /\
  developers u = developers e /\ stores u = stores e /\
  tags u = tags e /\ genres u = genres e.

Definition sample_candidate : IGameVaultFile :=
  MkFile (js "Portal (2007).zip") 10.

(** A row of the sample store: the game of [sample_candidate] indexed with
    another size, then enriched with metadata. *)
Definition sample_row (deleted : Date) : Game :=
  MkGame (Some 1%N) deleted (Some 4200%Z) (js "Portal") (Some (js "Portal"))
    None (start_of_year (js "2007")) None None (js "Portal (2007).zip") 7
    (Some (js "A puzzle game.")) (Some 3%N) None None (Some 90%Z) None false
    [5%N] [] [] [] [8%N; 9%N] [].

Definition sample_world (deleted : Date) : World :=
  MkWorld (MkStore [sample_row deleted] 2) [].

(** The listing holds a descriptor named like the path of the record. *)
Definition listed (files : list IGameVaultFile) (r : Game) : bool :=
  match find_in_listing files r with
  | Some _ => true
  | None => false
  end.

(** The row [deleteGame] leaves. *)
Definition soft_deleted (now : Z) (r : Game) : Game :=
  set_deleted_at (Some now) r.

(** What the integrity check is to do to a row. *)
Definition swept (now : Z) (files : list IGameVaultFile) (r : Game) : Game :=
  if is_active r && negb (listed files r) then soft_deleted now r else r.

(** The record [g] and the row [r] have the same identifier. *)
Definition same_id (g r : Game) : bool :=
  match id g with
  | Some j => has_id j r
  | None => false
  end.

(** The rows an iteration over [games] soft-deletes. *)
Definition marked (files : list IGameVaultFile) (games : list Game)
    (r : Game) : bool :=
  existsb (fun g => same_id g r && negb (listed files g)) games.

Definition mark (now : Z) (files : list IGameVaultFile) (games : list Game)
    (r : Game) : Game :=
  if marked files games r then soft_deleted now r else r.

(** The number of rows of the store, active or soft-deleted. *)
Definition row_count (w : World) : nat := length (rows (db w)).

(** A computation that never lowers the number of rows, and one that keeps
    it. *)
Definition grows {A : Type} (m : M A) : Prop :=
  forall w, row_count w <= row_count (snd (m w)).

Definition keeps_rows {A : Type} (m : M A) : Prop :=
  forall w, row_count (snd (m w)) = row_count w.

Definition second_row : Game :=
  set_file_path (js "Half-Life (1998).zip")
    (set_id (Some 2%N) (sample_row None)).

Definition two_rows : World :=
  MkWorld (MkStore [sample_row None; second_row] 3) [].

(** The store holds an active row with the path and the size of the file. *)
Definition settled (file : IGameVaultFile) (s : Store) : Prop :=
  exists r,
    findByPath (name file) s = Some r /\
    deleted_at r = None /\ size r = file_size file.

(** The writes of a trace. *)
Definition writes_of (l : list Event) : list StoreWrite :=
  flat_map (fun e => match e with Wrote x => [x] | Logged _ => [] end) l.

Definition empty_world : World := MkWorld (MkStore [] 1) [].

(** A listing that names the same path twice, with two sizes. *)
Definition repeated_name : list IGameVaultFile :=
  [MkFile (js "Portal (2007).zip") 1; MkFile (js "Portal (2007).zip") 2].

Definition sample_listing : list IGameVaultFile :=
  [sample_candidate; MkFile (js "Portal.zip") 3;
   MkFile (js "Half-Life (1998) (v1.1) (EA).zip") 20].

(** A path has one size: the descriptors of the listing that name the same
    path give the same size, as far as the parser accepts the path. The
    listing of a directory is such a list. *)
Definition one_size_per_name (files : list IGameVaultFile) : Prop :=
  forall f f' g,
    In f files -> In f' files -> name f = name f' ->
    gameToIndex f = Ok g -> file_size f = file_size f'.

(** The sample listing, with its first descriptor named once more. *)
Definition sample_listing_with_a_repeat : list IGameVaultFile :=
  sample_listing ++ [sample_candidate].

(** [r'] is [r], or [r] restored when its path is [p]. *)
Definition row_rel (p : str) (r r' : Game) : Prop :=
  r' = r \/ (file_path r = p /\ r' = restored r).

(** [s'] is [s] where some rows of path [p] have lost their soft-delete
    marker. *)
Definition restored_at (p : str) (s s' : Store) : Prop :=
  next_id s' = next_id s /\ Forall2 (row_rel p) (rows s) (rows s').

(** A computation that does not tell apart two stores that differ by the
    restoration of rows of path [p]: it returns and logs the same, and
    leaves stores that differ in the same way. *)
Definition blind (p : str) {A : Type} (m : M A) : Prop :=
  forall w v,
    restored_at p (db w) (db v) ->
    exists res evs s' v',
      m w = (res, MkWorld s' (events w ++ evs)) /\
      m v = (res, MkWorld v' (events v ++ evs)) /\
      restored_at p s' v'.

(** A computation that keeps the store well formed. *)
Definition keeps_wf {A : Type} (m : M A) : Prop :=
  forall w, store_wf (db w) -> store_wf (db (snd (m w))).

Ltac close_failure H :=
  intros [= _ <-]; cbn [db events]; split; [exact H|];
  rewrite <- ?app_assoc; eexists; reflexivity.

(** An environment in which the store refuses to save a game of size 5. *)
Definition refuses_size_5 (c : Call) : bool :=
  match c with
  | CallSave g => N.eqb (size g) 5
  | _ => false
  end.

Definition portal_5 : IGameVaultFile := MkFile (js "Portal (2007).zip") 5.
Definition portal_7 : IGameVaultFile := MkFile (js "Portal (2007).zip") 7.

Definition listing_with_portal_5 : list IGameVaultFile :=
  [MkFile (js "Half-Life (1998).zip") 3; portal_5;
   MkFile (js "Doom (1993) (v1.9).zip") 4].

(** A character of an extension: neither a dot nor a slash. *)
Definition ext_char (c : ascii) : bool :=
  negb (chr_is "." c) && negb (chr_is "/" c).

(** A root directory with a zip archive, a gzipped tar archive and a text
    file, all of 42 bytes. *)
Definition sample_fs : FileSystem :=
  MkFileSystem
    (fun _ => Ok [js "Portal (2007).zip"; js "Half-Life (1998).tar.gz";
                  js "notes.txt"])
    (fun _ => Ok 42%N).

(** An environment in which the store refuses to soft-delete the row of
    path [p]. *)
Definition refuses_delete_of (p : str) (c : Call) : bool :=
  match c with
  | CallDelete g => has_path p g
  | _ => false
  end.

(** The entries [getFiles] keeps: those whose extension is in the list. *)
Definition allowed (file : str) : bool :=
  includes archive_extensions (extname file).

(** The sample root directory, seen when the text file has grown. *)
Definition sample_fs_other_notes : FileSystem :=
  MkFileSystem (readdirSync sample_fs)
    (fun p => if str_eqb p (js "/files/notes.txt") then Ok 7%N
              else statSync_size sample_fs p).

(** The value of an upper-case hexadecimal digit. *)
Definition hex_value (c : ascii) : option nat :=
  let n := nat_of_ascii c in
  if Nat.leb 48 n && Nat.leb n 57 then Some (n - 48)
  else if Nat.leb 65 n && Nat.leb n 70 then Some (n - 55)
  else None.

Definition octet_at (s : str) : option (nat * str) :=
  match s with
  | p :: h1 :: h2 :: r =>
      if chr_is "%" p then
        match hex_value h1, hex_value h2 with
        | Some a, Some b => Some (16 * a + b, r)
        | _, _ => None
        end
      else None
  | _ => None
  end.

(** The code unit at the head of an encoded text, and the rest of the
    text. *)
Definition decode_unit (s : str) : option (ascii * str) :=
  match s with
  | [] => None
  | c :: r =>
      if chr_is "%" c then
        match octet_at s with
        | Some (n, r1) =>
            if Nat.ltb n 128 then Some (ascii_of_nat n, r1)
            else
              match octet_at r1 with
              | Some (m, r2) =>
                  Some (ascii_of_nat ((n - 192) * 64 + (m - 128)), r2)
              | None => None
              end
        | None => None
        end
      else Some (c, r)
  end.

(** A character of an encoded text: unescaped, or the percent sign. *)
Definition encoded_char (c : ascii) : bool := uriUnescaped c || chr_is "%" c.

(** The failures a trace reports: the error and the path of each
    "Failed to index" line. *)
Definition failures_of (l : list Event) : list (exn * str) :=
  flat_map
    (fun e =>
       match e with
       | Logged (MsgFailedToIndex error path) => [(error, path)]
       | _ => []
       end) l.

(** The parser throws on the file. *)
Definition rejected (file : IGameVaultFile) : bool :=
  match gameToIndex file with
  | Ok _ => false
  | Err _ => true
  end.

(** What the integrity check writes and logs for a record it soft-deletes:
    the soft-delete of the record, then the line that reports it. *)
Definition deletion_events (now : Z) (g : Game) : list Event :=
  [Wrote (SoftDeleted (soft_deleted now g));
   Logged (MsgMarkedAsDeleted (file_path g))].

(** * Properties *)

(** ** The matcher *)

Lemma star_then_ext (k k' : bool -> str -> option mres) p :
  (forall b b' s, k b s = k' b' s) ->
  forall s b b', star_then k p b s = star_then k' p b' s.
Proof.
  intros Hk s; induction s as [|c r IH]; intros b b'; simpl.
  - apply Hk.
  - destruct (p c); [|apply Hk].
    rewrite (IH false false), (Hk b b' (c :: r)). reflexivity.
Qed.

(** A pattern without [^] matches the same way at every position. *)
Lemma match_here_bol_free re :
  bol_free re = true ->
  forall s b b', match_here re b s = match_here re b' s.
Proof.
  induction re as [|a k IH]; intros Hf s b b'; [reflexivity|].
  simpl in Hf. apply andb_true_iff in Hf as [Ha Hk].
  specialize (IH Hk).
  destruct a; simpl; try discriminate.
  - destruct s as [|c r]; [reflexivity|]. destruct (p c); auto.
  - apply star_then_ext. intros; apply IH.
  - destruct s as [|c r]; [reflexivity|]. destruct (p c); auto.
  - destruct (take_class n p s); auto.
  - destruct s; auto.
  - rewrite (IH s b b'). reflexivity.
  - rewrite (IH s b b'). reflexivity.
Qed.

Lemma takeWhile_dropWhile p s : takeWhile p s ++ dropWhile p s = s.
Proof.
  induction s as [|c r IH]; simpl; [reflexivity|].
  destruct (p c); simpl; congruence.
Qed.

Lemma takeWhile_all p s : forallb p (takeWhile p s) = true.
Proof.
  induction s as [|c r IH]; simpl; [reflexivity|].
  destruct (p c) eqn:E; simpl; [rewrite E|]; auto.
Qed.

Lemma dropWhile_app p t c post :
  forallb p t = true -> p c = false ->
  dropWhile p (t ++ c :: post) = c :: post.
Proof.
  induction t as [|x t IH]; simpl; intros Ht Hc.
  - rewrite Hc; reflexivity.
  - apply andb_true_iff in Ht as [Hx Ht]. rewrite Hx. auto.
Qed.

Lemma takeWhile_app p t c post :
  forallb p t = true -> p c = false ->
  takeWhile p (t ++ c :: post) = t.
Proof.
  induction t as [|x t IH]; simpl; intros Ht Hc.
  - rewrite Hc; reflexivity.
  - apply andb_true_iff in Ht as [Hx Ht]. rewrite Hx. f_equal; auto.
Qed.

Lemma dropWhile_all p t : forallb p t = true -> dropWhile p t = [].
Proof.
  induction t as [|x t IH]; simpl; [reflexivity|].
  intros H; apply andb_true_iff in H as [Hx Ht]. rewrite Hx; auto.
Qed.

(** When what follows a greedy class refuses every input that starts with a
    character of the class, no backtracking can succeed: the class takes its
    longest run and what follows is tried once, there. *)
Lemma star_then_greedy (k : bool -> str -> option mres) p :
  (forall b b' s, k b s = k b' s) ->
  (forall b c r, p c = true -> k b (c :: r) = None) ->
  forall s b, star_then k p b s = k b (dropWhile p s).
Proof.
  intros Hb Hrej s; induction s as [|c r IH]; intros b; simpl.
  - reflexivity.
  - destruct (p c) eqn:E; [|reflexivity].
    rewrite IH. destruct (k false (dropWhile p r)) eqn:K.
    + rewrite (Hb b false). symmetry; exact K.
    + rewrite Hrej by exact E. rewrite (Hb b false). symmetry; exact K.
Qed.

Lemma take_class_spec n p s r :
  take_class n p s = Some r <->
  exists d, s = d ++ r /\ length d = n /\ forallb p d = true.
Proof.
  revert s; induction n as [|n IH]; intros s; simpl.
  - split.
    + intros [= <-]. exists []; auto.
    + intros (d & -> & Hl & _). destruct d; [reflexivity|discriminate].
  - destruct s as [|c s'].
    + split; [discriminate|].
      intros (d & Hs & Hl & _). destruct d; discriminate.
    + destruct (p c) eqn:E.
      * rewrite IH. split.
        -- intros (d & -> & Hl & Hp). exists (c :: d); simpl.
           rewrite E, Hp, Hl. auto.
        -- intros (d & Hs & Hl & Hp). destruct d as [|x d]; [discriminate|].
           simpl in *. injection Hs as -> ->. injection Hl as Hl.
           apply andb_true_iff in Hp as [_ Hp]. exists d; auto.
      * split; [discriminate|].
        intros (d & Hs & Hl & Hp). destruct d as [|x d]; [discriminate|].
        simpl in *. injection Hs as -> ->. rewrite E in Hp. discriminate.
Qed.

(** [exec_from] finds the leftmost position at which the pattern matches. *)
Lemma exec_from_none re :
  bol_free re = true ->
  forall s b acc,
    exec_from re b acc s = None <->
    (forall pre suf, s = pre ++ suf -> match_here re false suf = None).
Proof.
  intros Hf s; induction s as [|c r IH]; intros b acc; simpl;
    rewrite (match_here_bol_free re Hf _ b false).
  - destruct (match_here re false []) eqn:E.
    + split; [discriminate|]. intros H. rewrite (H [] []) in E by reflexivity.
      discriminate.
    + split; [|reflexivity]. intros _ pre suf Hs.
      destruct pre; [|discriminate]. simpl in Hs; subst suf. exact E.
  - destruct (match_here re false (c :: r)) eqn:E.
    + split; [discriminate|]. intros H.
      rewrite (H [] (c :: r)) in E by reflexivity. discriminate.
    + rewrite IH. split.
      * intros H pre suf Hs. destruct pre as [|x pre]; simpl in Hs.
        -- subst suf; exact E.
        -- injection Hs as -> Hs. eapply H; eauto.
      * intros H pre suf Hs. apply (H (c :: pre) suf). simpl; congruence.
Qed.

Lemma exec_from_some re :
  bol_free re = true ->
  forall s b acc x,
    exec_from re b acc s = Some x <->
    exists pre suf m,
      s = pre ++ suf /\ x = ExecResult (rev acc ++ pre) suf m /\
      match_here re false suf = Some m /\
      (forall pre1 suf1, s = pre1 ++ suf1 -> length pre1 < length pre ->
         match_here re false suf1 = None).
Proof.
  intros Hf s; induction s as [|c r IH]; intros b acc x; simpl;
    rewrite (match_here_bol_free re Hf _ b false).
  - destruct (match_here re false []) eqn:E.
    + split.
      * intros [= <-]. exists [], [], m. rewrite (app_nil_r (rev acc)).
        split; [reflexivity|split; [reflexivity|split; [exact E|]]].
        intros pre1 suf1 _ Hlt; simpl in Hlt; lia.
      * intros (pre & suf & m' & Hs & -> & Hm & _).
        destruct pre; [|discriminate]. simpl in Hs; subst suf.
        rewrite app_nil_r. congruence.
    + split; [discriminate|].
      intros (pre & suf & m' & Hs & _ & Hm & _).
      destruct pre; [|discriminate]. simpl in Hs; subst suf. congruence.
  - destruct (match_here re false (c :: r)) eqn:E.
    + split.
      * intros [= <-]. exists [], (c :: r), m. rewrite (app_nil_r (rev acc)).
        split; [reflexivity|split; [reflexivity|split; [exact E|]]].
        intros pre1 suf1 _ Hlt; simpl in Hlt; lia.
      * intros (pre & suf & m' & Hs & -> & Hm & Hleft).
        destruct pre as [|y pre].
        -- simpl in Hs; subst suf. rewrite app_nil_r. congruence.
        -- rewrite (Hleft [] (c :: r)) in E; [discriminate|reflexivity|].
           simpl; lia.
    + rewrite IH. split.
      * intros (pre & suf & m' & -> & -> & Hm & Hleft).
        exists (c :: pre), suf, m'. simpl. rewrite <- app_assoc. simpl.
        split; [reflexivity|split; [reflexivity|split; [exact Hm|]]].
        intros pre1 suf1 Hs Hlt. destruct pre1 as [|y pre1]; simpl in Hs.
        -- subst suf1; exact E.
        -- injection Hs as -> Hs. apply (Hleft pre1 suf1 Hs).
           simpl in Hlt; lia.
      * intros (pre & suf & m' & Hs & -> & Hm & Hleft).
        destruct pre as [|y pre]; simpl in Hs.
        -- subst suf. congruence.
        -- injection Hs as <- Hs. exists pre, suf, m'.
           simpl. rewrite <- app_assoc. simpl.
           split; [exact Hs|split; [reflexivity|split; [exact Hm|]]].
           intros pre1 suf1 Hs1 Hlt. apply (Hleft (c :: pre1) suf1).
           ++ simpl; congruence.
           ++ simpl; lia.
Qed.

(** ** The patterns of the extractors, one position at a time *)

Lemma chr_is_true a c : chr_is a c = true <-> c = a.
Proof. unfold chr_is. rewrite Ascii.eqb_eq. split; congruence. Qed.

Lemma chr_is_refl a : chr_is a a = true.
Proof. apply chr_is_true; reflexivity. Qed.

Lemma chr_not_true a c : chr_not a c = true <-> c <> a.
Proof.
  unfold chr_not. rewrite negb_true_iff, Ascii.eqb_neq. split; congruence.
Qed.

Lemma chr_not_is a c : chr_not a c = negb (chr_is a c).
Proof. reflexivity. Qed.

Lemma firstn_app_len {A : Type} (d r : list A) :
  firstn (length (d ++ r) - length r) (d ++ r) = d.
Proof.
  rewrite length_app. replace (length d + length r - length r) with (length d)
    by lia.
  rewrite firstn_app, Nat.sub_diag, firstn_all. simpl. apply app_nil_r.
Qed.

(** The equations of [match_here]. *)
Lemma match_here_char p k b s :
  match_here (AChar p :: k) b s =
  match s with
  | c :: r => if p c then match_here k false r else None
  | [] => None
  end.
Proof. reflexivity. Qed.

Lemma match_here_star p k b s :
  match_here (AStar p :: k) b s = star_then (match_here k) p b s.
Proof. reflexivity. Qed.

Lemma match_here_plus p k b s :
  match_here (APlus p :: k) b s =
  match s with
  | c :: r => if p c then star_then (match_here k) p false r else None
  | [] => None
  end.
Proof. reflexivity. Qed.

Lemma match_here_open k b s :
  match_here (AOpen :: k) b s = option_map (set_open s) (match_here k b s).
Proof. reflexivity. Qed.

Lemma match_here_close k b s :
  match_here (AClose :: k) b s = option_map (set_close s) (match_here k b s).
Proof. reflexivity. Qed.

Lemma match_here_nil b s : match_here [] b s = Some (MRes s None None).
Proof. reflexivity. Qed.

(** What may follow the greedy class in the three patterns that close a
    parenthesis: a closing parenthesis, possibly closing group 1 first. *)
Lemma close_paren_rejects (k : regex) b c r :
  (k = [AChar (chr_is ")")] \/ k = [AClose; AChar (chr_is ")")]) ->
  chr_not ")" c = true -> match_here k b (c :: r) = None.
Proof.
  intros [-> | ->] H; simpl; rewrite chr_not_is in H;
    apply negb_true_iff in H; rewrite H; reflexivity.
Qed.

Lemma dropWhile_head p s c r : dropWhile p s = c :: r -> p c = false.
Proof.
  induction s as [|x s IH]; simpl; [discriminate|].
  destruct (p x) eqn:E; auto. intros [= -> _]; exact E.
Qed.

(** A run of characters other than [a] followed by [a]: the decomposition
    is unique. *)
Lemma run_then_unique p (t t' : str) c c' post post' :
  forallb p t = true -> forallb p t' = true -> p c = false -> p c' = false ->
  t ++ c :: post = t' ++ c' :: post' -> t = t' /\ c = c' /\ post = post'.
Proof.
  intros Ht Ht' Hc Hc' E.
  assert (E1 := f_equal (takeWhile p) E).
  assert (E2 := f_equal (dropWhile p) E).
  rewrite !takeWhile_app in E1 by auto.
  rewrite !dropWhile_app in E2 by auto.
  injection E2 as -> ->. auto.
Qed.

Lemma match_parentheses b s m :
  match_here re_parentheses b s = Some m <->
  exists t post,
    s = "("%char :: t ++ ")"%char :: post /\
    forallb (chr_not ")") t = true /\ m = MRes post None None.
Proof.
  unfold re_parentheses. rewrite match_here_char.
  destruct s as [|c s].
  { split; [discriminate|]. intros (t & post & H & _); discriminate. }
  destruct (chr_is "(" c) eqn:Ec.
  2:{ split; [discriminate|]. intros (t & post & [= -> _] & _).
      rewrite chr_is_refl in Ec; discriminate. }
  apply chr_is_true in Ec; subst c.
  rewrite match_here_star, star_then_greedy.
  2:{ intros; apply match_here_bol_free; reflexivity. }
  2:{ intros; apply close_paren_rejects; auto. }
  rewrite match_here_char.
  destruct (dropWhile (chr_not ")") s) as [|c post] eqn:Ed.
  - split; [discriminate|]. intros (t & post & [= Hs] & Ht & _).
    rewrite Hs, dropWhile_app in Ed by auto. discriminate.
  - pose proof (dropWhile_head _ _ Ed) as Hc.
    rewrite chr_not_is in Hc. apply negb_false_iff in Hc. rewrite Hc.
    apply chr_is_true in Hc; subst c. rewrite match_here_nil. split.
    + intros [= <-]. exists (takeWhile (chr_not ")") s), post.
      rewrite <- Ed, takeWhile_dropWhile. auto using takeWhile_all.
    + intros (t & post' & [= Hs] & Ht & ->).
      rewrite Hs, dropWhile_app in Ed by auto. congruence.
Qed.

Lemma match_version b s m :
  match_here re_version b s = Some m <->
  exists t post,
    s = "("%char :: "v"%char :: t ++ ")"%char :: post /\
    t <> [] /\ forallb (chr_not ")") t = true /\
    m = MRes post (Some ("v"%char :: t ++ ")"%char :: post))
          (Some (")"%char :: post)).
Proof.
  unfold re_version. rewrite match_here_char.
  destruct s as [|c s].
  { split; [discriminate|]. intros (t & post & H & _); discriminate. }
  destruct (chr_is "(" c) eqn:Ec.
  2:{ split; [discriminate|]. intros (t & post & [= -> _] & _).
      rewrite chr_is_refl in Ec; discriminate. }
  apply chr_is_true in Ec; subst c.
  rewrite match_here_open, match_here_char.
  destruct s as [|c s].
  { split; [discriminate|]. intros (t & post & H & _); discriminate. }
  destruct (chr_is "v" c) eqn:Ec.
  2:{ split; [discriminate|]. intros (t & post & [= -> _] & _).
      rewrite chr_is_refl in Ec; discriminate. }
  apply chr_is_true in Ec; subst c.
  rewrite match_here_plus.
  destruct s as [|c s].
  { split; [discriminate|]. intros (t & post & [= H] & _).
    destruct t; discriminate. }
  destruct (chr_not ")" c) eqn:Ec.
  2:{ split; [discriminate|]. intros (t & post & [= H] & Hne & Ht & _).
      destruct t as [|x t]; [congruence|]. simpl in H, Ht.
      injection H as -> _. rewrite Ec in Ht. discriminate. }
  rewrite star_then_greedy.
  2:{ intros; apply match_here_bol_free; reflexivity. }
  2:{ intros; apply close_paren_rejects; auto. }
  rewrite match_here_close, match_here_char.
  destruct (dropWhile (chr_not ")") s) as [|c' post] eqn:Ed.
  - split; [discriminate|]. intros (t & post & [= Hs] & _ & Ht & _).
    destruct t as [|x t]; simpl in Hs.
    + injection Hs as -> _. discriminate.
    + injection Hs as _ Hs. simpl in Ht.
      apply andb_true_iff in Ht as [_ Ht].
      rewrite Hs, dropWhile_app in Ed by auto. discriminate.
  - pose proof (dropWhile_head _ _ Ed) as Hc.
    rewrite chr_not_is in Hc. apply negb_false_iff in Hc. rewrite Hc.
    apply chr_is_true in Hc; subst c'. rewrite match_here_nil. simpl.
    split.
    + intros [= <-]. exists (c :: takeWhile (chr_not ")") s), post.
      simpl. rewrite Ec, takeWhile_all, <- Ed, takeWhile_dropWhile.
      repeat split; auto. discriminate.
    + intros (t & post' & [= Hs] & _ & Ht & ->).
      destruct t as [|x t]; simpl in Hs.
      * injection Hs as -> _. discriminate.
      * injection Hs as <- Hs. simpl in Ht.
        apply andb_true_iff in Ht as [_ Ht].
        rewrite Hs, dropWhile_app in Ed by auto.
        injection Ed as <-. rewrite Hs. reflexivity.
Qed.

Lemma app_eq_len {A : Type} (a a' b b' : list A) :
  length a = length a' -> a ++ b = a' ++ b' -> a = a' /\ b = b'.
Proof.
  revert a'; induction a as [|x a IH]; intros [|y a'] Hl E;
    try discriminate; simpl in *; auto.
  injection E as -> E. injection Hl as Hl.
  destruct (IH a' Hl E) as [-> ->]. auto.
Qed.

Lemma match_release_year b s m :
  match_here re_release_year b s = Some m <->
  exists d post,
    s = "("%char :: d ++ ")"%char :: post /\
    length d = 4 /\ forallb is_digit d = true /\
    m = MRes post (Some (d ++ ")"%char :: post)) (Some (")"%char :: post)).
Proof.
  unfold re_release_year. rewrite match_here_char.
  destruct s as [|c s].
  { split; [discriminate|]. intros (t & post & H & _); discriminate. }
  destruct (chr_is "(" c) eqn:Ec.
  2:{ split; [discriminate|]. intros (t & post & [= -> _] & _).
      rewrite chr_is_refl in Ec; discriminate. }
  apply chr_is_true in Ec; subst c.
  rewrite match_here_open.
  change (match_here (ARep 4 is_digit :: [AClose; AChar (chr_is ")")]) false s)
    with (match take_class 4 is_digit s with
          | Some r => match_here [AClose; AChar (chr_is ")")] false r
          | None => None
          end).
  destruct (take_class 4 is_digit s) as [r|] eqn:Et.
  - apply take_class_spec in Et as (d & -> & Hl & Hd).
    rewrite match_here_close, match_here_char.
    destruct r as [|c post].
    + split; [discriminate|]. intros (d' & post & [= Hs] & Hl' & _).
      apply (f_equal (@length _)) in Hs. rewrite !length_app in Hs.
      simpl in Hs. lia.
    + destruct (chr_is ")" c) eqn:Ec.
      * apply chr_is_true in Ec; subst c. rewrite match_here_nil. simpl.
        split.
        -- intros [= <-]. exists d, post. auto.
        -- intros (d' & post' & [= Hs] & Hl' & Hd' & ->).
           apply app_eq_len in Hs as [-> [= ->]]; [reflexivity|lia].
      * split; [discriminate|].
        intros (d' & post' & [= Hs] & Hl' & Hd' & ->).
        apply app_eq_len in Hs as [_ [= -> _]]; [|lia].
        rewrite chr_is_refl in Ec. discriminate.
  - split; [discriminate|].
    intros (d & post & [= ->] & Hl & Hd & _).
    assert (take_class 4 is_digit (d ++ ")"%char :: post)
            = Some (")"%char :: post)) as E.
    { apply take_class_spec. eauto. }
    congruence.
Qed.

Lemma match_early_access b s m :
  match_here re_early_access b s = Some m <->
  exists post, s = js "(EA)" ++ post /\ m = MRes post None None.
Proof.
  unfold re_early_access. rewrite match_here_char.
  destruct s as [|c1 s];
    [split; [discriminate|intros (post & H & _); discriminate]|].
  destruct (chr_is "(" c1) eqn:E1.
  2:{ split; [discriminate|]. intros (post & [= -> _] & _).
      rewrite chr_is_refl in E1; discriminate. }
  apply chr_is_true in E1; subst. rewrite match_here_char.
  destruct s as [|c2 s];
    [split; [discriminate|intros (post & H & _); discriminate]|].
  destruct (chr_is "E" c2) eqn:E2.
  2:{ split; [discriminate|]. intros (post & [= -> _] & _).
      rewrite chr_is_refl in E2; discriminate. }
  apply chr_is_true in E2; subst. rewrite match_here_char.
  destruct s as [|c3 s];
    [split; [discriminate|intros (post & H & _); discriminate]|].
  destruct (chr_is "A" c3) eqn:E3.
  2:{ split; [discriminate|]. intros (post & [= -> _] & _).
      rewrite chr_is_refl in E3; discriminate. }
  apply chr_is_true in E3; subst. rewrite match_here_char.
  destruct s as [|c4 s];
    [split; [discriminate|intros (post & H & _); discriminate]|].
  destruct (chr_is ")" c4) eqn:E4.
  2:{ split; [discriminate|]. intros (post & [= -> _] & _).
      rewrite chr_is_refl in E4; discriminate. }
  apply chr_is_true in E4; subst. rewrite match_here_nil.
  split.
  - intros [= <-]. exists s; auto.
  - intros (post & [= ->] & ->). reflexivity.
Qed.

(** ** What the extractors compute *)

Lemma starts_year_group_match suf :
  starts_year_group suf <->
  exists m, match_here re_release_year false suf = Some m.
Proof.
  split.
  - intros (d & post & Hs & Hl & Hd). eexists.
    apply match_release_year. exists d, post. eauto.
  - intros (m & Hm). apply match_release_year in Hm
      as (d & post & Hs & Hl & Hd & _).
    exists d, post. split; auto.
Qed.

Lemma starts_version_group_match suf :
  starts_version_group suf <->
  exists m, match_here re_version false suf = Some m.
Proof.
  split.
  - intros (t & post & Hs & Hl & Hd). eexists.
    apply match_version. exists t, post. eauto.
  - intros (m & Hm). apply match_version in Hm
      as (t & post & Hs & Hl & Hd & _).
    exists t, post. split; auto.
Qed.

Lemma not_some_none {A : Type} (o : option A) :
  ~ (exists m, o = Some m) <-> o = None.
Proof.
  destruct o; split; try congruence.
  - intros H; exfalso; apply H; eauto.
  - intros _ (m & H); discriminate.
Qed.

(** The release year is the text of the first parenthesized group of exactly
    four digits of the whole path. *)
Lemma regexExtractReleaseYear_ok s y :
  regexExtractReleaseYear s = Ok y <->
  exists pre suf d post,
    y = Some d /\ first_at starts_year_group s pre suf /\
    year_group_at suf d post.
Proof.
  unfold regexExtractReleaseYear, exec.
  destruct (exec_from re_release_year true [] s) as [x|] eqn:E.
  - apply exec_from_some in E as (pre & suf & m & Hs & -> & Hm & Hleft);
      [|reflexivity].
    pose proof Hm as Hm'.
    apply match_release_year in Hm' as (d & post & Hsuf & Hl & Hd & ->).
    assert (Hfirst : first_at starts_year_group s pre suf).
    { split; [exact Hs|]. split.
      - exists d, post. split; auto.
      - intros pre1 suf1 H1 H2 H3. apply starts_year_group_match in H3
          as (m1 & H3). rewrite (Hleft pre1 suf1 H1 H2) in H3. discriminate. }
    unfold group1; cbn [x_match m_open m_close].
    rewrite (firstn_app_len d (")"%char :: post)).
    split.
    + intros [= <-]. exists pre, suf, d, post.
      split; [reflexivity|]. split; [exact Hfirst|]. split; auto.
    + intros (pre' & suf' & d' & post' & -> & (Hs' & Hp' & Hleft') & Hy').
      destruct (Nat.lt_trichotomy (length pre) (length pre')) as [L|[L|L]].
      * exfalso. apply (Hleft' pre suf Hs L). exists d, post. split; auto.
      * subst s. apply app_eq_len in Hs' as [_ <-]; [|exact L].
        destruct Hy' as (Hs1 & Hl1 & _). rewrite Hsuf in Hs1.
        injection Hs1 as Hs1.
        apply app_eq_len in Hs1 as [-> _]; [reflexivity|lia].
      * exfalso. destruct Hfirst as (_ & _ & Hl1).
        apply (Hl1 pre' suf' Hs' L). exact Hp'.
  - split; [discriminate|].
    intros (pre & suf & d & post & _ & (Hs & Hp & _) & _).
    assert (E' := proj1 (@exec_from_none re_release_year eq_refl s true [])
                    E).
    apply starts_year_group_match in Hp as (m & Hm).
    rewrite (E' pre suf Hs) in Hm. discriminate.
Qed.

Lemma first_at_unique P s pre suf pre' suf' :
  first_at P s pre suf -> first_at P s pre' suf' -> pre = pre' /\ suf = suf'.
Proof.
  intros (Hs & Hp & Hl) (Hs' & Hp' & Hl').
  destruct (Nat.lt_trichotomy (length pre) (length pre')) as [L|[L|L]].
  - exfalso. exact (Hl' pre suf Hs L Hp).
  - subst s. apply app_eq_len in Hs' as [-> ->]; auto.
  - exfalso. exact (Hl pre' suf' Hs' L Hp').
Qed.

Lemma exec_none_occurs re (P : str -> Prop) s :
  bol_free re = true ->
  (forall suf, P suf <-> exists m, match_here re false suf = Some m) ->
  exec re s = None <-> ~ occurs P s.
Proof.
  intros Hf HP. unfold exec.
  rewrite (@exec_from_none re Hf s true []). split.
  - intros H (pre & suf & Hs & Hp). apply HP in Hp as (m & Hm).
    rewrite (H pre suf Hs) in Hm. discriminate.
  - intros H pre suf Hs. apply not_some_none. intros Hm.
    apply H. exists pre, suf. split; [exact Hs|]. apply HP; exact Hm.
Qed.

Lemma exec_some_first re (P : str -> Prop) s x :
  bol_free re = true ->
  (forall suf, P suf <-> exists m, match_here re false suf = Some m) ->
  exec re s = Some x <->
  exists pre suf m,
    x = ExecResult pre suf m /\ first_at P s pre suf /\
    match_here re false suf = Some m.
Proof.
  intros Hf HP. unfold exec.
  rewrite (@exec_from_some re Hf s true [] x). simpl. split.
  - intros (pre & suf & m & Hs & -> & Hm & Hl). exists pre, suf, m.
    split; [reflexivity|]. split; [|exact Hm].
    split; [exact Hs|]. split; [apply HP; eauto|].
    intros pre1 suf1 H1 H2 H3. apply HP in H3 as (m1 & H3).
    rewrite (Hl pre1 suf1 H1 H2) in H3. discriminate.
  - intros (pre & suf & m & -> & (Hs & Hp & Hl) & Hm). exists pre, suf, m.
    split; [exact Hs|]. split; [reflexivity|]. split; [exact Hm|].
    intros pre1 suf1 H1 H2. apply not_some_none. intros H3.
    apply (Hl pre1 suf1 H1 H2). apply HP; exact H3.
Qed.

(** Without such a group, reading index 1 of the [null] match throws. *)
Lemma regexExtractReleaseYear_err s :
  regexExtractReleaseYear s = Err TypeError <->
  ~ occurs starts_year_group s.
Proof.
  rewrite <- (@exec_none_occurs re_release_year starts_year_group s
                eq_refl starts_year_group_match).
  unfold regexExtractReleaseYear.
  destruct (exec re_release_year s); split; congruence.
Qed.

Lemma regexExtractReleaseYear_total s :
  regexExtractReleaseYear s = Err TypeError \/
  exists d, regexExtractReleaseYear s = Ok (Some d) /\
            length d = 4 /\ forallb is_digit d = true.
Proof.
  destruct (regexExtractReleaseYear s) as [y|e] eqn:E.
  - right. apply regexExtractReleaseYear_ok in E
      as (pre & suf & d & post & -> & _ & (_ & Hl & Hd)).
    exists d; auto.
  - left. unfold regexExtractReleaseYear in E.
    destruct (exec re_release_year s); congruence.
Qed.

(** The version is the letter v and the text of the first group made of
    them, parentheses excluded. *)
Lemma regexExtractVersion_some s v :
  regexExtractVersion s = Some v <->
  exists pre suf t post,
    v = "v"%char :: t /\ first_at starts_version_group s pre suf /\
    version_group_at suf t post.
Proof.
  unfold regexExtractVersion.
  destruct (exec re_version s) as [x|] eqn:E.
  - apply (@exec_some_first re_version starts_version_group s x eq_refl
             starts_version_group_match) in E
      as (pre & suf & m & -> & Hfirst & Hm).
    apply match_version in Hm as (t & post & Hsuf & Hne & Ht & ->).
    unfold group1; cbn [x_match m_open m_close].
    change ("v"%char :: t ++ ")"%char :: post)
      with (("v"%char :: t) ++ ")"%char :: post).
    rewrite (firstn_app_len ("v"%char :: t) (")"%char :: post)).
    split.
    + intros [= <-]. exists pre, suf, t, post.
      split; [reflexivity|]. split; [exact Hfirst|]. split; auto.
    + intros (pre' & suf' & t' & post' & -> & Hfirst' & (Hs' & _ & Ht')).
      destruct (first_at_unique Hfirst Hfirst') as [_ <-].
      rewrite Hsuf in Hs'. injection Hs' as Hs'.
      apply (@run_then_unique (chr_not ")")) in Hs' as (-> & _); auto.
  - split; [discriminate|].
    intros (pre & suf & t & post & _ & (Hs & Hp & _) & _).
    apply (@exec_none_occurs re_version starts_version_group s eq_refl
             starts_version_group_match) in E.
    exfalso. apply E. exists pre, suf. auto.
Qed.

Lemma regexExtractVersion_none s :
  regexExtractVersion s = None <-> ~ occurs starts_version_group s.
Proof.
  rewrite <- (@exec_none_occurs re_version starts_version_group s
                eq_refl starts_version_group_match).
  unfold regexExtractVersion.
  destruct (exec re_version s) as [x|] eqn:E; [|tauto].
  split; [|discriminate]. intros H. exfalso.
  apply (@exec_some_first re_version starts_version_group s x eq_refl
           starts_version_group_match) in E
    as (pre & suf & m & -> & Hfirst & Hm).
  apply match_version in Hm as (t & post & Hsuf & Hne & Ht & ->).
  unfold group1 in H; cbn [x_match m_open m_close] in H.
  change ("v"%char :: t ++ ")"%char :: post)
    with (("v"%char :: t) ++ ")"%char :: post) in H.
  rewrite (firstn_app_len ("v"%char :: t) (")"%char :: post)) in H.
  discriminate.
Qed.

(** The flag tells whether the marker occurs anywhere in the path. *)
Lemma regexExtractEarlyAccessFlag_true s :
  regexExtractEarlyAccessFlag s = true <->
  exists pre post, s = pre ++ js "(EA)" ++ post.
Proof.
  unfold regexExtractEarlyAccessFlag, test.
  set (P := fun suf : str => exists post, suf = js "(EA)" ++ post).
  assert (HP : forall suf,
             P suf <-> exists m, match_here re_early_access false suf = Some m).
  { intros suf; split.
    - intros (post & ->). eexists. apply match_early_access. eauto.
    - intros (m & Hm). apply match_early_access in Hm as (post & -> & _).
      exists post; reflexivity. }
  destruct (exec re_early_access s) as [x|] eqn:E.
  - split; [intros _|reflexivity].
    apply (@exec_some_first re_early_access P s x eq_refl HP) in E
      as (pre & suf & m & _ & (Hs & (post & ->) & _) & _).
    eauto.
  - split; [discriminate|]. intros (pre & post & Hs). exfalso.
    apply (@exec_none_occurs re_early_access P s eq_refl HP) in E. apply E.
    exists pre, (js "(EA)" ++ post). split; [exact Hs|]. exists post; auto.
Qed.

(** ** The three replacements of [regexExtractTitle] *)

Lemma is_sep_re_dot c : is_sep c = true -> re_dot c = true.
Proof.
  unfold is_sep. intros H. apply orb_true_iff in H as [H|H];
    apply chr_is_true in H; subst c; reflexivity.
Qed.

Lemma match_here_bol k b s :
  match_here (ABol :: k) b s = if b then match_here k b s else None.
Proof. reflexivity. Qed.

Lemma exec_from_eq re b acc s :
  exec_from re b acc s =
  match match_here re b s with
  | Some m => Some (ExecResult (rev acc) s m)
  | None =>
      match s with
      | [] => None
      | c :: r => exec_from re false (c :: acc) r
      end
  end.
Proof. destruct s; reflexivity. Qed.

Lemma exec_from_bol_false k s acc : exec_from (ABol :: k) false acc s = None.
Proof.
  revert acc; induction s as [|c r IH]; intros acc; simpl; auto.
Qed.

(** After the longest run of [.], the separator is looked for backwards:
    the match ends at the last separator of the run. *)
Lemma star_directory_none s b :
  no_sep s = true ->
  star_then (match_here [AChar is_sep]) re_dot b s = None.
Proof.
  revert b; induction s as [|c r IH]; intros b H; cbn [star_then];
    [reflexivity|].
  simpl in H. apply andb_true_iff in H as [Hc Hr].
  apply negb_true_iff in Hc. rewrite (IH false Hr), match_here_char, Hc.
  destruct (re_dot c); reflexivity.
Qed.

Lemma star_directory_some dir c seg b :
  forallb re_dot dir = true -> is_sep c = true -> no_sep seg = true ->
  star_then (match_here [AChar is_sep]) re_dot b (dir ++ c :: seg)
  = Some (MRes seg None None).
Proof.
  intros Hd Hc Hs. revert b; induction dir as [|x dir IH]; intros b;
    cbn [star_then app].
  - rewrite (@is_sep_re_dot c Hc), (@star_directory_none seg false Hs).
    rewrite match_here_char, Hc. reflexivity.
  - simpl in Hd. apply andb_true_iff in Hd as [Hx Hd].
    rewrite Hx, (IH Hd). reflexivity.
Qed.

(** The directory is removed up to the last separator, provided no line
    terminator comes before it. *)
Lemma replace_directory_sep dir c seg :
  forallb re_dot dir = true -> is_sep c = true -> no_sep seg = true ->
  replace_empty re_directory (dir ++ c :: seg) = seg.
Proof.
  intros Hd Hc Hs. unfold replace_empty, exec, re_directory.
  assert (E : match_here [ABol; AStar re_dot; AChar is_sep] true
                (dir ++ c :: seg) = Some (MRes seg None None)).
  { rewrite match_here_bol, match_here_star.
    apply star_directory_some; auto. }
  rewrite exec_from_eq, E. reflexivity.
Qed.

Lemma replace_directory_none s :
  no_sep s = true -> replace_empty re_directory s = s.
Proof.
  intros Hs. unfold replace_empty, exec, re_directory.
  assert (E : match_here [ABol; AStar re_dot; AChar is_sep] true s = None).
  { rewrite match_here_bol, match_here_star.
    apply star_directory_none; auto. }
  rewrite exec_from_eq, E. destruct s; [reflexivity|].
  rewrite exec_from_bol_false. reflexivity.
Qed.

Lemma match_extension b s m :
  match_here re_extension b s = Some m <->
  exists ext,
    s = "."%char :: ext /\ no_dot ext = true /\
    m = MRes [] (Some ext) (Some []).
Proof.
  unfold re_extension. rewrite match_here_char.
  destruct s as [|c s].
  { split; [discriminate|]. intros (t & H & _); discriminate. }
  destruct (chr_is "." c) eqn:Ec.
  2:{ split; [discriminate|]. intros (t & [= -> _] & _).
      rewrite chr_is_refl in Ec; discriminate. }
  apply chr_is_true in Ec; subst c.
  rewrite match_here_open, match_here_star, star_then_greedy.
  2:{ intros; apply match_here_bol_free; reflexivity. }
  2:{ intros; reflexivity. }
  rewrite match_here_close.
  destruct (dropWhile (chr_not ".") s) as [|c post] eqn:Ed.
  - simpl. split.
    + intros [= <-]. exists s. repeat split.
      rewrite <- (takeWhile_dropWhile (chr_not ".") s), Ed, app_nil_r.
      apply takeWhile_all.
    + intros (ext & [= ->] & _ & ->). reflexivity.
  - simpl. split; [discriminate|]. intros (ext & [= ->] & He & _).
    unfold no_dot in He. rewrite (@dropWhile_all (chr_not ".") ext He) in Ed. discriminate.
Qed.

Lemma exec_from_extension stem ext b acc :
  no_dot ext = true ->
  exec_from re_extension b acc (stem ++ "."%char :: ext)
  = Some (ExecResult (rev acc ++ stem) ("."%char :: ext)
            (MRes [] (Some ext) (Some []))).
Proof.
  intros He. revert b acc; induction stem as [|x stem IH]; intros b acc.
  - simpl app. rewrite app_nil_r.
    assert (E : match_here re_extension b ("."%char :: ext)
                = Some (MRes [] (Some ext) (Some []))).
    { apply match_extension. eauto. }
    rewrite exec_from_eq, E. reflexivity.
  - assert (E : match_here re_extension b ((x :: stem) ++ "."%char :: ext)
                = None).
    { apply not_some_none. intros (m & Hm).
      apply match_extension in Hm as (ext' & [= _ Hs] & He' & _).
      rewrite <- Hs in He'. unfold no_dot in He'.
      rewrite forallb_app in He'. simpl in He'.
      rewrite andb_false_r in He'. discriminate. }
    rewrite exec_from_eq, E. cbn [app]. rewrite IH. simpl.
    rewrite <- app_assoc. reflexivity.
Qed.

(** The extension, from the last dot on, is removed. *)
Lemma replace_extension_dot stem ext :
  no_dot ext = true ->
  replace_empty re_extension (stem ++ "."%char :: ext) = stem.
Proof.
  intros He. unfold replace_empty, exec.
  rewrite exec_from_extension by exact He. simpl. apply app_nil_r.
Qed.

Lemma replace_extension_none s :
  no_dot s = true -> replace_empty re_extension s = s.
Proof.
  intros Hs. unfold replace_empty.
  assert (E : exec re_extension s = None).
  { apply (@exec_from_none re_extension eq_refl s true []).
    intros pre suf ->. apply not_some_none. intros (m & Hm).
    apply match_extension in Hm as (ext & -> & _).
    unfold no_dot in Hs. rewrite forallb_app in Hs. simpl in Hs.
    rewrite andb_false_r in Hs. discriminate. }
  rewrite E. reflexivity.
Qed.

Lemma existsb_close_split r :
  existsb (chr_is ")") r = true ->
  exists t post,
    r = t ++ ")"%char :: post /\ forallb (chr_not ")") t = true.
Proof.
  induction r as [|c r IH]; cbn [existsb]; [discriminate|].
  destruct (chr_is ")" c) eqn:E; cbn [orb].
  - intros _. apply chr_is_true in E; subst c. exists [], r. auto.
  - intros H. destruct (IH H) as (t & post & -> & Ht).
    exists (c :: t), post. cbn [forallb app].
    rewrite chr_not_is, E, Ht. auto.
Qed.

Lemma existsb_close_app t post :
  existsb (chr_is ")") (t ++ ")"%char :: post) = true.
Proof.
  rewrite existsb_app. cbn [existsb]. rewrite chr_is_refl.
  apply orb_true_r.
Qed.

Lemma strip_groups_inside t post :
  forallb (chr_not ")") t = true ->
  strip_groups true (t ++ ")"%char :: post) = strip_groups false post.
Proof.
  induction t as [|c t IH]; cbn [strip_groups app forallb]; intros H.
  - rewrite chr_is_refl. reflexivity.
  - apply andb_true_iff in H as [Hc Ht]. rewrite chr_not_is in Hc.
    apply negb_true_iff in Hc. rewrite Hc. auto.
Qed.

(** One search of the global replacement, against the direct definition. *)
Lemma exec_from_parentheses s :
  forall b acc,
    match exec_from re_parentheses b acc s with
    | None => strip_groups false s = s
    | Some x =>
        exists pre,
          x_before x = rev acc ++ pre /\
          strip_groups false s
          = pre ++ strip_groups false (m_rest (x_match x)) /\
          length (m_rest (x_match x)) < length (x_start x) /\
          length (m_rest (x_match x)) < length s
    end.
Proof.
  induction s as [|c r IH]; intros b acc.
  - rewrite exec_from_eq.
    destruct (match_here re_parentheses b []) as [m|] eqn:E; [|reflexivity].
    apply match_parentheses in E as (t & post & H & _). discriminate.
  - rewrite exec_from_eq.
    destruct (match_here re_parentheses b (c :: r)) as [m|] eqn:E.
    + apply match_parentheses in E as (t & post & [= -> ->] & Ht & ->).
      exists []. cbn [x_before x_match x_start m_rest].
      rewrite app_nil_r. split; [reflexivity|].
      cbn [strip_groups]. rewrite chr_is_refl, existsb_close_app.
      cbn [andb app]. rewrite strip_groups_inside by exact Ht.
      split; [reflexivity|]. simpl. rewrite length_app. simpl. lia.
    + assert (Hc : chr_is "(" c && existsb (chr_is ")") r = false).
      { apply not_true_is_false. intros H.
        apply andb_true_iff in H as [H1 H2]. apply chr_is_true in H1.
        subst c. apply existsb_close_split in H2 as (t & post & -> & Ht).
        assert (match_here re_parentheses b
                  ("("%char :: t ++ ")"%char :: post)
                = Some (MRes post None None)) as E'.
        { apply match_parentheses. eauto. }
        congruence. }
      specialize (IH false (c :: acc)).
      destruct (exec_from re_parentheses false (c :: acc) r) as [x|].
      * destruct IH as (pre & Hb & Hs & Hl1 & Hl2).
        exists (c :: pre). cbn [strip_groups]. rewrite Hc, Hs.
        split; [|split; [reflexivity|split; [exact Hl1|simpl; lia]]].
        rewrite Hb. simpl. rewrite <- app_assoc. reflexivity.
      * cbn [strip_groups]. rewrite Hc, IH. reflexivity.
Qed.

Lemma replaceAll_parentheses_fuel fuel :
  forall s b,
    length s < fuel ->
    replaceAll_empty_fuel fuel re_parentheses b s = strip_groups false s.
Proof.
  induction fuel as [|fuel IH]; intros s b Hl; [lia|].
  cbn [replaceAll_empty_fuel].
  pose proof (exec_from_parentheses s b []) as H.
  destruct (exec_from re_parentheses b [] s) as [x|].
  - destruct H as (pre & Hb & Hs & Hl1 & Hl2).
    simpl in Hb. rewrite Hb, Hs.
    apply Nat.lt_neq, Nat.eqb_neq in Hl1. rewrite Hl1.
    rewrite IH by lia. reflexivity.
  - symmetry; exact H.
Qed.

(** The global replacement removes every parenthesized group. *)
Lemma replaceAll_parentheses s :
  replaceAll_empty re_parentheses s = strip_groups false s.
Proof. apply replaceAll_parentheses_fuel. lia. Qed.

(** The direct definition, by its equations. *)
Lemma strip_groups_group pre t post :
  forallb (chr_not "(") pre = true -> forallb (chr_not ")") t = true ->
  strip_groups false (pre ++ "("%char :: t ++ ")"%char :: post)
  = pre ++ strip_groups false post.
Proof.
  intros Hp Ht. induction pre as [|c pre IH]; cbn [strip_groups app].
  - rewrite chr_is_refl, existsb_close_app. cbn [andb].
    apply strip_groups_inside; exact Ht.
  - cbn [forallb] in Hp. apply andb_true_iff in Hp as [Hc Hp].
    rewrite chr_not_is in Hc. apply negb_true_iff in Hc. rewrite Hc.
    cbn [andb]. rewrite (IH Hp). reflexivity.
Qed.

Lemma strip_groups_no_close s :
  forallb (chr_not ")") s = true -> strip_groups false s = s.
Proof.
  induction s as [|c s IH]; cbn [strip_groups forallb]; [reflexivity|].
  intros H. apply andb_true_iff in H as [Hc Hs].
  assert (E : existsb (chr_is ")") s = false).
  { apply not_true_is_false. intros E.
    apply existsb_close_split in E as (t & post & -> & _).
    rewrite forallb_app in Hs. cbn [forallb] in Hs.
    change (chr_not ")" ")") with false in Hs.
    rewrite andb_false_r in Hs. discriminate. }
  rewrite E, andb_false_r, (IH Hs). reflexivity.
Qed.

Lemma strip_groups_no_open s :
  forallb (chr_not "(") s = true -> strip_groups false s = s.
Proof.
  induction s as [|c s IH]; cbn [strip_groups forallb]; [reflexivity|].
  intros H. apply andb_true_iff in H as [Hc Hs].
  rewrite chr_not_is in Hc. apply negb_true_iff in Hc.
  rewrite Hc, (IH Hs). reflexivity.
Qed.

(** ** The title, in the words of the specification *)

Lemma forallb_rev {A : Type} (p : A -> bool) (l : list A) :
  forallb p (rev l) = forallb p l.
Proof.
  induction l as [|x l IH]; simpl; [reflexivity|].
  rewrite forallb_app, IH. simpl. rewrite andb_true_r. apply andb_comm.
Qed.

Lemma dropWhile_nil_iff p s : dropWhile p s = [] <-> forallb p s = true.
Proof.
  split; [|apply dropWhile_all].
  induction s as [|c s IH]; simpl; [reflexivity|].
  destruct (p c); [exact IH|discriminate].
Qed.

Lemma path_split path : path = directory_prefix path ++ last_segment path.
Proof.
  unfold directory_prefix, last_segment.
  rewrite <- rev_app_distr, takeWhile_dropWhile, rev_involutive.
  reflexivity.
Qed.

Lemma last_segment_no_sep path : no_sep (last_segment path) = true.
Proof.
  unfold no_sep, last_segment. rewrite forallb_rev.
  apply (takeWhile_all not_sep).
Qed.

Lemma directory_prefix_cases path :
  directory_prefix path = [] \/
  exists dir c, directory_prefix path = dir ++ [c] /\ is_sep c = true.
Proof.
  unfold directory_prefix.
  destruct (dropWhile not_sep (rev path)) as [|c r] eqn:E; [left; reflexivity|].
  right. exists (rev r), c. split; [reflexivity|].
  apply dropWhile_head in E. unfold not_sep in E.
  apply negb_false_iff in E. exact E.
Qed.

Lemma replace_extension_spec seg :
  replace_empty re_extension seg = without_extension seg.
Proof.
  unfold without_extension.
  pose proof (takeWhile_dropWhile (chr_not ".") (rev seg)) as Hs.
  pose proof (takeWhile_all (chr_not ".") (rev seg)) as Ht.
  destruct (dropWhile (chr_not ".") (rev seg)) as [|c r] eqn:E.
  - apply replace_extension_none. unfold no_dot.
    rewrite <- forallb_rev. apply dropWhile_nil_iff. exact E.
  - apply dropWhile_head in E. rewrite chr_not_is in E.
    apply negb_false_iff, chr_is_true in E. subst c.
    apply (f_equal (@rev ascii)) in Hs. rewrite rev_involutive in Hs.
    rewrite rev_app_distr in Hs. simpl in Hs. rewrite <- app_assoc in Hs.
    simpl in Hs. rewrite <- Hs. apply replace_extension_dot.
    unfold no_dot. rewrite forallb_rev. exact Ht.
Qed.

(** The title is the last segment of the path without its extension, its
    parenthesized groups and the surrounding white space, as long as no line
    terminator stands before the last separator. *)
Lemma regexExtractTitle_spec path :
  forallb re_dot (directory_prefix path) = true ->
  regexExtractTitle path = title_of path.
Proof.
  intros Hd. unfold regexExtractTitle, title_of.
  rewrite replaceAll_parentheses. do 2 f_equal.
  rewrite <- replace_extension_spec. f_equal.
  pose proof (path_split path) as Hp.
  pose proof (last_segment_no_sep path) as Hn.
  destruct (directory_prefix_cases path) as [E|(dir & c & E & Hc)].
  - rewrite E in Hp. simpl in Hp.
    rewrite replace_directory_none; [exact Hp|]. rewrite Hp. exact Hn.
  - rewrite E in Hd, Hp. rewrite forallb_app in Hd.
    apply andb_true_iff in Hd as [Hd _].
    rewrite <- app_assoc in Hp. simpl in Hp. rewrite Hp at 1.
    apply replace_directory_sep; auto.
Qed.

Lemma trimStart_dropWhile s : trimStart s = dropWhile is_ws s.
Proof. induction s as [|c s IH]; simpl; [|rewrite IH]; reflexivity. Qed.

(** [trim] yields the empty string exactly on strings of white space. *)
Lemma trim_nil_iff s : trim s = [] <-> forallb is_ws s = true.
Proof.
  unfold trim, trimEnd. rewrite !trimStart_dropWhile.
  split.
  - intros H. apply (f_equal (@rev ascii)) in H.
    rewrite rev_involutive in H. simpl in H.
    apply dropWhile_nil_iff in H. rewrite forallb_rev in H.
    destruct (dropWhile is_ws s) as [|c r] eqn:E.
    + apply dropWhile_nil_iff; exact E.
    + apply dropWhile_head in E. simpl in H. rewrite E in H. discriminate.
  - intros H. rewrite (dropWhile_all _ _ H). reflexivity.
Qed.

(** [trim] removes white space at both ends, and only there. *)
Lemma trim_spec s :
  exists l r,
    s = l ++ trim s ++ r /\
    forallb is_ws l = true /\ forallb is_ws r = true /\
    (forall c t, trim s = c :: t -> is_ws c = false) /\
    (forall t c, trim s = t ++ [c] -> is_ws c = false).
Proof.
  unfold trim, trimEnd. rewrite !trimStart_dropWhile.
  set (u := dropWhile is_ws s).
  exists (takeWhile is_ws s), (rev (takeWhile is_ws (rev u))).
  split; [|split; [apply takeWhile_all|split; [|split]]].
  - rewrite <- rev_app_distr, takeWhile_dropWhile, rev_involutive.
    symmetry; apply takeWhile_dropWhile.
  - rewrite forallb_rev. apply takeWhile_all.
  - intros c t H.
    destruct (dropWhile is_ws (rev u)) as [|x r] eqn:E; [discriminate|].
    pose proof (takeWhile_dropWhile is_ws (rev u)) as Hu.
    rewrite E in Hu. apply (f_equal (@rev ascii)) in Hu.
    rewrite rev_involutive, rev_app_distr in Hu. rewrite H in Hu.
    simpl in Hu. destruct u as [|y u'] eqn:Eu; [destruct (rev (takeWhile is_ws [])); discriminate|].
    injection Hu as <- _. subst u. apply dropWhile_head in Eu. exact Eu.
  - intros t c H. apply (f_equal (@rev ascii)) in H.
    rewrite rev_involutive, rev_app_distr in H. simpl in H.
    apply dropWhile_head in H. exact H.
Qed.

(** ** The parser as a whole *)

Lemma new_Date_year d :
  length d = 4 -> forallb is_digit d = true ->
  new_Date (Some d) = start_of_year d.
Proof.
  intros Hl Hd. unfold new_Date, start_of_year.
  rewrite Hl, Hd. reflexivity.
Qed.

Lemma gameToIndex_ok file y :
  regexExtractReleaseYear (name file) = Ok y ->
  gameToIndex file
  = Ok (set_early_access (regexExtractEarlyAccessFlag (name file))
          (set_version (regexExtractVersion (name file))
             (set_release_date (new_Date y)
                (set_size (file_size file)
                   (set_title (regexExtractTitle (name file))
                      (set_file_path (name file) new_Game)))))).
Proof.
  intros H. unfold gameToIndex. cbn [file_path set_file_path set_title
    set_size]. rewrite H. reflexivity.
Qed.

Lemma gameToIndex_err file e :
  regexExtractReleaseYear (name file) = Err e -> gameToIndex file = Err e.
Proof.
  intros H. unfold gameToIndex. cbn [file_path set_file_path set_title
    set_size]. rewrite H. reflexivity.
Qed.

(** The fields of an accepted candidate. *)
Lemma gameToIndex_fields file g :
  gameToIndex file = Ok g ->
  file_path g = name file /\ size g = file_size file /\
  title g = regexExtractTitle (name file) /\
  version g = regexExtractVersion (name file) /\
  early_access g = regexExtractEarlyAccessFlag (name file) /\
  id g = None /\ deleted_at g = None /\
  exists y, regexExtractReleaseYear (name file) = Ok y /\
            release_date g = new_Date y.
Proof.
  destruct (regexExtractReleaseYear (name file)) as [y|e] eqn:E.
  - rewrite (gameToIndex_ok _ E). intros [= <-]. simpl.
    repeat split; eauto.
  - rewrite (gameToIndex_err _ E). discriminate.
Qed.

(** The parser fails exactly on the paths without a group of four digits,
    and then with the [TypeError] of [regexExtractReleaseYear]. *)
Lemma gameToIndex_err_iff file e :
  gameToIndex file = Err e <->
  e = TypeError /\ ~ occurs starts_year_group (name file).
Proof.
  destruct (regexExtractReleaseYear_total (name file)) as [E|(d & E & _)].
  - rewrite (gameToIndex_err _ E). apply regexExtractReleaseYear_err in E.
    split; [intros [= <-]; auto|intros [-> _]; reflexivity].
  - rewrite (gameToIndex_ok _ E). split; [discriminate|].
    intros [_ H]. apply regexExtractReleaseYear_err in H. congruence.
Qed.

Lemma gameToIndex_ok_iff file :
  (exists g, gameToIndex file = Ok g) <->
  occurs starts_year_group (name file).
Proof.
  destruct (regexExtractReleaseYear_total (name file)) as [E|(d & E & _)].
  - rewrite (gameToIndex_err _ E). apply regexExtractReleaseYear_err in E.
    split; [intros (g & H); discriminate|tauto].
  - rewrite (gameToIndex_ok _ E). split; [|eauto].
    intros _. apply regexExtractReleaseYear_ok in E
      as (pre & suf & d' & post & _ & (Hs & Hp & _) & _).
    exists pre, suf; auto.
Qed.

(** The turn of the loop for a file the parser rejects: nothing but a line
    in the error log. *)
Lemma indexFile_parse_error fails file e w :
  gameToIndex file = Err e ->
  indexFile fails file w
  = (Ok tt,
     MkWorld (db w) (events w ++ [Logged (MsgFailedToIndex e (name file))])).
Proof.
  intros H. unfold indexFile, try_catch, tryIndexFile, mbind, lift.
  rewrite H. reflexivity.
Qed.

(** ** Groups found in the directory part of a path *)

Lemma app_eq_shorter {A : Type} (pre1 suf1 pre rest : list A) :
  pre1 ++ suf1 = pre ++ rest -> length pre1 < length pre ->
  exists x mid, pre = pre1 ++ x :: mid /\ suf1 = x :: mid ++ rest.
Proof.
  revert pre; induction pre1 as [|a pre1 IH]; intros pre E L.
  - destruct pre as [|x mid]; [simpl in L; lia|].
    exists x, mid. simpl in E. auto.
  - destruct pre as [|y pre]; [simpl in L; lia|].
    simpl in E. injection E as -> E. simpl in L.
    destruct (IH pre E ltac:(lia)) as (x & mid & -> & ->).
    exists x, mid. auto.
Qed.

Lemma app_prefix_le {A : Type} (g post u e : list A) :
  g ++ post = u ++ e -> length g <= length u ->
  exists z, u = g ++ z /\ post = z ++ e.
Proof.
  revert u; induction g as [|a g IH]; intros u E L.
  - exists u. auto.
  - destruct u as [|y u]; [simpl in L; lia|].
    simpl in E. injection E as -> E. simpl in L.
    destruct (IH u E ltac:(lia)) as (z & -> & ->). exists z. auto.
Qed.

(** A match that starts in a text is not lost when something is appended. *)
Lemma year_group_extends u e :
  starts_year_group u -> starts_year_group (u ++ e).
Proof.
  intros (d & post & -> & Hl & Hd). exists d, (post ++ e).
  split; [|auto]. simpl. rewrite <- app_assoc. reflexivity.
Qed.

Lemma version_group_extends u e :
  starts_version_group u -> starts_version_group (u ++ e).
Proof.
  intros (t & post & -> & Hl & Hd). exists t, (post ++ e).
  split; [|auto]. simpl. rewrite <- app_assoc. reflexivity.
Qed.

(** A match that starts before another one of the text does not reach
    beyond the text. *)
Lemma year_group_local u e :
  6 <= length u -> starts_year_group (u ++ e) -> starts_year_group u.
Proof.
  intros L (d & post & E & Hl & Hd).
  assert (E' : ("("%char :: d ++ [")"%char]) ++ post = u ++ e).
  { simpl. rewrite <- app_assoc. simpl. symmetry; exact E. }
  apply app_prefix_le in E' as (z & -> & ->).
  - exists d, z. split; [|auto]. simpl. rewrite <- app_assoc. reflexivity.
  - simpl. rewrite length_app. simpl. lia.
Qed.

Lemma version_group_local a b r e :
  existsb (chr_is ")") r = true ->
  starts_version_group ((a :: b :: r) ++ e) ->
  starts_version_group (a :: b :: r).
Proof.
  intros Hr (t & post & E & Hne & Ht).
  simpl in E. injection E as -> -> E.
  apply existsb_close_split in Hr as (t' & z & -> & Ht').
  rewrite <- app_assoc in E. simpl in E.
  apply (@run_then_unique (chr_not ")")) in E as (-> & _ & <-); auto.
  exists t, z. split; auto.
Qed.

Lemma year_group_length suf : starts_year_group suf -> 6 <= length suf.
Proof.
  intros (d & post & -> & Hl & _). simpl. rewrite length_app. simpl. lia.
Qed.

Lemma version_group_close suf :
  starts_version_group suf ->
  exists a b r, suf = a :: b :: r /\ existsb (chr_is ")") r = true.
Proof.
  intros (t & post & -> & _). eexists _, _, _. split; [reflexivity|].
  apply existsb_close_app.
Qed.

(** Hence the first match of the directory part stays the first match of
    the whole path. *)
Lemma first_at_extends (P : str -> Prop) dir pre suf e :
  (forall u e', P u -> P (u ++ e')) ->
  (forall x mid u e', P u -> P ((x :: mid ++ u) ++ e') -> P (x :: mid ++ u)) ->
  first_at P dir pre suf -> first_at P (dir ++ e) pre (suf ++ e).
Proof.
  intros Hext Hloc (Hs & Hp & Hl). split; [|split].
  - rewrite Hs, app_assoc. reflexivity.
  - apply Hext; exact Hp.
  - intros pre1 suf1 E L H.
    rewrite Hs, <- app_assoc in E. symmetry in E.
    apply app_eq_shorter in E as (x & mid & Epre & ->); [|exact L].
    apply (Hl pre1 (x :: mid ++ suf)).
    + rewrite Hs, Epre, <- app_assoc. reflexivity.
    + exact L.
    + apply (Hloc x mid suf e Hp). simpl. rewrite <- app_assoc. exact H.
Qed.

Lemma first_year_group_extends dir pre suf e :
  first_at starts_year_group dir pre suf ->
  first_at starts_year_group (dir ++ e) pre (suf ++ e).
Proof.
  apply first_at_extends.
  - intros; apply year_group_extends; assumption.
  - intros x mid u e' Hu H. apply (year_group_local _ e'); [|exact H].
    apply year_group_length in Hu. simpl. rewrite length_app. lia.
Qed.

Lemma first_version_group_extends dir pre suf e :
  first_at starts_version_group dir pre suf ->
  first_at starts_version_group (dir ++ e) pre (suf ++ e).
Proof.
  apply first_at_extends.
  - intros; apply version_group_extends; assumption.
  - intros x mid u e' Hu H.
    apply version_group_close in Hu as (a & b & r & -> & Hr).
    destruct mid as [|y mid].
    + simpl in *. apply (@version_group_local x a (b :: r) e'); [|exact H].
      simpl. rewrite Hr. apply orb_true_r.
    + simpl in *.
      apply (@version_group_local x y (mid ++ a :: b :: r) e'); [|exact H].
      rewrite existsb_app. simpl. rewrite Hr. rewrite !orb_true_r.
      reflexivity.
Qed.

Lemma occurs_first_year dir :
  occurs starts_year_group dir ->
  exists d, regexExtractReleaseYear dir = Ok (Some d) /\
            length d = 4 /\ forallb is_digit d = true.
Proof.
  intros H. destruct (regexExtractReleaseYear_total dir) as [E|E]; [|exact E].
  apply regexExtractReleaseYear_err in E. contradiction.
Qed.

(** A group of four digits in the directory part supplies the year. *)
Lemma regexExtractReleaseYear_directory dir e :
  occurs starts_year_group dir ->
  regexExtractReleaseYear (dir ++ e) = regexExtractReleaseYear dir.
Proof.
  intros H. destruct (occurs_first_year H) as (d & E & _). rewrite E.
  apply regexExtractReleaseYear_ok in E
    as (pre & suf & d' & post & [= <-] & Hf & (Hs & Hl & Hd)).
  apply regexExtractReleaseYear_ok. exists pre, (suf ++ e), d, (post ++ e).
  split; [reflexivity|]. split; [apply first_year_group_extends; exact Hf|].
  split; [|auto]. rewrite Hs. simpl. rewrite <- app_assoc. reflexivity.
Qed.

(** A version group in the directory part supplies the version. *)
Lemma regexExtractVersion_directory dir e :
  occurs starts_version_group dir ->
  regexExtractVersion (dir ++ e) = regexExtractVersion dir.
Proof.
  intros H. destruct (regexExtractVersion dir) as [v|] eqn:E.
  - apply regexExtractVersion_some in E
      as (pre & suf & t & post & -> & Hf & (Hs & Hl & Hd)).
    apply regexExtractVersion_some. exists pre, (suf ++ e), t, (post ++ e).
    split; [reflexivity|].
    split; [apply first_version_group_extends; exact Hf|].
    split; [|auto]. rewrite Hs. simpl. rewrite <- app_assoc. reflexivity.
  - apply regexExtractVersion_none in E. contradiction.
Qed.

(** A group of the directory part supplies the year and the version of the
    whole path, whatever the last segment holds, and the file is accepted;
    the title is the one of the last segment when no line terminator stands
    in the directory part. *)
Lemma directory_groups_supply_year_and_version
    (dir : str) (c : ascii) (seg : str) (sz : N) :
  is_sep c = true -> no_sep seg = true ->
  (occurs starts_year_group dir ->
   exists d g,
     regexExtractReleaseYear dir = Ok (Some d) /\
     gameToIndex (MkFile (dir ++ c :: seg) sz) = Ok g /\
     release_date g = start_of_year d) /\
  (occurs starts_version_group dir ->
   regexExtractVersion (dir ++ c :: seg) = regexExtractVersion dir /\
   regexExtractVersion dir <> None) /\
  (forallb re_dot dir = true ->
   regexExtractTitle (dir ++ c :: seg) = regexExtractTitle seg).
Proof.
  intros Hc Hs. split; [|split].
  - intros H. destruct (occurs_first_year H) as (d & E & Hl & Hd).
    exists d. eexists. split; [exact E|]. split.
    + apply (@gameToIndex_ok (MkFile (dir ++ c :: seg) sz) (Some d)).
      cbn [name]. rewrite regexExtractReleaseYear_directory by exact H.
      exact E.
    + cbn [release_date set_early_access set_version set_release_date].
      apply new_Date_year; assumption.
  - intros H. split; [apply regexExtractVersion_directory; exact H|].
    intros E. apply regexExtractVersion_none in E. contradiction.
  - intros Hd. unfold regexExtractTitle.
    rewrite replace_directory_sep by assumption.
    rewrite replace_directory_none by assumption. reflexivity.
Qed.

(** ** Claims about the parser *)

(** On "Portal.zip" the match of [regexExtractReleaseYear] is [null] and
    reading its index 1 throws a [TypeError]: the extractor is not total. *)
Lemma regexExtractReleaseYear_raises_on_portal :
  regexExtractReleaseYear (js "Portal.zip") = Err TypeError /\
  gameToIndex (MkFile (js "Portal.zip") 1) = Err TypeError /\
  ~ (forall path, exists y, regexExtractReleaseYear path = Ok y).
Proof.
  split; [reflexivity|]. split; [reflexivity|].
  intros H. destruct (H (js "Portal.zip")) as (y & Hy). discriminate.
Qed.

(** C5. The comment of [regexExtractReleaseYear] promises [null] when the
    pattern does not match, and [regexExtractVersion] guards the same read
    with an optional chain; [regexExtractReleaseYear] reads index 1 of the
    match unguarded. On every file whose path has no parenthesized group of
    exactly four digits, "Portal.zip" among them, it therefore throws a
    [TypeError] where [regexExtractVersion] returns [undefined], and the
    parser raises instead of yielding a value. The rest of the claim
    holds: the [catch] of the loop makes a skipped file of it, the turn
    does not throw, it leaves the store as it is and logs the failure with
    the path, and the loop goes on with the remaining files. *)
Theorem C5_parse_error_skips_the_file
    (fails : Call -> bool) (file : IGameVaultFile)
    (rest : list IGameVaultFile) (w : World) :
  ~ occurs starts_year_group (name file) ->
  let w' :=
    MkWorld (db w)
      (events w ++ [Logged (MsgFailedToIndex TypeError (name file))]) in
  regexExtractReleaseYear (name file) = Err TypeError /\
  gameToIndex file = Err TypeError /\
  indexFile fails file w = (Ok tt, w') /\
  forEach (indexFile fails) (file :: rest) w
  = forEach (indexFile fails) rest w'.
Proof.
  intros H w'.
  assert (E : gameToIndex file = Err TypeError).
  { apply gameToIndex_err_iff. auto. }
  assert (E' : indexFile fails file w = (Ok tt, w')).
  { apply indexFile_parse_error. exact E. }
  split; [apply regexExtractReleaseYear_err; exact H|].
  split; [exact E|]. split; [exact E'|].
  cbn [forEach]. unfold mbind at 1. rewrite E'. reflexivity.
Qed.

Lemma C5_witness_portal :
  let file := MkFile (js "Portal.zip") 1 in
  let w := MkWorld (MkStore [] 1) [] in
  regexExtractReleaseYear (js "Portal.zip") = Err TypeError /\
  regexExtractVersion (js "Portal.zip") = None /\
  gameToIndex file = Err TypeError /\
  indexFile never_fails file w
  = (Ok tt,
     MkWorld (MkStore [] 1)
       [Logged (MsgFailedToIndex TypeError (js "Portal.zip"))]).
Proof.
  intros file w.
  assert (H : ~ occurs starts_year_group (name file)).
  { apply regexExtractReleaseYear_err. reflexivity. }
  destruct (C5_parse_error_skips_the_file never_fails file [] w H)
    as (H0 & H1 & H2 & _).
  split; [exact H0|]. split; [reflexivity|].
  split; [exact H1|exact H2].
Defined.

(** C6. The example of the claim holds: the candidate of
    "Grand Theft Auto V (2013) (v1.0.0) (EA).zip" has the title
    "Grand Theft Auto V", the release date 2013-01-01T00:00:00Z (time value
    1356998400000), the version "v1.0.0" and the early access flag. The
    general rule for the title fails on a path whose directory name holds a
    line terminator: the directory is not removed, and the title is not the
    one of the last path segment. *)
Theorem C6_example_and_title_with_line_terminator :
  (forall sz, exists g,
      gameToIndex (MkFile grand_theft_auto sz) = Ok g /\
      title g = js "Grand Theft Auto V" /\
      release_date g = Some 1356998400000%Z /\
      release_date g = start_of_year (js "2013") /\
      version g = Some (js "v1.0.0") /\
      early_access g = true /\
      file_path g = grand_theft_auto /\ size g = sz) /\
  regexExtractTitle path_with_line_terminator
  = js "old" ++ LF :: js "games/Portal" /\
  title_of path_with_line_terminator = js "Portal" /\
  last_segment path_with_line_terminator = js "Portal (2007).zip".
Proof.
  split; [|repeat split; reflexivity].
  intros sz. eexists. split.
  - apply (@gameToIndex_ok (MkFile grand_theft_auto sz) (Some (js "2013"))).
    reflexivity.
  - repeat split; reflexivity.
Qed.

(** C9, as stated, fails: the file "(2013).zip" is accepted with an empty
    title. *)
Lemma C9_counterexample_empty_title :
  exists g, gameToIndex (MkFile (js "(2013).zip") 1) = Ok g /\ title g = [].
Proof. eexists. split; reflexivity. Qed.

(** C9, amended. The parser does not check the title: the title of an
    accepted file is empty exactly when what is left of the path, once the
    directory, the extension and the parenthesized groups are removed, is
    made of white space only. *)
Theorem C9_title_empty_iff (file : IGameVaultFile) (g : Game) :
  gameToIndex file = Ok g ->
  (title g = [] <->
   forallb is_ws
     (strip_groups false
        (without_extension (replace_empty re_directory (name file))))
   = true).
Proof.
  intros H. apply gameToIndex_fields in H as (_ & _ & Ht & _).
  rewrite Ht. unfold regexExtractTitle.
  rewrite replaceAll_parentheses, replace_extension_spec.
  apply trim_nil_iff.
Qed.

Lemma C9_witness_empty_title :
  exists g,
    gameToIndex (MkFile (js "(2013).zip") 1) = Ok g /\
    (title g = [] <->
     forallb is_ws
       (strip_groups false
          (without_extension (replace_empty re_directory (js "(2013).zip"))))
     = true).
Proof.
  eexists. split; [reflexivity|].
  apply (@C9_title_empty_iff (MkFile (js "(2013).zip") 1)). reflexivity.
Defined.

(** C10. The year and the version come from the whole path, as the claim
    says: in "old games (2007)/Portal.zip", with a line terminator in the
    directory name, the group of the directory supplies the year and the
    file is accepted. The title, which the claim derives from the last path
    segment only, is here derived from the whole path, the directory not
    being removed after a line terminator. *)
Theorem C10_year_of_directory_and_title_with_line_terminator :
  (exists g,
      gameToIndex (MkFile path_with_year_in_directory 1) = Ok g /\
      release_date g = start_of_year (js "2007") /\
      title g = js "old" ++ LF :: js "games /Portal") /\
  last_segment path_with_year_in_directory = js "Portal.zip" /\
  regexExtractTitle (js "Portal.zip") = js "Portal" /\
  title_of path_with_year_in_directory = js "Portal".
Proof.
  split; [|repeat split; reflexivity].
  eexists. split; [reflexivity|]. split; reflexivity.
Qed.

(** ** The record store *)

Lemma str_eqb_eq a b : str_eqb a b = true <-> a = b.
Proof.
  unfold str_eqb. destruct (list_eq_dec ascii_dec a b); split;
    congruence.
Qed.

Lemma str_eqb_refl a : str_eqb a a = true.
Proof. apply str_eqb_eq; reflexivity. Qed.

Lemma str_eqb_neq a b : str_eqb a b = false <-> a <> b.
Proof.
  unfold str_eqb. destruct (list_eq_dec ascii_dec a b); split;
    congruence.
Qed.

Lemma has_path_true p r : has_path p r = true <-> file_path r = p.
Proof. apply str_eqb_eq. Qed.

Lemma has_path_false p r : has_path p r = false <-> file_path r <> p.
Proof. apply str_eqb_neq. Qed.

Lemma has_id_true i r : has_id i r = true <-> id r = Some i.
Proof.
  unfold has_id. destruct (id r) as [j|]; [|split; discriminate].
  rewrite N.eqb_eq. split; congruence.
Qed.

Lemma has_id_false i r : has_id i r = false <-> id r <> Some i.
Proof.
  rewrite <- has_id_true. destruct (has_id i r); split; congruence.
Qed.

Lemma findByPath_some p s r :
  findByPath p s = Some r -> In r (rows s) /\ file_path r = p.
Proof.
  unfold findByPath. intros H. apply find_some in H as [H1 H2].
  apply has_path_true in H2. auto.
Qed.

Lemma findByPath_none p s :
  findByPath p s = None <-> ~ In p (map file_path (rows s)).
Proof.
  unfold findByPath. split.
  - intros H Hin. apply in_map_iff in Hin as (r & Hp & Hr).
    apply (find_none _ _ H) in Hr. apply has_path_false in Hr. auto.
  - intros H. destruct (find (has_path p) (rows s)) as [r|] eqn:E; auto.
    apply find_some in E as [E1 E2]. apply has_path_true in E2.
    exfalso. apply H. apply in_map_iff. eauto.
Qed.

(** A row of a well-formed table splits the table in two parts that share
    neither its identifier nor its path. *)
Lemma NoDup_map_split {A B : Type} (f : A -> B) (l : list A) (x : A) :
  NoDup (map f l) -> In x l ->
  exists l1 l2,
    l = l1 ++ x :: l2 /\
    (forall y, In y l1 -> f y <> f x) /\ (forall y, In y l2 -> f y <> f x).
Proof.
  intros Hn Hin. apply in_split in Hin as (l1 & l2 & ->).
  exists l1, l2. split; [reflexivity|].
  rewrite map_app in Hn. simpl in Hn.
  apply NoDup_remove_2 in Hn.
  split; intros y Hy E; apply Hn, in_or_app; [left|right];
    rewrite <- E; apply in_map; exact Hy.
Qed.

Lemma find_split {A : Type} (p : A -> bool) (l1 l2 : list A) (x : A) :
  (forall y, In y l1 -> p y = false) -> p x = true ->
  find p (l1 ++ x :: l2) = Some x.
Proof.
  intros H Hx. induction l1 as [|y l1 IH]; simpl.
  - rewrite Hx; reflexivity.
  - rewrite (H y (or_introl eq_refl)). apply IH.
    intros z Hz. apply H. right; exact Hz.
Qed.

Lemma wf_find_id s r i :
  store_wf s -> In r (rows s) -> id r = Some i ->
  find (has_id i) (rows s) = Some r.
Proof.
  intros (_ & Hn & _) Hin Hi.
  destruct (NoDup_map_split id _ r Hn Hin) as (l1 & l2 & -> & H1 & _).
  apply find_split.
  - intros y Hy. apply has_id_false. rewrite <- Hi. apply H1; exact Hy.
  - apply has_id_true; exact Hi.
Qed.

Lemma wf_findByPath s r :
  store_wf s -> In r (rows s) -> findByPath (file_path r) s = Some r.
Proof.
  intros (Hn & _ & _) Hin. unfold findByPath.
  destruct (NoDup_map_split file_path _ r Hn Hin) as (l1 & l2 & -> & H1 & _).
  apply find_split.
  - intros y Hy. apply has_path_false. apply H1; exact Hy.
  - apply has_path_true; reflexivity.
Qed.

Lemma wf_row_id s r :
  store_wf s -> In r (rows s) -> exists i, id r = Some i /\ (i < next_id s)%N.
Proof.
  intros (_ & _ & Hf) Hin. rewrite Forall_forall in Hf. auto.
Qed.

Lemma map_row_split i f l1 r l2 n :
  (forall y, In y l1 -> id y <> Some i) ->
  (forall y, In y l2 -> id y <> Some i) ->
  id r = Some i ->
  map_row i f (MkStore (l1 ++ r :: l2) n) = MkStore (l1 ++ f r :: l2) n.
Proof.
  intros H1 H2 Hr. unfold map_row. simpl. f_equal.
  rewrite map_app. simpl.
  assert (Hid : forall l, (forall y, In y l -> id y <> Some i) ->
                          map (fun r0 => if has_id i r0 then f r0 else r0) l = l).
  { induction l as [|y l IH]; intros H; simpl; [reflexivity|].
    rewrite (proj2 (has_id_false i y) (H y (or_introl eq_refl))).
    rewrite IH; [reflexivity|]. intros z Hz; apply H; right; exact Hz. }
  rewrite (Hid l1 H1), (Hid l2 H2).
  rewrite (proj2 (has_id_true i r) Hr). reflexivity.
Qed.

(** The shape of a well-formed store around one of its rows. *)
Lemma wf_split s r i :
  store_wf s -> In r (rows s) -> id r = Some i ->
  exists l1 l2,
    rows s = l1 ++ r :: l2 /\
    (forall y, In y (l1 ++ l2) ->
       id y <> Some i /\ file_path y <> file_path r).
Proof.
  intros (Hp & Hn & _) Hin Hi.
  destruct (NoDup_map_split id _ r Hn Hin) as (l1 & l2 & E & H1 & H2).
  exists l1, l2. split; [exact E|].
  intros y Hy. split.
  - rewrite <- Hi. apply in_app_or in Hy as [Hy|Hy]; auto.
  - rewrite E, map_app in Hp. simpl in Hp. apply NoDup_remove_2 in Hp.
    intros Ey. apply Hp. rewrite <- Ey, <- map_app. apply in_map. exact Hy.
Qed.

(** ** The operations of the store, as equations *)

Lemma saveGame_eq fails game w :
  saveGame fails game w =
  if fails (CallSave game) then (Err StoreWriteError, w)
  else if path_taken (file_path game) (id game) (db w)
  then (Err StoreWriteError, w)
  else
    match id game with
    | None =>
        (Ok (created_row game (db w)),
         MkWorld (after_create game (db w))
           (events w ++ [Wrote (Created (created_row game (db w)))]))
    | Some i =>
        if existsb (has_id i) (rows (db w)) then
          (Ok game,
           MkWorld (map_row i (fun _ => game) (db w))
             (events w ++ [Wrote (Updated game)]))
        else (Err StoreWriteError, w)
    end.
Proof.
  unfold saveGame. destruct (fails (CallSave game)); [reflexivity|].
  unfold mbind, get_db.
  destruct (path_taken (file_path game) (id game) (db w)); [reflexivity|].
  destruct (id game) as [i|]; [|reflexivity].
  destruct (existsb (has_id i) (rows (db w))); reflexivity.
Qed.

Lemma restoreGame_eq fails i w :
  restoreGame fails i w =
  if fails (CallRestore i) then (Err StoreWriteError, w)
  else
    match i with
    | None => (Err StoreWriteError, w)
    | Some j =>
        match find (has_id j) (rows (db w)) with
        | None => (Err StoreWriteError, w)
        | Some r =>
            (Ok (set_deleted_at None r),
             MkWorld (map_row j (set_deleted_at None) (db w))
               (events w ++ [Wrote (Restored (set_deleted_at None r))]))
        end
    end.
Proof.
  unfold restoreGame. destruct (fails (CallRestore i)); [reflexivity|].
  unfold mbind, get_db. destruct i as [j|]; [|reflexivity].
  destruct (find (has_id j) (rows (db w))); reflexivity.
Qed.

Lemma deleteGame_eq fails now game w :
  deleteGame fails now game w =
  if fails (CallDelete game) then (Err StoreWriteError, w)
  else
    match id game with
    | None => (Err StoreWriteError, w)
    | Some j =>
        match find (has_id j) (rows (db w)) with
        | None => (Err StoreWriteError, w)
        | Some r =>
            (Ok tt,
             MkWorld (map_row j (set_deleted_at (Some now)) (db w))
               (events w
                ++ [Wrote (SoftDeleted (set_deleted_at (Some now) r))]))
        end
    end.
Proof.
  unfold deleteGame. destruct (fails (CallDelete game)); [reflexivity|].
  unfold mbind, get_db. destruct (id game) as [j|]; [|reflexivity].
  destruct (find (has_id j) (rows (db w))); reflexivity.
Qed.

Lemma checkIfGameExistsInDatabase_eq fails game w :
  checkIfGameExistsInDatabase fails game w =
  if fails (CallCheck game) then (Err StoreReadError, w)
  else (Ok (existence game (db w)), w).
Proof.
  unfold checkIfGameExistsInDatabase.
  destruct (fails (CallCheck game)); reflexivity.
Qed.

Lemma updateGame_eq fails existing cand w :
  updateGame fails existing cand w =
  saveGame fails (updatedGame existing cand)
    (MkWorld (db w)
       (events w ++ [Logged (MsgUpdatedInformation (file_path existing))])).
Proof. reflexivity. Qed.

(** The verdicts of the classifier. *)
Lemma existence_cases game s :
  (existence game s = (DOES_NOT_EXIST, None) /\
   findByPath (file_path game) s = None) \/
  (exists r,
      findByPath (file_path game) s = Some r /\
      ((existence game s = (EXISTS, Some r) /\
        deleted_at r = None /\ size r = size game) \/
       (existence game s = (EXISTS_BUT_ALTERED, Some r) /\
        deleted_at r = None /\ size r <> size game) \/
       (existence game s = (EXISTS_BUT_DELETED, Some r) /\
        deleted_at r <> None))).
Proof.
  unfold existence. destruct (findByPath (file_path game) s) as [r|];
    [right; exists r; split; [reflexivity|]|left; auto].
  unfold is_active. destruct (deleted_at r) as [t|].
  - right; right. split; [reflexivity|discriminate].
  - destruct (N.eqb (size r) (size game)) eqn:E.
    + left. apply N.eqb_eq in E. auto.
    + right; left. apply N.eqb_neq in E. auto.
Qed.

(** The body of the loop for an accepted file, verdict by verdict. *)
Lemma tryIndexFile_eq fails file g w :
  gameToIndex file = Ok g ->
  tryIndexFile fails file w =
  if fails (CallCheck g) then (Err StoreReadError, w)
  else
    match existence g (db w) with
    | (EXISTS, _) =>
        (Ok tt,
         MkWorld (db w)
           (events w ++ [Logged (MsgIdenticalCopy (file_path g))]))
    | (DOES_NOT_EXIST, _) =>
        (saveGame fails g ;;; ret tt)
          (MkWorld (db w)
             (events w ++ [Logged (MsgIndexingNew (file_path g))]))
    | (EXISTS_BUT_DELETED, existing) =>
        (i <~ tuple_id existing ;;
         restoredGame <~ restoreGame fails i ;;
         updateGame fails restoredGame g ;;; ret tt)
          (MkWorld (db w)
             (events w ++ [Logged (MsgRestoring (file_path g))]))
    | (EXISTS_BUT_ALTERED, existing) =>
        (e <~ tuple_game existing ;;
         updateGame fails e g ;;; ret tt)
          (MkWorld (db w)
             (events w ++ [Logged (MsgDetectedChanges (file_path g))]))
    end.
Proof.
  intros H. unfold tryIndexFile, lift. unfold mbind at 1. rewrite H.
  unfold mbind at 1. rewrite checkIfGameExistsInDatabase_eq.
  destruct (fails (CallCheck g)); [reflexivity|].
  destruct (existence g (db w)) as [[] ex]; reflexivity.
Qed.

(** ** A table around one of its rows *)

Lemma find_skip {A : Type} (f : A -> bool) (la lb : list A) (x : A) :
  f x = false -> find f (la ++ x :: lb) = find f (la ++ lb).
Proof.
  intros Hx. induction la as [|y la IH]; simpl.
  - rewrite Hx; reflexivity.
  - destruct (f y); [reflexivity|exact IH].
Qed.

Section AroundARow.

Variables (i : N) (p : str) (l1 l2 : list Game) (n : N).
Hypothesis H1 : others i p l1.
Hypothesis H2 : others i p l2.

Lemma around_find_id r :
  id r = Some i -> find (has_id i) (l1 ++ r :: l2) = Some r.
Proof.
  intros Hr. apply find_split.
  - intros y Hy. apply has_id_false. apply (H1 y Hy).
  - apply has_id_true; exact Hr.
Qed.

Lemma around_findByPath r :
  file_path r = p -> findByPath p (MkStore (l1 ++ r :: l2) n) = Some r.
Proof.
  intros Hr. unfold findByPath. apply find_split.
  - intros y Hy. apply has_path_false. apply (H1 y Hy).
  - apply has_path_true; exact Hr.
Qed.

Lemma around_existsb r :
  id r = Some i -> existsb (has_id i) (l1 ++ r :: l2) = true.
Proof.
  intros Hr. apply existsb_exists. exists r. split.
  - apply in_or_app. right. left. reflexivity.
  - apply has_id_true; exact Hr.
Qed.

Lemma around_path_taken r :
  id r = Some i ->
  path_taken p (Some i) (MkStore (l1 ++ r :: l2) n) = false.
Proof.
  intros Hr. unfold path_taken. apply not_true_is_false. intros H.
  apply existsb_exists in H as (y & Hy & Hb).
  apply andb_true_iff in Hb as [Hp Hi]. apply negb_true_iff in Hi.
  apply has_path_true in Hp. apply has_id_false in Hi.
  cbn [rows] in Hy. apply in_app_or in Hy as [Hy|[Hy|Hy]].
  - apply (H1 y Hy). exact Hp.
  - subst y. contradiction.
  - apply (H2 y Hy). exact Hp.
Qed.

Lemma around_map_row f r :
  id r = Some i ->
  map_row i f (MkStore (l1 ++ r :: l2) n) = MkStore (l1 ++ f r :: l2) n.
Proof.
  intros Hr. apply map_row_split; auto.
  - intros y Hy. apply (H1 y Hy).
  - intros y Hy. apply (H2 y Hy).
Qed.

End AroundARow.

Lemma wf_around s r j :
  store_wf s -> In r (rows s) -> id r = Some j ->
  exists l1 l2,
    s = MkStore (l1 ++ r :: l2) (next_id s) /\
    others j (file_path r) l1 /\ others j (file_path r) l2.
Proof.
  intros Hw Hin Hi. destruct (@wf_split s r j Hw Hin Hi) as (l1 & l2 & E & H).
  exists l1, l2. split; [destruct s; simpl in *; congruence|].
  split; intros y Hy; apply H, in_or_app; auto.
Qed.

(** Replacing a row by one with the same identifier and path keeps the
    table well formed. *)
Lemma wf_replace l1 r r' l2 n :
  store_wf (MkStore (l1 ++ r :: l2) n) ->
  id r' = id r -> file_path r' = file_path r ->
  store_wf (MkStore (l1 ++ r' :: l2) n).
Proof.
  intros (Hp & Hn & Hf) Hi Hpath. unfold store_wf.
  cbn [rows next_id] in *.
  rewrite !map_app in *. cbn [map] in *. rewrite Hi, Hpath.
  split; [exact Hp|]. split; [exact Hn|].
  rewrite Forall_app in *. destruct Hf as [Hf1 Hf2]. split; [exact Hf1|].
  inversion Hf2 as [|? ? Hr Hl2]; subst. constructor; [|exact Hl2].
  rewrite Hi. exact Hr.
Qed.

Lemma NoDup_snoc {A : Type} (l : list A) (x : A) :
  NoDup l -> ~ In x l -> NoDup (l ++ [x]).
Proof.
  induction l as [|y l IH]; intros Hn Hx; simpl.
  - constructor; [intros []|constructor].
  - inversion Hn as [|? ? Hy Hl]; subst. constructor.
    + intros Hin. apply in_app_or in Hin as [Hin|[Hin|[]]]; [auto|].
      subst. apply Hx. left; reflexivity.
    + apply IH; [exact Hl|]. intros Hin. apply Hx. right; exact Hin.
Qed.

Lemma set_id_fields v g :
  id (set_id v g) = v /\ file_path (set_id v g) = file_path g /\
  deleted_at (set_id v g) = deleted_at g /\ size (set_id v g) = size g.
Proof. destruct g; repeat split; reflexivity. Qed.

(** Creating a row for a path the table does not hold keeps it well
    formed. *)
Lemma wf_create s game :
  store_wf s -> findByPath (file_path game) s = None ->
  store_wf (after_create game s).
Proof.
  intros (Hp & Hn & Hf) Hnone. unfold store_wf, after_create, created_row.
  cbn [rows next_id]. rewrite !map_app. cbn [map].
  destruct (set_id_fields (Some (next_id s)) game) as (Ei & Ep & _).
  rewrite Ei, Ep. split; [|split].
  - apply NoDup_snoc; [exact Hp|]. apply findByPath_none. exact Hnone.
  - apply NoDup_snoc; [exact Hn|]. intros Hin. apply in_map_iff in Hin
      as (r & Er & Hr). rewrite Forall_forall in Hf.
    destruct (Hf r Hr) as (k & Ek & Hk). rewrite Ek in Er.
    injection Er as ->. lia.
  - apply Forall_app. split.
    + eapply Forall_impl; [|exact Hf]. intros r (k & Ek & Hk).
      exists k. split; [exact Ek|lia].
    + constructor; [|constructor]. exists (next_id s). split; [exact Ei|lia].
Qed.

Lemma path_taken_new p s :
  findByPath p s = None -> path_taken p None s = false.
Proof.
  intros H. unfold path_taken. apply not_true_is_false. intros E.
  apply existsb_exists in E as (y & Hy & Hb).
  apply andb_true_iff in Hb as [Hp _]. apply has_path_true in Hp.
  apply findByPath_none in H. apply H. apply in_map_iff. eauto.
Qed.

(** ** One turn of the loop of [indexFiles] when no call fails *)

(** [updateGame] takes six fields from the candidate and every other field
    from the existing row. *)
Lemma updatedGame_fields e c :
  let u := updatedGame e c in
  (file_path u = file_path c /\ title u = title c /\
   release_date u = release_date c /\ size u = size c /\
   version u = version c /\ early_access u = early_access c) /\
  (id u = id e /\ deleted_at u = deleted_at e /\ rawg_id u = rawg_id e /\
   rawg_title u = rawg_title e /\
   rawg_release_date u = rawg_release_date e /\
   cache_date u = cache_date e /\ description u = description e /\
   box_image u = box_image e /\ background_image u = background_image e /\
   website_url u = website_url e /\
   metacritic_rating u = metacritic_rating e /\
   average_playtime u = average_playtime e /\
   progresses u = progresses e /\ publishers u = publishers e /\
   developers u = developers e /\ stores u = stores e /\
   tags u = tags e /\ genres u = genres e).
Proof. destruct e, c. repeat split; reflexivity. Qed.

Lemma restored_fields r :
  id (restored r) = id r /\ file_path (restored r) = file_path r /\
  deleted_at (restored r) = None /\ size (restored r) = size r.
Proof. destruct r. repeat split; reflexivity. Qed.

Lemma indexFile_eq fails file w :
  indexFile fails file w =
  match tryIndexFile fails file w with
  | (Ok a, w') => (Ok a, w')
  | (Err e, w') =>
      (Ok tt,
       MkWorld (db w')
         (events w' ++ [Logged (MsgFailedToIndex e (name file))]))
  end.
Proof.
  unfold indexFile, try_catch.
  destruct (tryIndexFile fails file w) as [[a|e] w']; reflexivity.
Qed.

Lemma indexFile_new file g w :
  gameToIndex file = Ok g -> findByPath (file_path g) (db w) = None ->
  indexFile never_fails file w
  = (Ok tt,
     MkWorld (after_create g (db w)) (events w ++ events_new g (db w))).
Proof.
  intros Hg Hn. rewrite indexFile_eq, (@tryIndexFile_eq never_fails file g w Hg).
  cbn [never_fails]. unfold existence. rewrite Hn.
  unfold mbind. rewrite saveGame_eq. cbn [never_fails db events].
  destruct (@gameToIndex_fields file g Hg) as (_ & _ & _ & _ & _ & Hid & _).
  rewrite Hid. rewrite (@path_taken_new _ _ Hn). unfold ret, events_new. rewrite <- app_assoc. reflexivity.
Qed.

Lemma indexFile_exists file g r w :
  gameToIndex file = Ok g -> findByPath (file_path g) (db w) = Some r ->
  deleted_at r = None -> size r = size g ->
  indexFile never_fails file w
  = (Ok tt,
     MkWorld (db w) (events w ++ [Logged (MsgIdenticalCopy (file_path g))])).
Proof.
  intros Hg Hf Hd Hs. rewrite indexFile_eq, (@tryIndexFile_eq never_fails file g w Hg).
  cbn [never_fails]. unfold existence, is_active. rewrite Hf, Hd, Hs.
  rewrite N.eqb_refl. reflexivity.
Qed.

Lemma indexFile_altered file g r i w :
  store_wf (db w) ->
  gameToIndex file = Ok g -> findByPath (file_path g) (db w) = Some r ->
  deleted_at r = None -> size r <> size g -> id r = Some i ->
  indexFile never_fails file w
  = (Ok tt,
     MkWorld (map_row i (fun _ => updatedGame r g) (db w))
       (events w ++ events_alter r g)).
Proof.
  intros Hw Hg Hf Hd Hs Hi.
  rewrite indexFile_eq, (@tryIndexFile_eq never_fails file g w Hg).
  cbn [never_fails]. unfold existence, is_active. rewrite Hf, Hd.
  apply N.eqb_neq in Hs. rewrite Hs.
  apply findByPath_some in Hf as [Hin Hp].
  destruct (@wf_around (db w) r i Hw Hin Hi) as (l1 & l2 & Es & O1 & O2).
  rewrite Hp in O1, O2.
  destruct (updatedGame_fields r g) as ((Up & _) & (Ui & _)).
  rewrite Hi in Ui.
  destruct w as [s ev]. cbn [db events] in *. rewrite Es.
  set (n := next_id s) in *. clearbody n. clear Es Hw Hin.
  unfold mbind, tuple_game, ret. rewrite updateGame_eq, saveGame_eq.
  cbn [never_fails db events]. rewrite Up, Ui.
  rewrite (@around_path_taken i _ l1 l2 n O1 O2 _ Hi).
  cbn [rows]. rewrite (@around_existsb i l1 l2 _ Hi).
  unfold events_alter. rewrite <- !app_assoc. reflexivity.
Qed.

Lemma map_row_twice i f m s :
  (forall r, id (f r) = id r) ->
  map_row i (fun _ => m) (map_row i f s) = map_row i (fun _ => m) s.
Proof.
  intros Hf. unfold map_row. cbn [rows next_id]. f_equal.
  rewrite map_map. apply map_ext. intros r.
  destruct (has_id i r) eqn:E.
  - unfold has_id in *. rewrite Hf, E. reflexivity.
  - rewrite E. reflexivity.
Qed.

Lemma indexFile_deleted file g r i w :
  store_wf (db w) ->
  gameToIndex file = Ok g -> findByPath (file_path g) (db w) = Some r ->
  deleted_at r <> None -> id r = Some i ->
  indexFile never_fails file w
  = (Ok tt,
     MkWorld (map_row i (fun _ => updatedGame (restored r) g) (db w))
       (events w ++ events_restore r g)).
Proof.
  intros Hw Hg Hf Hd Hi.
  rewrite indexFile_eq, (@tryIndexFile_eq never_fails file g w Hg).
  cbn [never_fails]. unfold existence, is_active. rewrite Hf.
  destruct (deleted_at r) as [t|] eqn:Ed; [clear Hd|congruence].
  apply findByPath_some in Hf as [Hin Hp].
  destruct (@wf_around (db w) r i Hw Hin Hi) as (l1 & l2 & Es & O1 & O2).
  rewrite Hp in O1, O2.
  destruct (restored_fields r) as (Ri & Rp & _). rewrite Hi in Ri.
  destruct (updatedGame_fields (restored r) g) as ((Up & _) & (Ui & _)).
  rewrite Ri in Ui.
  destruct w as [s ev]. cbn [db events] in *. rewrite Es.
  set (n := next_id s) in *. clearbody n. clear Es Hw Hin.
  unfold mbind at 1. unfold tuple_id, ret. rewrite Hi.
  unfold mbind at 1. rewrite restoreGame_eq. cbn [never_fails db events rows].
  rewrite (@around_find_id i _ l1 l2 O1 _ Hi).
  fold (restored r). unfold mbind at 1.
  rewrite updateGame_eq, saveGame_eq.
  cbn [never_fails db events]. rewrite Up, Ui.
  rewrite !(@around_map_row i _ l1 l2 n O1 O2 _ _ Hi).
  fold (restored r).
  rewrite (@around_path_taken i _ l1 l2 n O1 O2 _ Ri).
  cbn [rows]. rewrite (@around_existsb i l1 l2 _ Ri).
  rewrite (@around_map_row i _ l1 l2 n O1 O2 _ _ Ri).
  unfold events_restore. rewrite <- !app_assoc. reflexivity.
Qed.

Lemma updatedGame_frame e c :
  takes_candidate_fields (updatedGame e c) c /\
  keeps_other_fields (updatedGame e c) e /\
  deleted_at (updatedGame e c) = deleted_at e.
Proof. destruct e, c. repeat split; reflexivity. Qed.

Lemma restored_frame r :
  keeps_other_fields (restored r) r /\ deleted_at (restored r) = None.
Proof. destruct r. repeat split; reflexivity. Qed.

Lemma keeps_other_fields_trans a b c :
  keeps_other_fields a b -> keeps_other_fields b c -> keeps_other_fields a c.
Proof.
  unfold keeps_other_fields. intros Ha Hb.
  repeat match goal with H : _ /\ _ |- _ => destruct H end.
  repeat split; congruence.
Qed.

Lemma find_snoc {A : Type} (f : A -> bool) (l : list A) (x : A) :
  find f l = None -> f x = true -> find f (l ++ [x]) = Some x.
Proof.
  intros Hl Hx. induction l as [|y l IH]; simpl in *.
  - rewrite Hx; reflexivity.
  - destruct (f y); [discriminate|auto].
Qed.

Lemma findByPath_after_create g s :
  findByPath (file_path g) s = None ->
  findByPath (file_path g) (after_create g s) = Some (created_row g s).
Proof.
  intros H. unfold findByPath, after_create. cbn [rows].
  apply find_snoc; [exact H|].
  apply has_path_true. unfold created_row.
  apply (set_id_fields (Some (next_id s)) g).
Qed.

Lemma find_app_none {A : Type} (f : A -> bool) (l : list A) (x : A) :
  f x = false -> find f (l ++ [x]) = find f l.
Proof.
  intros Hx. induction l as [|y l IH]; simpl.
  - rewrite Hx; reflexivity.
  - destruct (f y); auto.
Qed.

Lemma findByPath_create_other g s q :
  q <> file_path g ->
  findByPath q (after_create g s) = findByPath q s.
Proof.
  intros H. unfold findByPath, after_create. cbn [rows].
  apply find_app_none. apply has_path_false. unfold created_row.
  destruct (set_id_fields (Some (next_id s)) g) as (_ & -> & _). congruence.
Qed.

(** The store after an update of the row of a path. *)
Lemma update_around s r i u :
  store_wf s -> In r (rows s) -> id r = Some i ->
  id u = Some i -> file_path u = file_path r ->
  exists l1 l2,
    rows s = l1 ++ r :: l2 /\
    map_row i (fun _ => u) s = MkStore (l1 ++ u :: l2) (next_id s) /\
    store_wf (map_row i (fun _ => u) s) /\
    findByPath (file_path r) (map_row i (fun _ => u) s) = Some u /\
    (forall q, q <> file_path r ->
       findByPath q (map_row i (fun _ => u) s) = findByPath q s).
Proof.
  intros Hw Hin Hi Hu Hp.
  destruct (@wf_around s r i Hw Hin Hi) as (l1 & l2 & Es & O1 & O2).
  exists l1, l2.
  assert (Em : map_row i (fun _ => u) s = MkStore (l1 ++ u :: l2) (next_id s)).
  { rewrite Es at 1.
    apply (@around_map_row i _ l1 l2 (next_id s) O1 O2 (fun _ => u) r Hi). }
  split; [rewrite Es at 1; reflexivity|]. split; [exact Em|].
  rewrite Em. split; [|split].
  - apply wf_replace with (r := r); [rewrite <- Es; exact Hw| |exact Hp].
    congruence.
  - apply (@around_findByPath i _ l1 l2 (next_id s) O1 u Hp).
  - intros q Hq. rewrite Es at 2. unfold findByPath. cbn [rows].
    rewrite !find_skip; [reflexivity| |]; apply has_path_false; congruence.
Qed.


(** ** Claims about one turn of the loop *)

Lemma sample_world_wf deleted : store_wf (db (sample_world deleted)).
Proof.
  unfold store_wf. simpl. repeat split.
  - constructor; [intros []|constructor].
  - constructor; [intros []|constructor].
  - constructor; [|constructor]. exists 1%N. split; [reflexivity|lia].
Qed.



(** C8. When the verdict is EXISTS_BUT_DELETED or EXISTS_BUT_ALTERED (the
    path has a row that is soft-deleted, or active with another size), the
    turn of the loop replaces that row, at its place in the table, by a row
    that takes [file_path], [title], [release_date], [size], [version] and
    [early_access] from the candidate, has no soft-delete marker, and keeps
    every other field of the existing row, the identifier, the metadata, the
    images and the relations. No row is added or removed and the other rows
    are untouched; on an alteration the number of active rows is
    unchanged. *)
Theorem C8_update_overwrites_six_fields
    (file : IGameVaultFile) (g r : Game) (w : World) :
  store_wf (db w) -> gameToIndex file = Ok g ->
  findByPath (name file) (db w) = Some r ->
  deleted_at r <> None \/ size r <> file_size file ->
  exists w' u l1 l2,
    indexFile never_fails file w = (Ok tt, w') /\
    rows (db w) = l1 ++ r :: l2 /\
    rows (db w') = l1 ++ u :: l2 /\
    takes_candidate_fields u g /\
    keeps_other_fields u r /\
    deleted_at u = None /\
    (deleted_at r = None ->
     length (listActive (db w')) = length (listActive (db w))).
Proof.
  intros Hw Hg Hf Hcase.
  destruct (@gameToIndex_fields file g Hg) as (Hp & Hsz & _).
  rewrite <- Hp in Hf. rewrite <- Hsz in Hcase.
  pose proof Hf as Hf'. apply findByPath_some in Hf' as [Hin Hr].
  destruct (@wf_row_id (db w) r Hw Hin) as (i & Hi & _).
  assert (Hactive : forall u l1 l2 s',
             rows (db w) = l1 ++ r :: l2 -> rows s' = l1 ++ u :: l2 ->
             deleted_at u = None -> deleted_at r = None ->
             length (listActive s') = length (listActive (db w))).
  { intros u l1 l2 s' E E' Hu Hd. unfold listActive. rewrite E, E'.
    assert (Ar : is_active r = true)
      by (unfold is_active; rewrite Hd; reflexivity).
    assert (Au : is_active u = true)
      by (unfold is_active; rewrite Hu; reflexivity).
    rewrite !filter_app. cbn [filter]. rewrite Ar, Au.
    rewrite !length_app. reflexivity. }
  destruct (deleted_at r) as [t|] eqn:Ed.
  - set (u := updatedGame (restored r) g).
    destruct (restored_frame r) as (Rk & Rd).
    destruct (updatedGame_frame (restored r) g) as (Ut & Uk & Ud).
    destruct (restored_fields r) as (Ri & Rp & _).
    assert (Hu : id u = Some i).
    { unfold u. destruct Uk as (-> & _). congruence. }
    assert (Hpu : file_path u = file_path r).
    { unfold u. destruct Ut as (-> & _). congruence. }
    destruct (@update_around (db w) r i u Hw Hin Hi Hu Hpu)
      as (l1 & l2 & E & Em & _).
    exists (MkWorld (map_row i (fun _ => u) (db w))
              (events w ++ events_restore r g)), u, l1, l2.
    split; [apply (@indexFile_deleted file g r i w Hw Hg Hf); congruence|].
    cbn [db]. rewrite Em. cbn [rows].
    split; [exact E|]. split; [reflexivity|]. split; [exact Ut|].
    split; [exact (keeps_other_fields_trans Uk Rk)|].
    split; [unfold u; congruence|]. discriminate.
  - destruct Hcase as [Hc|Hc]; [congruence|].
    set (u := updatedGame r g).
    destruct (updatedGame_frame r g) as (Ut & Uk & Ud).
    assert (Hu : id u = Some i).
    { unfold u. destruct Uk as (-> & _). congruence. }
    assert (Hpu : file_path u = file_path r).
    { unfold u. destruct Ut as (-> & _). congruence. }
    destruct (@update_around (db w) r i u Hw Hin Hi Hu Hpu)
      as (l1 & l2 & E & Em & _).
    exists (MkWorld (map_row i (fun _ => u) (db w))
              (events w ++ events_alter r g)), u, l1, l2.
    split; [apply (@indexFile_altered file g r i w Hw Hg Hf Ed Hc Hi)|].
    cbn [db]. rewrite Em. cbn [rows].
    split; [exact E|]. split; [reflexivity|]. split; [exact Ut|].
    split; [exact Uk|]. split; [unfold u; congruence|].
    intros _. apply (Hactive u l1 l2); auto; unfold u; congruence.
Qed.

Lemma C8_witness_alteration :
  exists w' u,
    indexFile never_fails sample_candidate (sample_world None) = (Ok tt, w') /\
    rows (db w') = [u] /\
    size u = 10%N /\ id u = Some 1%N /\ rawg_id u = Some 4200%Z /\
    tags u = [8%N; 9%N] /\
    length (listActive (db w')) = 1.
Proof.
  assert (Hf : findByPath (name sample_candidate) (db (sample_world None))
               = Some (sample_row None)) by reflexivity.
  assert (Hc : deleted_at (sample_row None) <> None \/
               size (sample_row None) <> file_size sample_candidate).
  { right. discriminate. }
  destruct (@C8_update_overwrites_six_fields sample_candidate _
              (sample_row None) (sample_world None)
              (sample_world_wf None) eq_refl Hf Hc)
    as (w' & u & l1 & l2 & Hrun & E & E' & Ht & Hk & Hd & Hn).
  destruct l1 as [|x l1]; [|destruct l1; discriminate].
  cbn in E. injection E as <-.
  exists w', u. split; [exact Hrun|]. split; [exact E'|].
  destruct Ht as (_ & _ & _ & Hs & _).
  destruct Hk as (Hi & Hr & _ & _ & _ & _ & _ & _ & _ & _ & _ & _ & _ & _
                  & _ & Htags & _).
  split; [rewrite Hs; reflexivity|]. split; [rewrite Hi; reflexivity|].
  split; [rewrite Hr; reflexivity|]. split; [rewrite Htags; reflexivity|].
  rewrite (Hn eq_refl). reflexivity.
Defined.

(** ** The integrity check *)

Lemma listed_iff files r :
  listed files r = true <-> exists f, In f files /\ name f = file_path r.
Proof.
  unfold listed, find_in_listing. split.
  - destruct (find _ files) as [f|] eqn:E; [|discriminate]. intros _.
    apply find_some in E as [E1 E2]. apply str_eqb_eq in E2. eauto.
  - intros (f & Hin & Hn).
    destruct (find (fun g => str_eqb (name g) (file_path r)) files) eqn:E;
      [reflexivity|].
    apply (find_none _ _ E) in Hin. apply str_eqb_neq in Hin. contradiction.
Qed.

Lemma soft_deleted_fields now r :
  id (soft_deleted now r) = id r /\
  file_path (soft_deleted now r) = file_path r /\
  deleted_at (soft_deleted now r) = Some now /\
  keeps_other_fields (soft_deleted now r) r /\
  takes_candidate_fields (soft_deleted now r) r.
Proof. destruct r. repeat split; reflexivity. Qed.

Lemma soft_deleted_twice now r :
  soft_deleted now (soft_deleted now r) = soft_deleted now r.
Proof. destruct r; reflexivity. Qed.

Lemma same_id_soft_deleted now g r :
  same_id g (soft_deleted now r) = same_id g r.
Proof.
  unfold same_id, has_id.
  destruct (soft_deleted_fields now r) as (-> & _). reflexivity.
Qed.

Lemma existsb_eq {A : Type} (f g : A -> bool) (l : list A) :
  (forall x, f x = g x) -> existsb f l = existsb g l.
Proof.
  intros H. induction l as [|x l IH]; simpl; [reflexivity|].
  rewrite H, IH. reflexivity.
Qed.

Lemma marked_soft_deleted now files games r :
  marked files games (soft_deleted now r) = marked files games r.
Proof.
  unfold marked. apply existsb_eq. intros g.
  rewrite same_id_soft_deleted. reflexivity.
Qed.

Lemma checkGame_eq fails now files g w :
  checkGame fails now files g w =
  if listed files g then (Ok tt, w)
  else
    match deleteGame fails now g w with
    | (Ok _, w') =>
        (Ok tt,
         MkWorld (db w')
           (events w' ++ [Logged (MsgMarkedAsDeleted (file_path g))]))
    | (Err e, w') => (Err e, w')
    end.
Proof.
  unfold checkGame, listed. destruct (find_in_listing files g);
    [reflexivity|].
  unfold mbind. destruct (deleteGame fails now g w) as [[[]|e] w'];
    reflexivity.
Qed.

Lemma forEach_cons {A : Type} (body : A -> M unit) x l w :
  forEach body (x :: l) w =
  match body x w with
  | (Ok _, w') => forEach body l w'
  | (Err e, w') => (Err e, w')
  end.
Proof. reflexivity. Qed.

(** The loop of the integrity check over records that are in the store. *)
Lemma forEach_checkGame now files games :
  forall w,
    (forall g, In g games ->
       exists j, id g = Some j /\ existsb (has_id j) (rows (db w)) = true) ->
    exists evs,
      forEach (checkGame never_fails now files) games w
      = (Ok tt,
         MkWorld (MkStore (map (mark now files games) (rows (db w)))
                    (next_id (db w)))
           (events w ++ evs)).
Proof.
  induction games as [|g games IH]; intros w Hids.
  - exists []. cbn [forEach]. unfold ret. rewrite app_nil_r.
    unfold mark, marked. cbn [existsb]. rewrite map_id.
    destruct w as [[rws n] ev]; reflexivity.
  - rewrite forEach_cons, checkGame_eq.
    destruct (listed files g) eqn:El.
    + destruct (IH w) as (evs & E).
      { intros g' Hg'. apply Hids. right; exact Hg'. }
      exists evs. rewrite E. do 3 f_equal. apply map_ext. intros r.
      unfold mark, marked. cbn [existsb]. rewrite El, andb_false_r.
      reflexivity.
    + destruct (Hids g (or_introl eq_refl)) as (j & Hj & Hex).
      rewrite deleteGame_eq. cbn [never_fails]. rewrite Hj.
      destruct (find (has_id j) (rows (db w))) as [r0|] eqn:Ef.
      2:{ apply existsb_exists in Hex as (y & Hy & Hb).
          apply (find_none _ _ Ef) in Hy. congruence. }
      match goal with
      | |- context [forEach _ _ ?w1] => destruct (IH w1) as (evs & E)
      end.
      { intros g' Hg'. destruct (Hids g' (or_intror Hg')) as (k & Hk & Hke).
        exists k. split; [exact Hk|]. cbn [db rows map_row].
        apply existsb_exists in Hke as (y & Hy & Hb).
        apply existsb_exists.
        exists (if has_id j y then set_deleted_at (Some now) y else y).
        split; [apply (in_map (fun r => if has_id j r
                                        then set_deleted_at (Some now) r
                                        else r)); exact Hy|].
        destruct (has_id j y); [|exact Hb].
        unfold has_id in *.
        destruct (soft_deleted_fields now y) as (Hi & _).
        unfold soft_deleted in Hi. rewrite Hi. exact Hb. }
      eexists. rewrite E. cbn [db events rows next_id map_row].
      rewrite <- !app_assoc. do 2 f_equal. f_equal.
      rewrite map_map. apply map_ext. intros r.
      unfold mark, marked. cbn [existsb]. rewrite El. cbn [negb].
      rewrite andb_true_r. unfold same_id at 2. rewrite Hj.
      fold (soft_deleted now r).
      destruct (has_id j r) eqn:Er; cbn [orb].
      * fold (marked files games (soft_deleted now r)).
        rewrite marked_soft_deleted.
        destruct (marked files games r);
          [apply soft_deleted_twice|reflexivity].
      * fold (marked files games r). reflexivity.
Qed.

Lemma NoDup_map_inj {A B : Type} (f : A -> B) (l : list A) (x y : A) :
  NoDup (map f l) -> In x l -> In y l -> f x = f y -> x = y.
Proof.
  induction l as [|a l IH]; intros Hn Hx Hy E; [destruct Hx|].
  simpl in Hn. inversion Hn as [|? ? Ha Hl]; subst.
  destruct Hx as [->|Hx], Hy as [->|Hy]; auto.
  - exfalso. apply Ha. rewrite E. apply in_map; exact Hy.
  - exfalso. apply Ha. rewrite <- E. apply in_map; exact Hx.
Qed.

(** Over the active records of a well-formed store, the loop soft-deletes
    a row exactly when it is active and not listed. *)
Lemma mark_listActive now files s r :
  store_wf s -> In r (rows s) ->
  mark now files (listActive s) r = swept now files r.
Proof.
  intros Hw Hin. unfold mark, swept.
  enough (marked files (listActive s) r
          = is_active r && negb (listed files r)) as -> by reflexivity.
  destruct (@wf_row_id s r Hw Hin) as (i & Hi & _).
  destruct (is_active r && negb (listed files r)) eqn:E.
  - apply andb_true_iff in E as [Ea El].
    unfold marked. apply existsb_exists. exists r. split.
    + apply filter_In. auto.
    + unfold same_id. rewrite Hi, El, (proj2 (has_id_true i r) Hi).
      reflexivity.
  - apply not_true_is_false. intros Hm. unfold marked in Hm.
    apply existsb_exists in Hm as (g & Hg & Hb).
    apply filter_In in Hg as [Hg Ha].
    apply andb_true_iff in Hb as [Hs Hl].
    assert (g = r) as ->.
    { destruct Hw as (_ & Hn & _).
      apply (NoDup_map_inj id _ _ _ Hn Hg Hin).
      unfold same_id in Hs. destruct (id g) as [j|]; [|discriminate].
      apply has_id_true in Hs. congruence. }
    rewrite Ha, Hl in E. discriminate.
Qed.

(** ** The number of rows never decreases *)

Lemma grows_bind {A B : Type} (m : M A) (f : A -> M B) :
  grows m -> (forall a, grows (f a)) -> grows (mbind m f).
Proof.
  intros Hm Hf w. unfold mbind. specialize (Hm w).
  destruct (m w) as [[a|e] w']; cbn [snd] in *; [|exact Hm].
  specialize (Hf a w'). lia.
Qed.

Lemma grows_try_catch {A : Type} (m : M A) (h : exn -> M A) :
  grows m -> (forall e, grows (h e)) -> grows (try_catch m h).
Proof.
  intros Hm Hh w. unfold try_catch. specialize (Hm w).
  destruct (m w) as [[a|e] w']; cbn [snd] in *; [exact Hm|].
  specialize (Hh e w'). lia.
Qed.

Lemma grows_ret {A : Type} (a : A) : grows (ret a).
Proof. intros w. apply Nat.le_refl. Qed.

Lemma grows_throw {A : Type} (e : exn) : grows (@throw A e).
Proof. intros w. apply Nat.le_refl. Qed.

Lemma grows_lift {A : Type} (r : result A) : grows (lift r).
Proof. intros w. apply Nat.le_refl. Qed.

Lemma grows_emit (e : Event) : grows (emit e).
Proof. intros w. apply Nat.le_refl. Qed.

Lemma row_count_map_row i f w ev :
  row_count (MkWorld (map_row i f (db w)) ev) = row_count w.
Proof. unfold row_count, map_row. cbn [db rows]. apply length_map. Qed.

Lemma grows_saveGame fails g : grows (saveGame fails g).
Proof.
  intros w. rewrite saveGame_eq.
  destruct (fails (CallSave g)); [apply Nat.le_refl|].
  destruct (path_taken _ _ _); [apply Nat.le_refl|].
  destruct (id g) as [i|].
  - destruct (existsb _ _); [|apply Nat.le_refl].
    cbn [snd]. rewrite row_count_map_row. apply Nat.le_refl.
  - cbn [snd]. unfold row_count, after_create. cbn [db rows].
    rewrite length_app. lia.
Qed.

Lemma grows_restoreGame fails i : grows (restoreGame fails i).
Proof.
  intros w. rewrite restoreGame_eq.
  destruct (fails (CallRestore i)); [apply Nat.le_refl|].
  destruct i as [j|]; [|apply Nat.le_refl].
  destruct (find _ _); [|apply Nat.le_refl].
  cbn [snd]. rewrite row_count_map_row. apply Nat.le_refl.
Qed.

Lemma grows_indexFile fails file : grows (indexFile fails file).
Proof.
  unfold indexFile. apply grows_try_catch; [|intros; apply grows_emit].
  unfold tryIndexFile. apply grows_bind; [apply grows_lift|]. intros g.
  apply grows_bind.
  { unfold checkIfGameExistsInDatabase.
    destruct (fails (CallCheck g)); [apply grows_throw|].
    apply grows_bind; [intros w; apply Nat.le_refl|].
    intros; apply grows_ret. }
  intros [[] ex]; cbn [fst snd].
  - apply grows_emit.
  - apply grows_bind; [apply grows_emit|]. intros _.
    apply grows_bind; [apply grows_saveGame|]. intros; apply grows_ret.
  - apply grows_bind; [apply grows_emit|]. intros _.
    apply grows_bind.
    { unfold tuple_id. destruct ex; [apply grows_ret|apply grows_throw]. }
    intros i. apply grows_bind; [apply grows_restoreGame|]. intros r.
    apply grows_bind; [|intros; apply grows_ret].
    unfold updateGame. apply grows_bind; [apply grows_emit|].
    intros _. apply grows_saveGame.
  - apply grows_bind; [apply grows_emit|]. intros _.
    apply grows_bind.
    { unfold tuple_game. destruct ex; [apply grows_ret|apply grows_throw]. }
    intros r. apply grows_bind; [|intros; apply grows_ret].
    unfold updateGame. apply grows_bind; [apply grows_emit|].
    intros _. apply grows_saveGame.
Qed.

Lemma grows_forEach {A : Type} (body : A -> M unit) (l : list A) :
  (forall x, grows (body x)) -> grows (forEach body l).
Proof.
  intros H. induction l as [|x l IH]; cbn [forEach].
  - apply grows_ret.
  - apply grows_bind; [apply H|]. intros _. exact IH.
Qed.

Lemma grows_indexFiles fails files : grows (indexFiles fails files).
Proof.
  unfold indexFiles. apply grows_bind; [apply grows_emit|]. intros _.
  apply grows_bind; [|intros; apply grows_emit].
  apply grows_forEach. intros; apply grows_indexFile.
Qed.

Lemma keeps_bind {A B : Type} (m : M A) (f : A -> M B) :
  keeps_rows m -> (forall a, keeps_rows (f a)) -> keeps_rows (mbind m f).
Proof.
  intros Hm Hf w. unfold mbind. specialize (Hm w).
  destruct (m w) as [[a|e] w']; cbn [snd] in *; [|exact Hm].
  specialize (Hf a w'). lia.
Qed.

Lemma keeps_emit (e : Event) : keeps_rows (emit e).
Proof. intros w. reflexivity. Qed.

Lemma keeps_ret {A : Type} (a : A) : keeps_rows (ret a).
Proof. intros w. reflexivity. Qed.

(** The integrity check keeps the number of rows, whatever fails. *)
Lemma keeps_deleteGame fails now g : keeps_rows (deleteGame fails now g).
Proof.
  intros w. rewrite deleteGame_eq.
  destruct (fails (CallDelete g)); [reflexivity|].
  destruct (id g) as [j|]; [|reflexivity].
  destruct (find _ _); [|reflexivity].
  cbn [snd]. apply row_count_map_row.
Qed.

Lemma keeps_integrityCheck fails now files games :
  keeps_rows (integrityCheck fails now files games).
Proof.
  unfold integrityCheck. apply keeps_bind; [apply keeps_emit|]. intros _.
  apply keeps_bind; [|intros; apply keeps_emit].
  induction games as [|g games IH]; cbn [forEach]; [apply keeps_ret|].
  apply keeps_bind; [|intros _; exact IH].
  unfold checkGame. destruct (find_in_listing files g); [apply keeps_ret|].
  apply keeps_bind; [apply keeps_deleteGame|]. intros; apply keeps_emit.
Qed.

Lemma swept_spec now files r :
  (deleted_at r = None ->
   (forall f, In f files -> name f <> file_path r) ->
   swept now files r = soft_deleted now r) /\
  (deleted_at r <> None \/ (exists f, In f files /\ name f = file_path r) ->
   swept now files r = r).
Proof.
  unfold swept, is_active. split.
  - intros Hd Hn. rewrite Hd.
    destruct (listed files r) eqn:El; [|reflexivity].
    apply listed_iff in El as (f & Hf & E). destruct (Hn f Hf E).
  - intros [Hd|Hl].
    + destruct (deleted_at r); [reflexivity|congruence].
    + apply listed_iff in Hl. rewrite Hl, andb_false_r. reflexivity.
Qed.

(** ** Claims about the integrity check *)

Lemma two_rows_wf : store_wf (db two_rows).
Proof.
  unfold store_wf. simpl. repeat split.
  - constructor; [intros [H|[]]; discriminate|].
    constructor; [intros []|constructor].
  - constructor; [intros [H|[]]; discriminate|].
    constructor; [intros []|constructor].
  - constructor; [exists 1%N; split; [reflexivity|lia]|].
    constructor; [|constructor]. exists 2%N. split; [reflexivity|lia].
Qed.

(** C2. Run over the active records of a well-formed store, with no failing
    call, the integrity check ends normally and leaves the table row for
    row as it was, except that every active row whose path is the name of
    no descriptor of the listing has its soft-delete marker set; an active
    row with a descriptor, and a row already soft-deleted, are not
    modified. Whatever the records it is given and whatever call fails, it
    keeps the number of rows; and [indexFiles] never lowers it: across a
    scan the number of rows, active or soft-deleted, never decreases. *)
Theorem C2_integrity_check_soft_deletes_the_unlisted
    (fails : Call -> bool) (now : Z) (files : list IGameVaultFile)
    (w : World) :
  store_wf (db w) ->
  (exists w',
      integrityCheck never_fails now files (listActive (db w)) w
      = (Ok tt, w') /\
      rows (db w') = map (swept now files) (rows (db w)) /\
      next_id (db w') = next_id (db w)) /\
  (forall r,
      (deleted_at r = None ->
       (forall f, In f files -> name f <> file_path r) ->
       swept now files r = soft_deleted now r /\
       deleted_at (soft_deleted now r) = Some now /\
       keeps_other_fields (soft_deleted now r) r /\
       takes_candidate_fields (soft_deleted now r) r) /\
      (deleted_at r <> None \/
       (exists f, In f files /\ name f = file_path r) ->
       swept now files r = r)) /\
  (forall games,
      row_count (snd (integrityCheck fails now files games w))
      = row_count w) /\
  row_count w <= row_count (snd (indexFiles fails files w)).
Proof.
  intros Hw. split; [|split; [|split]].
  - unfold integrityCheck. unfold mbind at 1. unfold logger at 1, emit.
    unfold mbind at 1.
    destruct (@forEach_checkGame now files (listActive (db w))
                (MkWorld (db w) (events w ++ [Logged MsgStartedIntegrityCheck])))
      as (evs & E).
    { intros g Hg. apply filter_In in Hg as [Hg _].
      destruct (@wf_row_id (db w) g Hw Hg) as (j & Hj & _).
      exists j. split; [exact Hj|]. cbn [db]. apply existsb_exists.
      exists g. split; [exact Hg|]. apply has_id_true; exact Hj. }
    rewrite E. eexists. split; [reflexivity|]. cbn [db rows next_id].
    split; [|reflexivity]. apply map_ext_in. intros r Hr.
    apply mark_listActive; assumption.
  - intros r. destruct (swept_spec now files r) as [H1 H2].
    split; [|exact H2]. intros Hd Hn. split; [auto|].
    destruct (soft_deleted_fields now r) as (_ & _ & Hdel & Hk & Ht). auto.
  - intros games. apply keeps_integrityCheck.
  - apply grows_indexFiles.
Qed.

Lemma C2_witness_two_rows :
  exists w',
    integrityCheck never_fails 99 [sample_candidate]
      (listActive (db two_rows)) two_rows = (Ok tt, w') /\
    rows (db w') = [sample_row None; soft_deleted 99 second_row].
Proof.
  destruct (@C2_integrity_check_soft_deletes_the_unlisted never_fails 99
              [sample_candidate] two_rows two_rows_wf)
    as ((w' & Hrun & Hrows & _) & _).
  exists w'. split; [exact Hrun|]. rewrite Hrows. reflexivity.
Defined.

(** ** Runs of [indexFiles] when no call fails *)

Lemma writes_of_app l l' : writes_of (l ++ l') = writes_of l ++ writes_of l'.
Proof. apply flat_map_app. Qed.

(** What one turn does, seen from the paths of the store. *)
Lemma indexFile_step file w :
  store_wf (db w) ->
  exists w',
    indexFile never_fails file w = (Ok tt, w') /\
    store_wf (db w') /\
    (forall q, q <> name file ->
       findByPath q (db w') = findByPath q (db w)) /\
    (forall g, gameToIndex file = Ok g -> settled file (db w')) /\
    (forall e, gameToIndex file = Err e -> db w' = db w).
Proof.
  intros Hw. destruct (gameToIndex file) as [g|e] eqn:Hg.
  2:{ eexists. split; [apply (@indexFile_parse_error never_fails file e w Hg)|].
      cbn [db]. split; [exact Hw|]. split; [reflexivity|].
      split; [intros g' H; discriminate|reflexivity]. }
  destruct (@gameToIndex_fields file g Hg) as (Hp & Hsz & _ & _ & _ & Hid & Hdel & _).
  destruct (existence_cases g (db w))
    as [[E Hf]|(r & Hf & [(E & Hd & Hs)|[(E & Hd & Hs)|(E & Hd)]])].
  - eexists. split; [apply (@indexFile_new file g w Hg Hf)|]. cbn [db].
    split; [apply wf_create; assumption|].
    split; [intros q Hq; apply findByPath_create_other; congruence|].
    split; [|discriminate]. intros _ _.
    exists (created_row g (db w)). rewrite <- Hp.
    split; [apply findByPath_after_create; exact Hf|].
    unfold created_row.
    destruct (set_id_fields (Some (next_id (db w))) g) as (_ & _ & -> & ->).
    split; congruence.
  - eexists. split; [apply (@indexFile_exists file g r w Hg Hf Hd Hs)|].
    cbn [db]. split; [exact Hw|]. split; [reflexivity|].
    split; [|discriminate]. intros _ _. exists r. rewrite <- Hp.
    repeat split; auto. congruence.
  - pose proof Hf as Hf'. apply findByPath_some in Hf' as [Hin Hr].
    destruct (@wf_row_id (db w) r Hw Hin) as (i & Hi & _).
    destruct (updatedGame_fields r g)
      as ((Up & _ & _ & Us & _) & (Ui & Ud & _)).
    destruct (@update_around (db w) r i (updatedGame r g) Hw Hin Hi)
      as (l1 & l2 & _ & _ & Hw' & Hfind & Hother); try congruence.
    eexists.
    split; [apply (@indexFile_altered file g r i w Hw Hg Hf Hd Hs Hi)|].
    cbn [db]. split; [exact Hw'|].
    split; [intros q Hq; apply Hother; congruence|].
    split; [|discriminate]. intros _ _. exists (updatedGame r g).
    rewrite <- Hp, <- Hr. split; [exact Hfind|]. split; congruence.
  - pose proof Hf as Hf'. apply findByPath_some in Hf' as [Hin Hr].
    destruct (@wf_row_id (db w) r Hw Hin) as (i & Hi & _).
    destruct (restored_fields r) as (Ri & Rp & Rd & _).
    destruct (updatedGame_fields (restored r) g)
      as ((Up & _ & _ & Us & _) & (Ui & Ud & _)).
    destruct (@update_around (db w) r i (updatedGame (restored r) g)
                Hw Hin Hi)
      as (l1 & l2 & _ & _ & Hw' & Hfind & Hother); try congruence.
    eexists.
    split; [apply (@indexFile_deleted file g r i w Hw Hg Hf Hd Hi)|].
    cbn [db]. split; [exact Hw'|].
    split; [intros q Hq; apply Hother; congruence|].
    split; [|discriminate]. intros _ _.
    exists (updatedGame (restored r) g).
    rewrite <- Hp, <- Hr. split; [exact Hfind|]. split; congruence.
Qed.

(** A settled file is an identical copy: nothing is written. *)
Lemma indexFile_settled file g w :
  gameToIndex file = Ok g -> settled file (db w) ->
  indexFile never_fails file w
  = (Ok tt,
     MkWorld (db w) (events w ++ [Logged (MsgIdenticalCopy (name file))])).
Proof.
  intros Hg (r & Hf & Hd & Hs).
  destruct (@gameToIndex_fields file g Hg) as (Hp & Hsz & _).
  rewrite <- Hp in *.
  apply (@indexFile_exists file g r w Hg Hf Hd). congruence.
Qed.

(** The first run settles every accepted file of a listing without
    repeated names. *)
Lemma forEach_settles files :
  NoDup (map name files) ->
  forall w,
    store_wf (db w) ->
    exists w',
      forEach (indexFile never_fails) files w = (Ok tt, w') /\
      store_wf (db w') /\
      (forall q, ~ In q (map name files) ->
         findByPath q (db w') = findByPath q (db w)) /\
      (forall f g, In f files -> gameToIndex f = Ok g -> settled f (db w')).
Proof.
  induction files as [|f files IH]; intros Hn w Hw.
  - exists w. split; [reflexivity|]. split; [exact Hw|].
    split; [reflexivity|]. intros f g [].
  - cbn [map] in Hn. inversion Hn as [|? ? Hf Hn']; subst.
    destruct (@indexFile_step f w Hw) as (w1 & E1 & Hw1 & Ho1 & Hs1 & _).
    destruct (IH Hn' w1 Hw1) as (w' & E & Hw' & Ho & Hs).
    exists w'. rewrite forEach_cons, E1. split; [exact E|].
    split; [exact Hw'|]. split.
    + intros q Hq. cbn [map] in Hq.
      rewrite Ho by (intros H; apply Hq; right; exact H).
      apply Ho1. intros ->. apply Hq. left; reflexivity.
    + intros f' g [<-|Hin] Hg.
      * destruct (Hs1 g Hg) as (r & Hr & Hd & Hsz).
        exists r. rewrite (Ho (name f) Hf). auto.
      * apply (Hs f' g Hin Hg).
Qed.

(** A run over settled files writes nothing. *)
Lemma forEach_settled files :
  forall w,
    (forall f g, In f files -> gameToIndex f = Ok g -> settled f (db w)) ->
    exists evs,
      forEach (indexFile never_fails) files w
      = (Ok tt, MkWorld (db w) (events w ++ evs)) /\
      writes_of evs = [].
Proof.
  induction files as [|f files IH]; intros w Hs.
  - exists []. cbn [forEach]. unfold ret. rewrite app_nil_r.
    destruct w; auto.
  - rewrite forEach_cons.
    assert (exists ev1,
               indexFile never_fails f w
               = (Ok tt, MkWorld (db w) (events w ++ [Logged ev1])))
      as (ev1 & E1).
    { destruct (gameToIndex f) as [g|e] eqn:Hg.
      - eexists. apply (@indexFile_settled f g w Hg).
        apply (Hs f g (or_introl eq_refl) Hg).
      - eexists. apply (@indexFile_parse_error never_fails f e w Hg). }
    rewrite E1.
    destruct (IH (MkWorld (db w) (events w ++ [Logged ev1]))) as (evs & E & Hev).
    { intros f' g Hin Hg. cbn [db]. apply (Hs f' g (or_intror Hin) Hg). }
    exists (Logged ev1 :: evs). rewrite E. cbn [db events].
    rewrite <- app_assoc. auto.
Qed.

(** A turn for a descriptor that agrees with a settled file on the size of
    a common path leaves the file settled. *)
Lemma indexFile_keeps_settled f f' w :
  store_wf (db w) ->
  (name f' = name f -> file_size f' = file_size f) ->
  settled f (db w) ->
  exists w',
    indexFile never_fails f' w = (Ok tt, w') /\
    store_wf (db w') /\ settled f (db w') /\
    (forall g, gameToIndex f' = Ok g -> settled f' (db w')).
Proof.
  intros Hw Hsz Hs.
  destruct (@indexFile_step f' w Hw) as (w' & E & Hw' & Ho & Hs' & He).
  exists w'. split; [exact E|]. split; [exact Hw'|]. split; [|exact Hs'].
  destruct (list_eq_dec ascii_dec (name f') (name f)) as [Hn|Hn].
  - assert (f' = f) as ->.
    { specialize (Hsz Hn). destruct f, f'. cbn in *. subst. reflexivity. }
    destruct (gameToIndex f) as [g|e] eqn:Hg.
    + apply (Hs' g eq_refl).
    + rewrite (He e eq_refl). exact Hs.
  - destruct Hs as (r & Hf & Hd & Hz). exists r.
    rewrite (Ho (name f)) by (intros H; apply Hn; symmetry; exact H). auto.
Qed.

(** The first run settles every accepted file of a listing in which a path
    has one size: [pre] holds the descriptors already gone through. *)
Lemma forEach_settles_after (files : list IGameVaultFile) :
  forall pre w,
    store_wf (db w) -> one_size_per_name (pre ++ files) ->
    (forall f g, In f pre -> gameToIndex f = Ok g -> settled f (db w)) ->
    exists w',
      forEach (indexFile never_fails) files w = (Ok tt, w') /\
      store_wf (db w') /\
      (forall f g,
         In f (pre ++ files) -> gameToIndex f = Ok g -> settled f (db w')).
Proof.
  induction files as [|x files IH]; intros pre w Hw Ha Hs.
  - exists w. split; [reflexivity|]. split; [exact Hw|].
    rewrite app_nil_r. exact Hs.
  - rewrite forEach_cons.
    destruct (@indexFile_step x w Hw) as (w1 & E1 & Hw1 & _ & Hx & _).
    rewrite E1.
    destruct (IH (pre ++ [x]) w1 Hw1) as (w' & E & Hw' & Hs').
    + rewrite <- app_assoc. exact Ha.
    + intros f g Hin Hg. apply in_app_or in Hin as [Hin|[<-|[]]].
      * destruct (@indexFile_keeps_settled f x w Hw) as (w2 & E2 & _ & H2 & _).
        -- intros Hn. symmetry.
           apply (Ha f x g); [| |symmetry; exact Hn|exact Hg];
             apply in_or_app.
           ++ left; exact Hin.
           ++ right; left; reflexivity.
        -- apply (Hs f g Hin Hg).
        -- rewrite E1 in E2. injection E2 as <-. exact H2.
      * apply (Hx g Hg).
    + exists w'. split; [exact E|]. split; [exact Hw'|].
      rewrite <- app_assoc in Hs'. exact Hs'.
Qed.

(** In a list without repeated names a path has one size. *)
Lemma NoDup_one_size_per_name files :
  NoDup (map name files) -> one_size_per_name files.
Proof.
  intros Hn f f' g Hf Hf' E _.
  rewrite (@NoDup_map_inj _ _ name files f f' Hn Hf Hf' E). reflexivity.
Qed.

Lemma indexFiles_eq fails files w :
  indexFiles fails files w =
  match forEach (indexFile fails) files
          (MkWorld (db w) (events w ++ [Logged MsgStartedIndexing])) with
  | (Ok _, w') =>
      (Ok tt,
       MkWorld (db w') (events w' ++ [Logged MsgFinishedIndexing]))
  | (Err e, w') => (Err e, w')
  end.
Proof.
  unfold indexFiles, mbind, logger, emit.
  destruct (forEach _ _ _) as [[[]|e] w']; reflexivity.
Qed.

(** ** Claims about runs of [indexFiles] *)

Lemma empty_world_wf : store_wf (db empty_world).
Proof. repeat split; constructor. Qed.

(** A list that gives one path two sizes is the listing of no directory;
    on it every run writes again: the descriptors are indexed in turn, and
    the second run finds the size of the last one. *)
Lemma one_path_with_two_sizes_is_rewritten :
  exists w1 w2,
    indexFiles never_fails repeated_name empty_world = (Ok tt, w1) /\
    indexFiles never_fails repeated_name w1 = (Ok tt, w2) /\
    length (writes_of (events w1)) = 2 /\
    length (writes_of (events w2)) = 4.
Proof.
  exists (snd (indexFiles never_fails repeated_name empty_world)).
  exists (snd (indexFiles never_fails repeated_name
                 (snd (indexFiles never_fails repeated_name empty_world)))).
  vm_compute. repeat split; reflexivity.
Qed.

(** C3. [indexFiles] is idempotent. For every listing of an unchanged
    filesystem, that is every descriptor list in which a path has one
    size, repeated descriptors included, in a well-formed store and with no
    failing call, a second run of [indexFiles] over the store left by the
    first one ends normally, leaves the store as it is and performs no
    store mutation: it only logs. *)
Theorem C3_second_run_writes_nothing
    (files : list IGameVaultFile) (w : World) :
  store_wf (db w) -> one_size_per_name files ->
  exists w1 w2 evs,
    indexFiles never_fails files w = (Ok tt, w1) /\
    indexFiles never_fails files w1 = (Ok tt, w2) /\
    db w2 = db w1 /\
    events w2 = events w1 ++ evs /\
    writes_of evs = [].
Proof.
  intros Hw Hn.
  destruct (@forEach_settles_after files []
              (MkWorld (db w) (events w ++ [Logged MsgStartedIndexing]))
              Hw Hn)
    as (wa & Ea & Hwa & Hs); [intros f g []|].
  cbn [app] in Hs.
  set (w1 := MkWorld (db wa) (events wa ++ [Logged MsgFinishedIndexing])).
  destruct (@forEach_settled files
              (MkWorld (db w1) (events w1 ++ [Logged MsgStartedIndexing])) Hs)
    as (evs & Eb & Hev).
  exists w1, (MkWorld (db w1)
                ((events w1 ++ [Logged MsgStartedIndexing]) ++ evs
                 ++ [Logged MsgFinishedIndexing])),
    (Logged MsgStartedIndexing :: evs ++ [Logged MsgFinishedIndexing]).
  split; [rewrite indexFiles_eq, Ea; reflexivity|].
  split; [rewrite indexFiles_eq, Eb; cbn [db events];
          rewrite <- !app_assoc; reflexivity|].
  cbn [db events]. split; [reflexivity|].
  split; [rewrite <- !app_assoc; reflexivity|].
  change (Logged MsgStartedIndexing :: evs ++ [Logged MsgFinishedIndexing])
    with ([Logged MsgStartedIndexing] ++ evs ++ [Logged MsgFinishedIndexing]).
  rewrite !writes_of_app, Hev. reflexivity.
Qed.

Lemma sample_listing_NoDup : NoDup (map name sample_listing).
Proof.
  repeat constructor; simpl; intros H;
    repeat (destruct H as [H|H]; [discriminate|]); exact H.
Qed.

Lemma sample_listing_with_a_repeat_one_size :
  one_size_per_name sample_listing_with_a_repeat.
Proof.
  intros f f' g Hf Hf' E _.
  repeat (destruct Hf as [<-|Hf]; [|]); try destruct Hf;
    repeat (destruct Hf' as [<-|Hf']; [|]); try destruct Hf';
    first [reflexivity | vm_compute in E; discriminate E].
Qed.

Lemma C3_witness_sample_listing :
  exists w1 w2,
    indexFiles never_fails sample_listing_with_a_repeat
      (sample_world (Some 5%Z))
    = (Ok tt, w1) /\
    indexFiles never_fails sample_listing_with_a_repeat w1 = (Ok tt, w2) /\
    db w2 = db w1 /\
    length (rows (db w1)) = 2 /\
    length (writes_of (events w1)) = 3.
Proof.
  destruct (@C3_second_run_writes_nothing sample_listing_with_a_repeat
              (sample_world (Some 5%Z)) (sample_world_wf _)
              sample_listing_with_a_repeat_one_size)
    as (w1 & w2 & evs & E1 & E2 & Hdb & _).
  exists w1, w2. split; [exact E1|]. split; [exact E2|].
  split; [exact Hdb|].
  vm_compute in E1. injection E1 as <-. split; reflexivity.
Defined.

(** ** Failures: two stores that differ by the restoration of one path *)

Lemma restored_twice r : restored (restored r) = restored r.
Proof. destruct r; reflexivity. Qed.

Lemma row_rel_refl p r : row_rel p r r.
Proof. left; reflexivity. Qed.

Lemma row_rel_keys p r r' :
  row_rel p r r' -> id r' = id r /\ file_path r' = file_path r.
Proof.
  intros [->|[_ ->]]; [auto|].
  destruct (restored_fields r) as (H1 & H2 & _). auto.
Qed.

Lemma row_rel_other p r r' :
  row_rel p r r' -> file_path r <> p -> r' = r.
Proof. intros [->|[H _]] Hp; [reflexivity|contradiction]. Qed.

Lemma row_rel_restored p r r' :
  row_rel p r r' -> restored r' = restored r.
Proof. intros [->|[_ ->]]; [reflexivity|apply restored_twice]. Qed.

Lemma Forall2_refl_rel p l : Forall2 (row_rel p) l l.
Proof. induction l; constructor; auto using row_rel_refl. Qed.

Lemma restored_at_refl p s : restored_at p s s.
Proof. split; [reflexivity|apply Forall2_refl_rel]. Qed.

Lemma rel_existsb p (f : Game -> bool) l l' :
  (forall r r', row_rel p r r' -> f r' = f r) ->
  Forall2 (row_rel p) l l' -> existsb f l' = existsb f l.
Proof.
  intros Hf H. induction H as [|r r' l l' Hr Hl IH]; simpl; [reflexivity|].
  rewrite (Hf r r' Hr), IH. reflexivity.
Qed.

Lemma rel_find p (f : Game -> bool) l l' :
  (forall r r', row_rel p r r' -> f r' = f r) ->
  Forall2 (row_rel p) l l' ->
  match find f l, find f l' with
  | Some r, Some r' => row_rel p r r'
  | None, None => True
  | _, _ => False
  end.
Proof.
  intros Hf H. induction H as [|r r' l l' Hr Hl IH]; simpl; [exact I|].
  rewrite (Hf r r' Hr). destruct (f r); [exact Hr|exact IH].
Qed.

Lemma rel_map p (g g' : Game -> Game) l l' :
  (forall r r', row_rel p r r' -> row_rel p (g r) (g' r')) ->
  Forall2 (row_rel p) l l' -> Forall2 (row_rel p) (map g l) (map g' l').
Proof.
  intros Hg H. induction H; simpl; constructor; auto.
Qed.

Lemma has_id_rel p i r r' : row_rel p r r' -> has_id i r' = has_id i r.
Proof.
  intros H. destruct (row_rel_keys H) as [Hi _]. unfold has_id.
  rewrite Hi. reflexivity.
Qed.

Lemma has_path_rel p q r r' : row_rel p r r' -> has_path q r' = has_path q r.
Proof.
  intros H. destruct (row_rel_keys H) as [_ Hp]. unfold has_path.
  rewrite Hp. reflexivity.
Qed.

Lemma restored_at_map_row p i (f : Game -> Game) s s' :
  (forall r r', row_rel p r r' -> row_rel p (f r) (f r')) ->
  restored_at p s s' -> restored_at p (map_row i f s) (map_row i f s').
Proof.
  intros Hf [Hn H]. split; [exact Hn|]. cbn [map_row rows].
  apply rel_map; [|exact H]. intros r r' Hr.
  rewrite (has_id_rel i Hr). destruct (has_id i r); auto.
Qed.

Lemma restored_at_findByPath p q s s' :
  restored_at p s s' -> q <> p -> findByPath q s' = findByPath q s.
Proof.
  intros [_ H] Hq. unfold findByPath.
  pose proof (@rel_find p (has_path q) _ _
                (fun r r' Hr => has_path_rel q Hr) H) as Hfind.
  destruct (find (has_path q) (rows s)) as [r|] eqn:E,
           (find (has_path q) (rows s')) as [r'|]; try contradiction;
    [|reflexivity].
  apply find_some in E as [_ E]. apply has_path_true in E.
  rewrite (row_rel_other Hfind); congruence.
Qed.

Lemma restored_at_path_taken p q self s s' :
  restored_at p s s' -> path_taken q self s' = path_taken q self s.
Proof.
  intros [_ H]. unfold path_taken. apply (@rel_existsb p); [|exact H].
  intros r r' Hr. rewrite (has_path_rel q Hr).
  destruct self as [i|]; [rewrite (has_id_rel i Hr)|]; reflexivity.
Qed.

(** ** Computations that do not tell such stores apart *)

Lemma blind_ret p {A : Type} (a : A) : blind p (ret a).
Proof.
  intros w v H. exists (Ok a), [], (db w), (db v).
  unfold ret. rewrite !app_nil_r. destruct w, v; auto.
Qed.

Lemma blind_throw p {A : Type} (e : exn) : blind p (@throw A e).
Proof.
  intros w v H. exists (Err e), [], (db w), (db v).
  unfold throw. rewrite !app_nil_r. destruct w, v; auto.
Qed.

Lemma blind_lift p {A : Type} (r : result A) : blind p (lift r).
Proof.
  intros w v H. exists r, [], (db w), (db v).
  unfold lift. rewrite !app_nil_r. destruct w, v; auto.
Qed.

Lemma blind_emit p (e : Event) : blind p (emit e).
Proof.
  intros w v H. exists (Ok tt), [e], (db w), (db v). auto.
Qed.

Lemma blind_bind p {A B : Type} (m : M A) (f : A -> M B) :
  blind p m -> (forall a, blind p (f a)) -> blind p (mbind m f).
Proof.
  intros Hm Hf w v H.
  destruct (Hm w v H) as ([a|e] & evs & s1 & v1 & Ew & Ev & H1).
  - destruct (Hf a (MkWorld s1 (events w ++ evs))
                (MkWorld v1 (events v ++ evs)) H1)
      as (res & evs2 & s2 & v2 & Ew2 & Ev2 & H2).
    exists res, (evs ++ evs2), s2, v2. unfold mbind. rewrite Ew, Ev, Ew2, Ev2.
    cbn [events]. rewrite !app_assoc. auto.
  - exists (Err e), evs, s1, v1. unfold mbind. rewrite Ew, Ev. auto.
Qed.

Lemma blind_try_catch p {A : Type} (m : M A) (h : exn -> M A) :
  blind p m -> (forall e, blind p (h e)) -> blind p (try_catch m h).
Proof.
  intros Hm Hh w v H.
  destruct (Hm w v H) as ([a|e] & evs & s1 & v1 & Ew & Ev & H1).
  - exists (Ok a), evs, s1, v1. unfold try_catch. rewrite Ew, Ev. auto.
  - destruct (Hh e (MkWorld s1 (events w ++ evs))
                (MkWorld v1 (events v ++ evs)) H1)
      as (res & evs2 & s2 & v2 & Ew2 & Ev2 & H2).
    exists res, (evs ++ evs2), s2, v2. unfold try_catch.
    rewrite Ew, Ev, Ew2, Ev2. cbn [events]. rewrite !app_assoc. auto.
Qed.

Lemma blind_saveGame p fails g : blind p (saveGame fails g).
Proof.
  intros w v H. rewrite !saveGame_eq.
  rewrite (restored_at_path_taken (file_path g) (id g) H).
  destruct (fails (CallSave g)).
  { exists (Err StoreWriteError), [], (db w), (db v).
    rewrite !app_nil_r. destruct w, v; auto. }
  destruct (path_taken (file_path g) (id g) (db w)).
  { exists (Err StoreWriteError), [], (db w), (db v).
    rewrite !app_nil_r. destruct w, v; auto. }
  destruct H as [Hn H]. destruct (id g) as [i|].
  - rewrite (@rel_existsb p (has_id i) _ _
               (fun r r' Hr => has_id_rel i Hr) H).
    destruct (existsb (has_id i) (rows (db w))).
    + eexists _, _, _, _. split; [reflexivity|]. split; [reflexivity|].
      apply restored_at_map_row; [|split; assumption].
      intros; apply row_rel_refl.
    + exists (Err StoreWriteError), [], (db w), (db v).
      rewrite !app_nil_r. destruct w, v; split; [|split]; auto.
      split; assumption.
  - assert (Ec : created_row g (db v) = created_row g (db w))
      by (unfold created_row; rewrite Hn; reflexivity).
    rewrite Ec. unfold after_create. rewrite Ec.
    eexists _, _, _, _. split; [reflexivity|]. split; [reflexivity|].
    split; [cbn [next_id]; congruence|]. cbn [rows].
    apply Forall2_app; [exact H|]. constructor; [|constructor].
    apply row_rel_refl.
Qed.

Lemma blind_restoreGame p fails i : blind p (restoreGame fails i).
Proof.
  intros w v H. rewrite !restoreGame_eq.
  destruct (fails (CallRestore i)).
  { exists (Err StoreWriteError), [], (db w), (db v).
    rewrite !app_nil_r. destruct w, v; auto. }
  destruct i as [j|].
  2:{ exists (Err StoreWriteError), [], (db w), (db v).
      rewrite !app_nil_r. destruct w, v; auto. }
  pose proof (@rel_find p (has_id j) _ _
                (fun r r' Hr => has_id_rel j Hr) (proj2 H)) as Hfind.
  destruct (find (has_id j) (rows (db w))) as [r|],
           (find (has_id j) (rows (db v))) as [r'|]; try contradiction.
  - fold (restored r). fold (restored r').
    rewrite (row_rel_restored Hfind).
    eexists _, _, _, _. split; [reflexivity|]. split; [reflexivity|].
    apply restored_at_map_row; [|exact H].
    intros a a' Ha. fold (restored a). fold (restored a').
    rewrite (row_rel_restored Ha). apply row_rel_refl.
  - exists (Err StoreWriteError), [], (db w), (db v).
    rewrite !app_nil_r. destruct w, v; auto.
Qed.

Lemma blind_check p fails g :
  file_path g <> p -> blind p (checkIfGameExistsInDatabase fails g).
Proof.
  intros Hp w v H. rewrite !checkIfGameExistsInDatabase_eq.
  destruct (fails (CallCheck g)).
  { exists (Err StoreReadError), [], (db w), (db v).
    rewrite !app_nil_r. destruct w, v; auto. }
  assert (E : existence g (db v) = existence g (db w)).
  { unfold existence. rewrite (restored_at_findByPath H Hp). reflexivity. }
  rewrite E. exists (Ok (existence g (db w))), [], (db w), (db v).
  rewrite !app_nil_r. destruct w, v; auto.
Qed.

Lemma blind_updateGame p fails e c : blind p (updateGame fails e c).
Proof.
  unfold updateGame. apply blind_bind; [apply blind_emit|].
  intros _. apply blind_saveGame.
Qed.

Lemma blind_lift_bind p {A B : Type} (r : result A) (f : A -> M B) :
  (forall a, r = Ok a -> blind p (f a)) -> blind p (mbind (lift r) f).
Proof.
  intros Hf. destruct r as [a|e].
  - intros w v H. destruct (Hf a eq_refl w v H)
      as (res & evs & s' & v' & Ew & Ev & H').
    exists res, evs, s', v'. unfold mbind, lift. auto.
  - intros w v H. exists (Err e), [], (db w), (db v).
    unfold mbind, lift. rewrite !app_nil_r. destruct w, v; auto.
Qed.

Lemma blind_tryIndexFile p fails file :
  name file <> p -> blind p (tryIndexFile fails file).
Proof.
  intros Hp. unfold tryIndexFile.
  apply blind_lift_bind. intros g Hg.
  destruct (@gameToIndex_fields file g Hg) as (Hpath & _).
  assert (Ne : file_path g <> p) by congruence.
  apply blind_bind; [apply blind_check; exact Ne|].
  intros [[] ex]; cbn [fst snd].
  - apply blind_emit.
  - apply blind_bind; [apply blind_emit|]. intros _.
    apply blind_bind; [apply blind_saveGame|]. intros; apply blind_ret.
  - apply blind_bind; [apply blind_emit|]. intros _.
    apply blind_bind.
    { unfold tuple_id. destruct ex; [apply blind_ret|apply blind_throw]. }
    intros i. apply blind_bind; [apply blind_restoreGame|]. intros r.
    apply blind_bind; [apply blind_updateGame|]. intros; apply blind_ret.
  - apply blind_bind; [apply blind_emit|]. intros _.
    apply blind_bind.
    { unfold tuple_game. destruct ex; [apply blind_ret|apply blind_throw]. }
    intros r. apply blind_bind; [apply blind_updateGame|].
    intros; apply blind_ret.
Qed.

Lemma blind_indexFile p fails file :
  name file <> p -> blind p (indexFile fails file).
Proof.
  intros Hp. unfold indexFile. apply blind_try_catch.
  - apply blind_tryIndexFile; exact Hp.
  - intros e. apply blind_emit.
Qed.

Lemma blind_forEach p {A : Type} (body : A -> M unit) (l : list A) :
  (forall x, In x l -> blind p (body x)) -> blind p (forEach body l).
Proof.
  induction l as [|x l IH]; intros H; cbn [forEach].
  - apply blind_ret.
  - apply blind_bind; [apply H; left; reflexivity|].
    intros _. apply IH. intros y Hy. apply H. right; exact Hy.
Qed.

(** ** The store stays well formed, whatever fails *)

Lemma keeps_wf_bind {A B : Type} (m : M A) (f : A -> M B) :
  keeps_wf m -> (forall a, keeps_wf (f a)) -> keeps_wf (mbind m f).
Proof.
  intros Hm Hf w Hw. unfold mbind. specialize (Hm w Hw).
  destruct (m w) as [[a|e] w']; cbn [snd] in *; [|exact Hm].
  apply Hf; exact Hm.
Qed.

Lemma keeps_wf_try_catch {A : Type} (m : M A) (h : exn -> M A) :
  keeps_wf m -> (forall e, keeps_wf (h e)) -> keeps_wf (try_catch m h).
Proof.
  intros Hm Hh w Hw. unfold try_catch. specialize (Hm w Hw).
  destruct (m w) as [[a|e] w']; cbn [snd] in *; [exact Hm|].
  apply Hh; exact Hm.
Qed.

Lemma keeps_wf_same {A : Type} (m : M A) :
  (forall w, db (snd (m w)) = db w) -> keeps_wf m.
Proof. intros H w Hw. rewrite H. exact Hw. Qed.

Lemma NoDup_middle {A : Type} (l l' : list A) (a : A) :
  NoDup (l ++ l') -> ~ In a (l ++ l') -> NoDup (l ++ a :: l').
Proof.
  induction l as [|x l IH]; simpl; intros Hn Ha.
  - constructor; assumption.
  - inversion Hn as [|? ? Hx Hl]; subst. constructor.
    + intros Hin. apply in_app_or in Hin as [Hin|[Hin|Hin]].
      * apply Hx, in_or_app; left; exact Hin.
      * subst. apply Ha. left; reflexivity.
      * apply Hx, in_or_app; right; exact Hin.
    + apply IH; [exact Hl|]. intros Hin. apply Ha. right; exact Hin.
Qed.

Lemma path_taken_none_find p s :
  path_taken p None s = false -> findByPath p s = None.
Proof.
  intros H. unfold findByPath.
  destruct (find (has_path p) (rows s)) as [r|] eqn:E; [|reflexivity].
  apply find_some in E as [Hin Hp]. exfalso.
  unfold path_taken in H.
  assert (existsb (fun r0 => has_path p r0 && negb false) (rows s) = true).
  { apply existsb_exists. exists r. rewrite Hp. auto. }
  congruence.
Qed.

(** An update that passes the uniqueness check keeps the store well
    formed. *)
Lemma wf_update s g i :
  store_wf s -> id g = Some i ->
  path_taken (file_path g) (Some i) s = false ->
  existsb (has_id i) (rows s) = true ->
  store_wf (map_row i (fun _ => g) s).
Proof.
  intros Hw Hg Hp Hex.
  apply existsb_exists in Hex as (r & Hin & Hr). apply has_id_true in Hr.
  destruct (@wf_around s r i Hw Hin Hr) as (l1 & l2 & Es & O1 & O2).
  assert (Hfree : forall y, In y (l1 ++ l2) -> file_path y <> file_path g).
  { intros y Hy Ey. unfold path_taken in Hp.
    assert (existsb (fun r0 => has_path (file_path g) r0
                               && negb (has_id i r0)) (rows s) = true);
      [|congruence].
    apply existsb_exists. exists y. split.
    - rewrite Es. cbn [rows]. apply in_app_or in Hy as [Hy|Hy];
        apply in_or_app; [left|right; right]; exact Hy.
    - rewrite (proj2 (has_path_true (file_path g) y) Ey).
      assert (id y <> Some i).
      { apply in_app_or in Hy as [Hy|Hy]; [apply (O1 y Hy)|apply (O2 y Hy)]. }
      rewrite (proj2 (has_id_false i y) H). reflexivity. }
  rewrite Es, (@around_map_row i _ l1 l2 (next_id s) O1 O2 _ r Hr).
  rewrite Es in Hw. destruct Hw as (Wp & Wi & Wf).
  unfold store_wf. cbn [rows next_id] in *.
  rewrite !map_app in *. cbn [map] in *. split; [|split].
  - apply NoDup_middle; [apply NoDup_remove_1 in Wp; exact Wp|].
    rewrite <- map_app. intros Hin'. apply in_map_iff in Hin'
      as (y & Ey & Hy). apply (Hfree y Hy Ey).
  - rewrite Hg, <- Hr. exact Wi.
  - rewrite Forall_app in *. destruct Wf as [W1 W2]. split; [exact W1|].
    inversion W2 as [|? ? Hb Hl2]; subst. constructor; [|exact Hl2].
    rewrite Hg, <- Hr. exact Hb.
Qed.

Lemma wf_map_row_keys s i f :
  store_wf s ->
  (forall r, id (f r) = id r /\ file_path (f r) = file_path r) ->
  store_wf (map_row i f s).
Proof.
  intros (Wp & Wi & Wf) Hf. unfold store_wf, map_row. cbn [rows next_id].
  rewrite !map_map.
  assert (E1 : map (fun x => file_path (if has_id i x then f x else x))
                 (rows s) = map file_path (rows s)).
  { apply map_ext. intros r. destruct (has_id i r); [apply Hf|reflexivity]. }
  assert (E2 : map (fun x => id (if has_id i x then f x else x)) (rows s)
               = map id (rows s)).
  { apply map_ext. intros r. destruct (has_id i r); [apply Hf|reflexivity]. }
  rewrite E1, E2. split; [exact Wp|]. split; [exact Wi|].
  apply Forall_map. eapply Forall_impl; [|exact Wf].
  intros r Hr. destruct (has_id i r); [|exact Hr].
  destruct (Hf r) as [-> _]. exact Hr.
Qed.

Lemma keeps_wf_saveGame fails g : keeps_wf (saveGame fails g).
Proof.
  intros w Hw. rewrite saveGame_eq.
  destruct (fails (CallSave g)); [exact Hw|].
  destruct (path_taken (file_path g) (id g) (db w)) eqn:Ep; [exact Hw|].
  destruct (id g) as [i|] eqn:Ei.
  - destruct (existsb (has_id i) (rows (db w))) eqn:Ex; [|exact Hw].
    cbn [snd db]. apply wf_update; assumption.
  - cbn [snd db]. apply wf_create; [exact Hw|].
    apply path_taken_none_find; exact Ep.
Qed.

Lemma keeps_wf_restoreGame fails i : keeps_wf (restoreGame fails i).
Proof.
  intros w Hw. rewrite restoreGame_eq.
  destruct (fails (CallRestore i)); [exact Hw|].
  destruct i as [j|]; [|exact Hw].
  destruct (find (has_id j) (rows (db w))); [|exact Hw].
  cbn [snd db]. apply wf_map_row_keys; [exact Hw|].
  intros r. fold (restored r). destruct (restored_fields r) as (H1 & H2 & _).
  auto.
Qed.

Lemma keeps_wf_indexFile fails file : keeps_wf (indexFile fails file).
Proof.
  unfold indexFile. apply keeps_wf_try_catch;
    [|intros; apply keeps_wf_same; reflexivity].
  unfold tryIndexFile.
  apply keeps_wf_bind; [apply keeps_wf_same; reflexivity|]. intros g.
  apply keeps_wf_bind.
  { apply keeps_wf_same. intros w. rewrite checkIfGameExistsInDatabase_eq.
    destruct (fails (CallCheck g)); reflexivity. }
  intros [[] ex]; cbn [fst snd].
  - apply keeps_wf_same; reflexivity.
  - apply keeps_wf_bind; [apply keeps_wf_same; reflexivity|]. intros _.
    apply keeps_wf_bind; [apply keeps_wf_saveGame|].
    intros; apply keeps_wf_same; reflexivity.
  - apply keeps_wf_bind; [apply keeps_wf_same; reflexivity|]. intros _.
    apply keeps_wf_bind.
    { apply keeps_wf_same. intros w. destruct ex; reflexivity. }
    intros i. apply keeps_wf_bind; [apply keeps_wf_restoreGame|]. intros r.
    apply keeps_wf_bind; [|intros; apply keeps_wf_same; reflexivity].
    unfold updateGame.
    apply keeps_wf_bind; [apply keeps_wf_same; reflexivity|].
    intros _. apply keeps_wf_saveGame.
  - apply keeps_wf_bind; [apply keeps_wf_same; reflexivity|]. intros _.
    apply keeps_wf_bind.
    { apply keeps_wf_same. intros w. destruct ex; reflexivity. }
    intros r. apply keeps_wf_bind; [|intros; apply keeps_wf_same; reflexivity].
    unfold updateGame.
    apply keeps_wf_bind; [apply keeps_wf_same; reflexivity|].
    intros _. apply keeps_wf_saveGame.
Qed.

Lemma keeps_wf_forEach {A : Type} (body : A -> M unit) (l : list A) :
  (forall x, keeps_wf (body x)) -> keeps_wf (forEach body l).
Proof.
  intros H. induction l as [|x l IH]; cbn [forEach].
  - apply keeps_wf_same; reflexivity.
  - apply keeps_wf_bind; [apply H|]. intros _. exact IH.
Qed.

(** ** A turn that fails *)

Lemma indexFile_always_ok fails file w : fst (indexFile fails file w) = Ok tt.
Proof.
  rewrite indexFile_eq.
  destruct (tryIndexFile fails file w) as [[[]|e] w']; reflexivity.
Qed.

Lemma forEach_always_ok fails files :
  forall w, fst (forEach (indexFile fails) files w) = Ok tt.
Proof.
  induction files as [|f files IH]; intros w; [reflexivity|].
  rewrite forEach_cons. pose proof (indexFile_always_ok fails f w) as H.
  destruct (indexFile fails f w) as [[[]|e] w']; [apply IH|discriminate].
Qed.

Lemma forEach_app {A : Type} (body : A -> M unit) (l l' : list A) :
  forall w,
    forEach body (l ++ l') w =
    match forEach body l w with
    | (Ok _, w') => forEach body l' w'
    | (Err e, w') => (Err e, w')
    end.
Proof.
  induction l as [|x l IH]; intros w; [reflexivity|].
  cbn [app]. rewrite !forEach_cons.
  destruct (body x w) as [[[]|e] w1]; [apply IH|reflexivity].
Qed.

(** Restoring the row of a path, seen as a relation between stores. *)
Lemma restored_at_restore s r i :
  store_wf s -> In r (rows s) -> id r = Some i ->
  restored_at (file_path r) s (map_row i (set_deleted_at None) s).
Proof.
  intros Hw Hin Hi.
  destruct (@wf_around s r i Hw Hin Hi) as (l1 & l2 & Es & O1 & O2).
  rewrite Es at 2.
  rewrite (@around_map_row i _ l1 l2 (next_id s) O1 O2 _ r Hi).
  split; [reflexivity|]. rewrite Es at 1. cbn [rows].
  apply Forall2_app; [apply Forall2_refl_rel|].
  constructor; [|apply Forall2_refl_rel]. right. auto.
Qed.

(** A turn that throws has left the store as it was, or has only restored
    the row of the path of its file. *)
Lemma failing_turn fails file w e w' :
  store_wf (db w) -> tryIndexFile fails file w = (Err e, w') ->
  restored_at (name file) (db w) (db w') /\
  exists evs, events w' = events w ++ evs.
Proof.
  intros Hw. destruct (gameToIndex file) as [g|e0] eqn:Hg.
  2:{ unfold tryIndexFile, mbind, lift. rewrite Hg. intros [= _ <-].
      split; [apply restored_at_refl|]. exists []. symmetry; apply app_nil_r. }
  destruct (@gameToIndex_fields file g Hg) as (Hp & _).
  rewrite (@tryIndexFile_eq fails file g w Hg).
  destruct (fails (CallCheck g)).
  { intros [= _ <-]. split; [apply restored_at_refl|].
    exists []. symmetry; apply app_nil_r. }
  destruct (existence_cases g (db w))
    as [[E Hf]|(r & Hf & [(E & _)|[(E & _)|(E & _)]])]; rewrite E.
  - unfold mbind. rewrite saveGame_eq. cbn [db events].
    destruct (fails (CallSave g)).
    { close_failure (restored_at_refl (name file) (db w)). }
    destruct (path_taken _ _ _).
    { close_failure (restored_at_refl (name file) (db w)). }
    destruct (id g) as [i|]; [|discriminate].
    destruct (existsb _ _); [discriminate|].
    close_failure (restored_at_refl (name file) (db w)).
  - discriminate.
  - unfold mbind, tuple_game, ret. rewrite updateGame_eq, saveGame_eq.
    cbn [db events].
    destruct (fails (CallSave _)).
    { close_failure (restored_at_refl (name file) (db w)). }
    destruct (path_taken _ _ _).
    { close_failure (restored_at_refl (name file) (db w)). }
    destruct (id (updatedGame r g)) as [i|].
    + destruct (existsb _ _); [discriminate|].
      close_failure (restored_at_refl (name file) (db w)).
    + discriminate.
  - apply findByPath_some in Hf as [Hin Hr].
    destruct (@wf_row_id (db w) r Hw Hin) as (i & Hi & _).
    unfold mbind at 1. unfold tuple_id, ret. rewrite Hi.
    unfold mbind at 1. rewrite restoreGame_eq. cbn [db events].
    destruct (fails (CallRestore (Some i))).
    { close_failure (restored_at_refl (name file) (db w)). }
    rewrite (@wf_find_id (db w) r i Hw Hin Hi).
    unfold mbind. rewrite updateGame_eq, saveGame_eq. cbn [db events].
    assert (Hrel : restored_at (name file) (db w)
                     (map_row i (set_deleted_at None) (db w))).
    { rewrite <- Hp, <- Hr. apply restored_at_restore; assumption. }
    destruct (fails (CallSave _)).
    { close_failure Hrel. }
    destruct (path_taken _ _ _).
    { close_failure Hrel. }
    destruct (id (updatedGame _ g)) as [k|].
    + destruct (existsb _ _); [discriminate|].
      close_failure Hrel.
    + discriminate.
Qed.

(** ** Claims about failures *)

(** A descriptor that names the path of the failing one once more, later
    in the list, is not one of the others: the two speak of the same file.
    The store holds the soft-deleted row of "Portal (2007).zip", of size 7.
    In the run over the two descriptors, the first one (size 5) fails: its
    row is restored, then the update is refused. The second one (size 7)
    is then an identical copy and writes nothing; alone, it is restored
    and updated. *)
Lemma later_descriptor_of_the_failing_path :
  let p := js "Portal (2007).zip" in
  let r := sample_row (Some 5%Z) in
  let g5 := updatedGame (restored r) (set_size 5 r) in
  let g7 := updatedGame (restored r) r in
  events (snd (indexFiles refuses_size_5 [portal_5; portal_7]
                 (sample_world (Some 5%Z))))
  = [Logged MsgStartedIndexing;
     Logged (MsgRestoring p); Wrote (Restored (restored r));
     Logged (MsgUpdatedInformation p);
     Logged (MsgFailedToIndex StoreWriteError p);
     Logged (MsgIdenticalCopy p);
     Logged MsgFinishedIndexing] /\
  events (snd (indexFiles refuses_size_5 [portal_7]
                 (sample_world (Some 5%Z))))
  = [Logged MsgStartedIndexing;
     Logged (MsgRestoring p); Wrote (Restored (restored r));
     Logged (MsgUpdatedInformation p); Wrote (Updated g7);
     Logged MsgFinishedIndexing].
Proof. vm_compute. split; reflexivity. Qed.

(** C4. [indexFiles] never throws and isolates the failure of a file. Take
    a descriptor list, run in a well-formed store, in which the turn of
    the descriptor [d] throws, because the parser rejects it or because a
    call to the store fails; the descriptors before [d] are any, those
    after [d] are the descriptors of other paths. Then the run ends
    normally; what is logged and written for the other descriptors is
    exactly what the run without [d] logs and writes, the events of [d],
    closed by the line of the error log, being inserted at its place; and
    the two final stores are the same, except that the row of the path of
    [d] may have lost its soft-delete marker. *)
Theorem C4_failure_is_isolated
    (fails : Call -> bool) (l1 : list IGameVaultFile) (d : IGameVaultFile)
    (l2 : list IGameVaultFile) (w w1 wd : World) (e : exn) :
  store_wf (db w) -> (forall f, In f l2 -> name f <> name d) ->
  forEach (indexFile fails) l1
    (MkWorld (db w) (events w ++ [Logged MsgStartedIndexing]))
  = (Ok tt, w1) ->
  tryIndexFile fails d w1 = (Err e, wd) ->
  exists evd evs s s',
    events wd = events w1 ++ evd /\
    indexFiles fails (l1 ++ l2) w
    = (Ok tt,
       MkWorld s (events w1 ++ evs ++ [Logged MsgFinishedIndexing])) /\
    indexFiles fails (l1 ++ d :: l2) w
    = (Ok tt,
       MkWorld s'
         (events w1
          ++ (evd ++ [Logged (MsgFailedToIndex e (name d))])
          ++ evs ++ [Logged MsgFinishedIndexing])) /\
    restored_at (name d) s s'.
Proof.
  intros Hw Hl2 E1 Ed.
  assert (Hw1 : store_wf (db w1)).
  { pose proof (@keeps_wf_forEach _ (indexFile fails) l1
                  (keeps_wf_indexFile fails)
                  (MkWorld (db w) (events w ++ [Logged MsgStartedIndexing]))
                  Hw) as H.
    rewrite E1 in H. exact H. }
  destruct (@failing_turn fails d w1 e wd Hw1 Ed) as (Hrel & evd & Hevd).
  set (wd' := MkWorld (db wd)
                (events wd ++ [Logged (MsgFailedToIndex e (name d))])).
  destruct (@blind_forEach (name d) _ (indexFile fails) l2
              (fun f Hf => @blind_indexFile (name d) fails f (Hl2 f Hf))
              w1 wd' Hrel)
    as (res & evs & s & s' & Ea & Eb & Hfinal).
  assert (res = Ok tt) as ->.
  { pose proof (forEach_always_ok fails l2 w1) as H. rewrite Ea in H.
    exact H. }
  exists evd, evs, s, s'. split; [exact Hevd|]. split; [|split].
  - rewrite indexFiles_eq, forEach_app, E1, Ea. cbn [db events].
    rewrite <- app_assoc. reflexivity.
  - rewrite indexFiles_eq, forEach_app, E1, forEach_cons, indexFile_eq, Ed.
    fold wd'. rewrite Eb. cbn [db events]. unfold wd'. cbn [events].
    rewrite Hevd, <- !app_assoc. reflexivity.
  - exact Hfinal.
Qed.

Lemma C4_witness_refused_update :
  exists s s',
    db (snd (indexFiles refuses_size_5
               [MkFile (js "Half-Life (1998).zip") 3;
                MkFile (js "Doom (1993) (v1.9).zip") 4]
               (sample_world (Some 5%Z)))) = s /\
    db (snd (indexFiles refuses_size_5 listing_with_portal_5
               (sample_world (Some 5%Z)))) = s' /\
    restored_at (js "Portal (2007).zip") s s' /\
    length (rows s') = 3.
Proof.
  assert (Hn : forall f,
             In f [MkFile (js "Doom (1993) (v1.9).zip") 4] ->
             name f <> name portal_5).
  { intros f [<-|[]] H. vm_compute in H. discriminate H. }
  destruct (@C4_failure_is_isolated refuses_size_5
              [MkFile (js "Half-Life (1998).zip") 3] portal_5
              [MkFile (js "Doom (1993) (v1.9).zip") 4]
              (sample_world (Some 5%Z))
              (snd (forEach (indexFile refuses_size_5)
                      [MkFile (js "Half-Life (1998).zip") 3]
                      (MkWorld (db (sample_world (Some 5%Z)))
                         [Logged MsgStartedIndexing])))
              (snd (tryIndexFile refuses_size_5 portal_5
                      (snd (forEach (indexFile refuses_size_5)
                              [MkFile (js "Half-Life (1998).zip") 3]
                              (MkWorld (db (sample_world (Some 5%Z)))
                                 [Logged MsgStartedIndexing])))))
              StoreWriteError (sample_world_wf _) Hn)
    as (evd & evs & s & s' & _ & Ea & Eb & Hrel).
  - vm_compute. reflexivity.
  - vm_compute. reflexivity.
  - exists s, s'.
    change ([MkFile (js "Half-Life (1998).zip") 3] ++
            [MkFile (js "Doom (1993) (v1.9).zip") 4])
      with [MkFile (js "Half-Life (1998).zip") 3;
            MkFile (js "Doom (1993) (v1.9).zip") 4] in Ea.
    change ([MkFile (js "Half-Life (1998).zip") 3] ++
            portal_5 :: [MkFile (js "Doom (1993) (v1.9).zip") 4])
      with listing_with_portal_5 in Eb.
    rewrite Ea, Eb. cbn [snd db]. split; [reflexivity|].
    split; [reflexivity|]. split; [exact Hrel|].
    vm_compute in Eb. injection Eb as <- _. reflexivity.
Defined.

(** ** The filesystem lister *)

(** Once the last dot of the last segment is found and a character of the
    name has been seen before it, the rest of the scan changes neither the
    dot nor the end. *)
Lemma extname_step_settled i c st sd e :
  startDot st = Some sd -> end_ st = Some e -> preDotState st <> 0%Z ->
  startDot (extname_step i c st) = Some sd /\
  end_ (extname_step i c st) = Some e /\
  preDotState (extname_step i c st) <> 0%Z.
Proof.
  intros Hs He Hp. unfold extname_step.
  destruct (stopped st); [auto|].
  destruct (chr_is "/" c).
  { destruct (negb (matchedSlash st)); cbn; auto. }
  rewrite He. destruct (chr_is "." c); rewrite Hs.
  - destruct (negb (Z.eqb (preDotState st) 1)); cbn; repeat split; auto;
      discriminate.
  - cbn. repeat split; auto; discriminate.
Qed.

Lemma extname_scan_settled l :
  forall st sd e,
    startDot st = Some sd -> end_ st = Some e -> preDotState st <> 0%Z ->
    startDot (extname_scan l st) = Some sd /\
    end_ (extname_scan l st) = Some e /\
    preDotState (extname_scan l st) <> 0%Z.
Proof.
  induction l as [|c r IH]; intros st sd e Hs He Hp; cbn [extname_scan].
  - auto.
  - destruct (@extname_step_settled (length r) c st sd e Hs He Hp)
      as (H1 & H2 & H3).
    apply IH; assumption.
Qed.

(** Before any dot, the characters of the extension leave the state as the
    first of them set it. *)
Lemma extname_scan_ext_chars l :
  forall rest sp e ms,
    forallb ext_char l = true ->
    extname_scan (l ++ rest) (MkExtScan None sp (Some e) ms 0 false)
    = extname_scan rest (MkExtScan None sp (Some e) ms 0 false).
Proof.
  induction l as [|c r IH]; intros rest sp e ms H; [reflexivity|].
  cbn [forallb] in H. apply andb_true_iff in H as [Hc Hr].
  unfold ext_char in Hc. apply andb_true_iff in Hc as [Hd Hs].
  apply negb_true_iff in Hd, Hs.
  cbn [app extname_scan]. unfold extname_step. cbn. rewrite Hs, Hd.
  apply IH; exact Hr.
Qed.

Lemma ext_char_true c :
  ext_char c = true -> chr_is "." c = false /\ chr_is "/" c = false.
Proof.
  unfold ext_char. intros H. apply andb_true_iff in H as [H1 H2].
  apply negb_true_iff in H1, H2. auto.
Qed.

Lemma extname_step_first i c sp :
  ext_char c = true ->
  extname_step i c (MkExtScan None sp None true 0 false)
  = MkExtScan None sp (Some (i + 1)) false 0 false.
Proof.
  intros H. apply ext_char_true in H as [Hd Hs].
  unfold extname_step. cbn [stopped matchedSlash negb end_ startDot].
  rewrite Hs, Hd. reflexivity.
Qed.

Lemma extname_step_dot i sp e ms :
  extname_step i "." (MkExtScan None sp (Some e) ms 0 false)
  = MkExtScan (Some i) sp (Some e) ms 0 false.
Proof. reflexivity. Qed.

Lemma extname_step_name i c sd sp e ms :
  ext_char c = true ->
  extname_step i c (MkExtScan (Some sd) sp (Some e) ms 0 false)
  = MkExtScan (Some sd) sp (Some e) ms (-1) false.
Proof.
  intros H. apply ext_char_true in H as [Hd Hs].
  unfold extname_step. cbn [stopped matchedSlash negb end_ startDot].
  rewrite Hs, Hd. reflexivity.
Qed.

(** The extension of a name with two dotted parts is the last part. *)
Lemma extname_two_parts stem a b c x :
  forallb ext_char a = true -> forallb ext_char b = true ->
  ext_char c = true -> ext_char x = true ->
  extname (stem ++ "."%char :: (x :: a) ++ "."%char :: b ++ [c])
  = "."%char :: b ++ [c].
Proof.
  intros Ha Hb Hc Hx. unfold extname.
  set (path := stem ++ "."%char :: (x :: a) ++ "."%char :: b ++ [c]).
  assert (Erev : rev path
                 = c :: rev b ++ "."%char :: rev a ++ x :: "."%char
                     :: rev stem).
  { unfold path. rewrite rev_app_distr. cbn [rev app].
    rewrite !rev_app_distr. cbn [rev app].
    rewrite !rev_app_distr. cbn [rev app].
    rewrite <- !app_assoc. reflexivity. }
  set (n := length stem + 1 + S (length a)).
  assert (Hlen : length path = n + 1 + length b + 1).
  { unfold path, n.
    repeat (rewrite length_app || rewrite length_cons || cbn [length app]).
    lia. }
  rewrite Erev. cbn [extname_scan].
  rewrite extname_step_first by exact Hc.
  rewrite extname_scan_ext_chars by (rewrite forallb_rev; exact Hb).
  cbn [extname_scan]. rewrite extname_step_dot.
  destruct (rev a ++ x :: "."%char :: rev stem) as [|y l] eqn:El.
  { destruct (rev a); discriminate. }
  assert (Hy : ext_char y = true).
  { destruct (rev a) as [|z ra] eqn:Era; cbn [app] in El.
    - injection El as <- _. exact Hx.
    - injection El as <- _.
      assert (Hz : In z (rev a)) by (rewrite Era; left; reflexivity).
      apply in_rev in Hz. rewrite forallb_forall in Ha. exact (Ha z Hz). }
  cbn [extname_scan]. rewrite extname_step_name by exact Hy.
  match goal with
  | |- context [extname_scan l ?st] =>
      destruct (@extname_scan_settled l st _ _ eq_refl eq_refl)
        as (Hsd & He & Hp); [cbn; discriminate|]
  end.
  apply Z.eqb_neq in Hp. rewrite Hsd, He, Hp. cbn [orb].
  assert (Hn : length (y :: l) = n).
  { rewrite <- El. unfold n.
    repeat (rewrite length_app || rewrite length_cons
            || rewrite length_rev || cbn [length app]).
    lia. }
  assert (He' : length (rev b ++ "."%char :: y :: l) + 1 = length path).
  { rewrite Hlen, length_app, length_rev, length_cons, Hn. lia. }
  rewrite He', Hn.
  assert (Hne : Nat.eqb n (length path - 1) = false).
  { apply Nat.eqb_neq. lia. }
  rewrite Hne, andb_false_r. cbn [orb andb].
  unfold slice, path.
  assert (Hpre : n = length (stem ++ "."%char :: x :: a)).
  { unfold n. rewrite length_app. cbn [length]. lia. }
  change (stem ++ "."%char :: (x :: a) ++ "."%char :: b ++ [c])
    with (stem ++ ("."%char :: x :: a) ++ "."%char :: b ++ [c]).
  rewrite app_assoc.
  replace (length ((stem ++ "."%char :: x :: a) ++ "."%char :: b ++ [c]) - n)
    with (length ("."%char :: b ++ [c]))
    by (rewrite length_app, <- Hpre; lia).
  rewrite Hpre, skipn_app, skipn_all, Nat.sub_diag.
  cbn [app skipn]. apply firstn_all.
Qed.

(** ** Claim about the lister *)

(** C7. The allow-list names three extensions in two parts, but [extname]
    only ever yields the last part: whatever comes before it, a name that
    ends in ".tar.gz", ".tar.bz2" or ".tar.xz" has the extension ".gz",
    ".bz2" or ".xz", which the list does not hold, so that such a file is
    never returned. In the sample directory the lister returns the zip
    archive only, not "Half-Life (1998).tar.gz". *)
Theorem C7_two_part_extensions_are_not_listed :
  (forall stem,
      extname (stem ++ js ".tar.gz") = js ".gz" /\
      extname (stem ++ js ".tar.bz2") = js ".bz2" /\
      extname (stem ++ js ".tar.xz") = js ".xz") /\
  includes archive_extensions (js ".gz") = false /\
  includes archive_extensions (js ".bz2") = false /\
  includes archive_extensions (js ".xz") = false /\
  includes archive_extensions (js ".tar.gz") = true /\
  getFiles (MkConfiguration false (js "/files")) [] sample_fs
  = Ok [MkFile (js "Portal (2007).zip") 42].
Proof.
  split; [|repeat split; reflexivity].
  intros stem. split; [|split].
  - apply (@extname_two_parts stem (js "ar") (js "g") "z" "t");
      reflexivity.
  - apply (@extname_two_parts stem (js "ar") (js "bz") "2" "t");
      reflexivity.
  - apply (@extname_two_parts stem (js "ar") (js "x") "z" "t");
      reflexivity.
Qed.
(** * Further properties of the code *)

(** ** The parser *)

Lemma year_group_not_across (x : ascii) (mid : str) d post suf1 :
  starts_year_group (x :: mid ++ "("%char :: d ++ ")"%char :: post) ->
  suf1 = x :: mid -> starts_year_group suf1.
Proof.
  intros (d' & post' & E & Hl & Hd) ->.
  injection E as -> E.
  destruct d' as [|a [|b [|c [|e [|]]]]]; try discriminate Hl.
  simpl in Hd.
  assert (Hp : is_digit "(" = false) by reflexivity.
  destruct mid as [|m1 [|m2 [|m3 [|m4 [|m5 mid]]]]]; simpl in E;
    inversion E; subst; clear E;
    try (rewrite Hp in Hd; simpl in Hd; rewrite ?andb_false_r in Hd;
         discriminate Hd).
  exists [a; b; c; e], mid. split; [reflexivity|].
  split; [reflexivity|exact Hd].
Qed.

(** X1. The release year is the text of the first parenthesized group of
    exactly four digits: of the group that no such group precedes, whatever
    follows it. *)
Theorem X1_year_is_the_first_group_of_four_digits (pre d post : str) :
  length d = 4 -> forallb is_digit d = true ->
  ~ occurs starts_year_group pre ->
  regexExtractReleaseYear (pre ++ "("%char :: d ++ ")"%char :: post)
  = Ok (Some d).
Proof.
  intros Hl Hd Hn. apply regexExtractReleaseYear_ok.
  exists pre, ("("%char :: d ++ ")"%char :: post), d, post.
  split; [reflexivity|]. split; [|split; auto].
  split; [reflexivity|]. split; [exists d, post; split; auto|].
  intros pre1 suf1 E L H. symmetry in E.
  apply app_eq_shorter in E as (x & mid & Epre & Es); [|exact L].
  apply Hn. exists pre1, (x :: mid). split; [exact Epre|].
  rewrite Es in H. eapply year_group_not_across; [exact H|reflexivity].
Qed.

Lemma X1_witness_two_years :
  regexExtractReleaseYear (js "Blade Runner (20490) (1997) (2022).zip")
  = Ok (Some (js "1997")).
Proof.
  apply (@X1_year_is_the_first_group_of_four_digits
           (js "Blade Runner (20490) ") (js "1997") (js " (2022).zip")).
  - reflexivity.
  - reflexivity.
  - apply regexExtractReleaseYear_err. reflexivity.
Defined.


(** X3. The early access flag is set exactly when the path holds the five
    characters of "(EA)" in a row, wherever they stand. *)
Theorem X3_early_access_iff_marker (s : str) :
  regexExtractEarlyAccessFlag s = true <->
  exists pre post, s = pre ++ js "(EA)" ++ post.
Proof. apply regexExtractEarlyAccessFlag_true. Qed.

(** X4. When no line terminator stands before the last path separator, the
    three replacements and the trim compute the title from the last path
    segment: its text before the final dot, without its parenthesized
    groups, trimmed. *)
Theorem X4_title_comes_from_the_last_segment (path : str) :
  forallb re_dot (directory_prefix path) = true ->
  regexExtractTitle path
  = trim (strip_groups false (without_extension (last_segment path))).
Proof. intros H. apply regexExtractTitle_spec. exact H. Qed.

Lemma X4_witness_nested_directories :
  regexExtractTitle (js "pc\shooters/Half-Life 2 (2004) (v1.2).tar.gz")
  = trim (strip_groups false
            (without_extension (js "Half-Life 2 (2004) (v1.2).tar.gz"))).
Proof.
  apply (@X4_title_comes_from_the_last_segment
           (js "pc\shooters/Half-Life 2 (2004) (v1.2).tar.gz")).
  reflexivity.
Defined.

Lemma existsb_strip_groups (p : ascii -> bool) (s : str) :
  forall inside,
    existsb p s = false -> existsb p (strip_groups inside s) = false.
Proof.
  induction s as [|c r IH]; intros inside H; [reflexivity|].
  simpl in H. apply orb_false_iff in H as (Hc & Hr).
  cbn [strip_groups].
  destruct inside.
  - destruct (chr_is ")" c); apply IH; exact Hr.
  - destruct (chr_is "(" c && existsb (chr_is ")") r); [apply IH; exact Hr|].
    simpl. rewrite Hc. apply IH; exact Hr.
Qed.

Lemma strip_groups_open (s : str) :
  forall inside a b,
    strip_groups inside s = a ++ "("%char :: b ->
    existsb (chr_is ")") b = false.
Proof.
  induction s as [|c r IH]; intros inside a b H.
  - destruct a; discriminate H.
  - cbn [strip_groups] in H. destruct inside.
    + destruct (chr_is ")" c); apply (IH _ _ _ H).
    + destruct (chr_is "(" c && existsb (chr_is ")") r) eqn:E;
        [apply (IH _ _ _ H)|].
      destruct a as [|x a]; simpl in H; injection H as -> H.
      * rewrite chr_is_refl in E. simpl in E. subst b.
        apply existsb_strip_groups. exact E.
      * apply (IH _ _ _ H).
Qed.

(** X5. Whatever the path, the title neither starts nor ends with white
    space, and no opening parenthesis of the title is followed by a closing
    one: no parenthesized group, year, version or early access marker,
    survives in it. *)
Theorem X5_title_is_trimmed_and_free_of_groups (path : str) :
  let t := regexExtractTitle path in
  (forall c r, t = c :: r -> is_ws c = false) /\
  (forall r c, t = r ++ [c] -> is_ws c = false) /\
  (forall a b, t = a ++ "("%char :: b -> existsb (chr_is ")") b = false).
Proof.
  intros t. subst t. unfold regexExtractTitle.
  rewrite replaceAll_parentheses.
  set (x := replace_empty re_extension (replace_empty re_directory path)).
  destruct (trim_spec (strip_groups false x)) as (l & r & E & _ & _ & H1 & H2).
  split; [exact H1|]. split; [exact H2|].
  intros a b H. rewrite H in E.
  assert (E' : strip_groups false x = (l ++ a) ++ "("%char :: (b ++ r)).
  { rewrite E, <- !app_assoc. reflexivity. }
  apply strip_groups_open in E'. rewrite existsb_app in E'.
  apply orb_false_iff in E' as (E' & _). exact E'.
Qed.

Lemma digit_value_bounds (c : ascii) :
  is_digit c = true -> (0 <= digit_value c <= 9)%Z.
Proof.
  unfold is_digit, digit_value. intros H.
  apply andb_true_iff in H as (H1 & H2).
  apply Nat.leb_le in H1, H2. lia.
Qed.

Lemma digits_value_bounds (d : str) :
  length d = 4 -> forallb is_digit d = true ->
  (0 <= digits_value d <= 9999)%Z.
Proof.
  intros Hl Hd.
  destruct d as [|a [|b [|c [|e [|]]]]]; try discriminate Hl.
  cbn [forallb] in Hd. repeat (apply andb_true_iff in Hd as (?H & Hd)).
  repeat match goal with
         | H : is_digit _ = true |- _ => apply digit_value_bounds in H
         end.
  unfold digits_value. cbn [fold_left]. lia.
Qed.

Lemma day_of_year_start_bounds (y : Z) :
  (0 <= y <= 9999)%Z ->
  (-719528 <= day_of_year_start y <= 2932532)%Z.
Proof.
  intros H. unfold day_of_year_start, leap_years_through.
  change (1969 / 4 - 1969 / 100 + 1969 / 400)%Z with 477%Z.
  replace ((y - 1) / 100)%Z with ((y - 1) / 4 / 25)%Z
    by (rewrite Z.div_div; [reflexivity|lia|lia]).
  replace ((y - 1) / 400)%Z with ((y - 1) / 4 / 25 / 4)%Z
    by (rewrite !Z.div_div; [reflexivity|lia|lia|lia|lia]).
  pose proof (Z.div_mod (y - 1) 4 ltac:(lia)) as E1.
  pose proof (Z.mod_pos_bound (y - 1) 4 ltac:(lia)) as B1.
  set (q1 := ((y - 1) / 4)%Z) in *.
  pose proof (Z.div_mod q1 25 ltac:(lia)) as E2.
  pose proof (Z.mod_pos_bound q1 25 ltac:(lia)) as B2.
  set (q2 := (q1 / 25)%Z) in *.
  pose proof (Z.div_mod q2 4 ltac:(lia)) as E3.
  pose proof (Z.mod_pos_bound q2 4 ltac:(lia)) as B3.
  set (q3 := (q2 / 4)%Z) in *.
  lia.
Qed.

(** X6. The release date of an accepted file is never the Invalid Date: it
    is midnight UTC of the first of January of a year between 0 and 9999,
    the year written by the four digits of the first year group, hence a
    time value between -62167219200000 and 253370764800000. *)
Theorem X6_release_date_is_a_valid_start_of_year
    (file : IGameVaultFile) (g : Game) :
  gameToIndex file = Ok g ->
  exists d ms,
    regexExtractReleaseYear (name file) = Ok (Some d) /\
    release_date g = Some ms /\
    ms = (day_of_year_start (digits_value d) * ms_per_day)%Z /\
    (0 <= digits_value d <= 9999)%Z /\
    (-62167219200000 <= ms <= 253370764800000)%Z.
Proof.
  intros H. apply gameToIndex_fields in H
    as (_ & _ & _ & _ & _ & _ & _ & y & Hy & Hr).
  pose proof Hy as Hy'.
  apply regexExtractReleaseYear_ok in Hy'
    as (pre & suf & d & post & -> & _ & (_ & Hl & Hd)).
  exists d, (day_of_year_start (digits_value d) * ms_per_day)%Z.
  split; [exact Hy|]. split.
  { rewrite Hr. exact (@new_Date_year d Hl Hd). }
  split; [reflexivity|].
  pose proof (@digits_value_bounds d Hl Hd) as Hb. split; [exact Hb|].
  pose proof (@day_of_year_start_bounds _ Hb) as Hs.
  unfold ms_per_day. lia.
Qed.

Lemma X6_witness_year_zero :
  exists d ms,
    regexExtractReleaseYear (js "Ben-Hur (0000).zip") = Ok (Some d) /\
    release_date
      (set_early_access false
         (set_version None
            (set_release_date (new_Date (Some (js "0000")))
               (set_size 1
                  (set_title (js "Ben-Hur")
                     (set_file_path (js "Ben-Hur (0000).zip") new_Game))))))
    = Some ms /\
    ms = (day_of_year_start (digits_value d) * ms_per_day)%Z /\
    (0 <= digits_value d <= 9999)%Z /\
    (-62167219200000 <= ms <= 253370764800000)%Z.
Proof.
  apply (@X6_release_date_is_a_valid_start_of_year
           (MkFile (js "Ben-Hur (0000).zip") 1)).
  reflexivity.
Defined.

(** X7. What follows an accepted path does not change what the parser
    reads from it: when text is appended to the path of an accepted file,
    the file is still accepted, with the same release date, the same
    version if it had one, and the early access flag if it had it. The
    first group of each kind decides, the last path segment has no
    privilege. *)
Theorem X7_appended_text_changes_neither_year_nor_version
    (path e : str) (sz : N) (g : Game) :
  gameToIndex (MkFile path sz) = Ok g ->
  exists g',
    gameToIndex (MkFile (path ++ e) sz) = Ok g' /\
    release_date g' = release_date g /\
    (version g <> None -> version g' = version g) /\
    (early_access g = true -> early_access g' = true).
Proof.
  intros Hg.
  assert (Ho : occurs starts_year_group path).
  { apply (proj1 (gameToIndex_ok_iff (MkFile path sz))). eauto. }
  apply gameToIndex_fields in Hg
    as (_ & _ & _ & Hv & Hea & _ & _ & y & Hy & Hr).
  cbn [name] in *.
  assert (Hy' : regexExtractReleaseYear (path ++ e) = Ok y).
  { rewrite regexExtractReleaseYear_directory by exact Ho. exact Hy. }
  eexists. split.
  { apply (@gameToIndex_ok (MkFile (path ++ e) sz) y). exact Hy'. }
  cbn [release_date version early_access set_early_access set_version
       set_release_date name].
  split; [symmetry; exact Hr|]. split.
  - rewrite Hv. intros Hne.
    destruct (regexExtractVersion path) as [v|] eqn:Ev; [|destruct (Hne eq_refl)].
    rewrite <- Ev. apply regexExtractVersion_directory.
    apply regexExtractVersion_some in Ev
      as (pre & suf & t & post & _ & (Hs & Hp & _) & _).
    exists pre, suf. auto.
  - rewrite Hea. intros H.
    apply regexExtractEarlyAccessFlag_true in H as (pre & post & ->).
    apply regexExtractEarlyAccessFlag_true. exists pre, (post ++ e).
    rewrite <- !app_assoc. reflexivity.
Qed.

Lemma X7_witness_part_file :
  exists g',
    gameToIndex
      (MkFile (js "Doom (1993) (v1.9) (EA).zip" ++ js ".part (2020)") 4)
    = Ok g' /\
    release_date g' = start_of_year (js "1993") /\
    (Some (js "v1.9") <> None -> version g' = Some (js "v1.9")) /\
    (true = true -> early_access g' = true).
Proof.
  apply (@X7_appended_text_changes_neither_year_nor_version
           (js "Doom (1993) (v1.9) (EA).zip") (js ".part (2020)") 4
           (match gameToIndex (MkFile (js "Doom (1993) (v1.9) (EA).zip") 4)
            with
            | Ok g => g
            | Err _ => new_Game
            end)).
  reflexivity.
Defined.

(** ** The reconciliation engine *)

(** X8. Whatever the listing, repeated names included, and whichever calls
    to the store fail, [indexFiles] returns normally, and the store it
    leaves is well formed when the one it found was: paths and identifiers
    stay unique, also after a turn that failed half way. *)
Theorem X8_indexFiles_never_raises_and_keeps_the_store_well_formed
    (fails : Call -> bool) (files : list IGameVaultFile) (w : World) :
  fst (indexFiles fails files w) = Ok tt /\
  (store_wf (db w) -> store_wf (db (snd (indexFiles fails files w)))).
Proof.
  rewrite indexFiles_eq.
  set (w0 := MkWorld (db w) (events w ++ [Logged MsgStartedIndexing])).
  pose proof (forEach_always_ok fails files w0) as Hok.
  pose proof (@keeps_wf_forEach _ (indexFile fails) files
                (keeps_wf_indexFile fails) w0) as Hwf.
  destruct (forEach (indexFile fails) files w0) as [[[]|e] w'] eqn:E;
    simpl in Hok; [|discriminate Hok].
  split; [reflexivity|]. intros H. apply Hwf. exact H.
Qed.

Lemma integrityCheck_eq fails now files games w :
  integrityCheck fails now files games w =
  match forEach (checkGame fails now files) games
          (MkWorld (db w) (events w ++ [Logged MsgStartedIntegrityCheck]))
  with
  | (Ok _, w') =>
      (Ok tt,
       MkWorld (db w') (events w' ++ [Logged MsgFinishedIntegrityCheck]))
  | (Err e, w') => (Err e, w')
  end.
Proof.
  unfold integrityCheck. unfold mbind at 1. unfold logger at 1, emit.
  unfold mbind at 1.
  destruct (forEach (checkGame fails now files) games _) as [[[]|e] w'];
    reflexivity.
Qed.

Lemma listed_false files r :
  (forall f, In f files -> name f <> file_path r) -> listed files r = false.
Proof.
  intros H. destruct (listed files r) eqn:E; [|reflexivity].
  apply listed_iff in E as (f & Hin & Hf). destruct (H f Hin Hf).
Qed.

(** X9. [integrityCheck] has no handler: when the soft-delete of a record
    fails, the exception leaves the check at once. The records that come
    later in the iteration are not examined, an unlisted one among them
    stays active, and the end of the check is not logged. *)
Theorem X9_integrityCheck_stops_at_the_first_failing_delete
    (fails : Call -> bool) (now : Z) (files : list IGameVaultFile)
    (l1 : list Game) (g : Game) (l2 : list Game) (w w1 : World) :
  forEach (checkGame fails now files) l1
    (MkWorld (db w) (events w ++ [Logged MsgStartedIntegrityCheck]))
  = (Ok tt, w1) ->
  (forall f, In f files -> name f <> file_path g) ->
  fails (CallDelete g) = true ->
  integrityCheck fails now files (l1 ++ g :: l2) w
  = (Err StoreWriteError, w1).
Proof.
  intros H1 Hg Hf. rewrite integrityCheck_eq, forEach_app, H1.
  rewrite forEach_cons, checkGame_eq, (listed_false _ _ Hg).
  rewrite deleteGame_eq, Hf. reflexivity.
Qed.

Lemma X9_witness_second_row_stays_active :
  integrityCheck (refuses_delete_of (js "Portal (2007).zip")) 99 []
    ([] ++ sample_row None :: [second_row]) two_rows
  = (Err StoreWriteError,
     MkWorld (db two_rows) [Logged MsgStartedIntegrityCheck]).
Proof.
  apply (@X9_integrityCheck_stops_at_the_first_failing_delete
           (refuses_delete_of (js "Portal (2007).zip")) 99 []
           [] (sample_row None) [second_row] two_rows).
  - reflexivity.
  - intros f [].
  - reflexivity.
Defined.

Lemma integrityCheck_sweeps now files w :
  store_wf (db w) ->
  exists evs,
    integrityCheck never_fails now files (listActive (db w)) w
    = (Ok tt,
       MkWorld (MkStore (map (swept now files) (rows (db w)))
                  (next_id (db w)))
         (events w ++ evs)).
Proof.
  intros Hw. rewrite integrityCheck_eq.
  destruct (@forEach_checkGame now files (listActive (db w))
              (MkWorld (db w) (events w ++ [Logged MsgStartedIntegrityCheck])))
    as (evs & E).
  { intros g Hg. apply filter_In in Hg as [Hg _].
    destruct (@wf_row_id (db w) g Hw Hg) as (j & Hj & _).
    exists j. split; [exact Hj|]. cbn [db]. apply existsb_exists.
    exists g. split; [exact Hg|]. apply has_id_true; exact Hj. }
  rewrite E. cbn [db events rows next_id].
  exists ([Logged MsgStartedIntegrityCheck] ++ evs
          ++ [Logged MsgFinishedIntegrityCheck]).
  rewrite <- !app_assoc. f_equal. f_equal. f_equal.
  apply map_ext_in. intros r Hr. apply mark_listActive; assumption.
Qed.

Lemma is_active_soft_deleted now r : is_active (soft_deleted now r) = false.
Proof. destruct r; reflexivity. Qed.

Lemma active_after_sweep now files (l : list Game) :
  filter is_active (map (swept now files) l)
  = filter (listed files) (filter is_active l).
Proof.
  induction l as [|r l IH]; [reflexivity|].
  cbn [map filter]. rewrite IH. unfold swept.
  destruct (is_active r) eqn:Ha; cbn [andb].
  - destruct (listed files r) eqn:Hl; cbn [negb filter].
    + rewrite Ha, Hl. reflexivity.
    + rewrite is_active_soft_deleted, Hl. reflexivity.
  - rewrite Ha. reflexivity.
Qed.

Lemma forEach_checkGame_listed fails now files games :
  forall w,
    (forall g, In g games -> listed files g = true) ->
    forEach (checkGame fails now files) games w = (Ok tt, w).
Proof.
  induction games as [|g games IH]; intros w H; [reflexivity|].
  rewrite forEach_cons, checkGame_eq, (H g (or_introl eq_refl)).
  apply IH. intros g' Hg. apply H. right; exact Hg.
Qed.

Lemma wf_map_keys (h : Game -> Game) s :
  (forall r, id (h r) = id r /\ file_path (h r) = file_path r) ->
  store_wf s -> store_wf (MkStore (map h (rows s)) (next_id s)).
Proof.
  intros Hh (H1 & H2 & H3). unfold store_wf. cbn [rows next_id].
  rewrite !map_map.
  rewrite (map_ext (fun x => file_path (h x)) file_path)
    by (intros r; apply Hh).
  rewrite (map_ext (fun x => id (h x)) id) by (intros r; apply Hh).
  split; [exact H1|]. split; [exact H2|].
  apply Forall_map. revert H3. apply Forall_impl.
  intros r (i & Hi & Hlt). exists i. split; [|exact Hlt].
  rewrite (proj1 (Hh r)). exact Hi.
Qed.

Lemma swept_keys now files r :
  id (swept now files r) = id r /\
  file_path (swept now files r) = file_path r.
Proof.
  unfold swept. destruct (is_active r && negb (listed files r)); auto.
Qed.

Lemma findByPath_map_keys (h : Game -> Game) p l n :
  (forall r, file_path (h r) = file_path r) ->
  findByPath p (MkStore (map h l) n)
  = option_map h (findByPath p (MkStore l n)).
Proof.
  intros Hh. unfold findByPath. cbn [rows].
  induction l as [|r l IH]; [reflexivity|].
  cbn [map find]. unfold has_path at 1 3. rewrite Hh.
  destruct (str_eqb (file_path r) p); [reflexivity|exact IH].
Qed.

(** X10. After an integrity check, the active rows are the rows that were
    active and whose path the listing names, in their order; an empty
    listing therefore leaves no active row: every game of the library is
    soft-deleted. *)
Theorem X10_integrity_check_keeps_active_the_listed_rows_only
    (now : Z) (files : list IGameVaultFile) (w : World) :
  store_wf (db w) ->
  exists w',
    integrityCheck never_fails now files (listActive (db w)) w
    = (Ok tt, w') /\
    listActive (db w') = filter (listed files) (listActive (db w)) /\
    (files = [] -> listActive (db w') = []).
Proof.
  intros Hw. destruct (@integrityCheck_sweeps now files w Hw) as (evs & E).
  eexists. split; [exact E|].
  unfold listActive at 1 3. cbn [db rows].
  rewrite active_after_sweep. split; [reflexivity|].
  intros ->. clear E. generalize (filter is_active (rows (db w))).
  intros l. induction l as [|r l IH]; [reflexivity|exact IH].
Qed.

Lemma X10_witness_empty_listing :
  exists w',
    integrityCheck never_fails 99 [] (listActive (db two_rows)) two_rows
    = (Ok tt, w') /\
    listActive (db w') = filter (listed []) (listActive (db two_rows)) /\
    (@nil IGameVaultFile = [] -> listActive (db w') = []).
Proof.
  apply (@X10_integrity_check_keeps_active_the_listed_rows_only
           99 [] two_rows).
  apply two_rows_wf.
Defined.

(** X11. The integrity check is idempotent: a second check against the same
    listing, over the active rows the first one left, finds every one of
    them listed, calls the store for none, and leaves the store as it is;
    its only events are the two log lines. *)
Theorem X11_second_integrity_check_changes_nothing
    (fails : Call -> bool) (now now' : Z) (files : list IGameVaultFile)
    (w : World) :
  store_wf (db w) ->
  exists w1,
    integrityCheck never_fails now files (listActive (db w)) w
    = (Ok tt, w1) /\
    integrityCheck fails now' files (listActive (db w1)) w1
    = (Ok tt,
       MkWorld (db w1)
         (events w1 ++ [Logged MsgStartedIntegrityCheck;
                        Logged MsgFinishedIntegrityCheck])).
Proof.
  intros Hw. destruct (@integrityCheck_sweeps now files w Hw) as (evs & E).
  eexists. split; [exact E|].
  rewrite integrityCheck_eq. rewrite forEach_checkGame_listed.
  - cbn [db events]. rewrite <- !app_assoc. reflexivity.
  - intros g Hg. unfold listActive in Hg. cbn [db rows] in Hg.
    rewrite active_after_sweep in Hg. apply filter_In in Hg as [_ Hg].
    exact Hg.
Qed.

Lemma X11_witness_two_rows :
  exists w1,
    integrityCheck never_fails 99 [sample_candidate]
      (listActive (db two_rows)) two_rows
    = (Ok tt, w1) /\
    integrityCheck (refuses_delete_of (js "Portal (2007).zip")) 100
      [sample_candidate] (listActive (db w1)) w1
    = (Ok tt,
       MkWorld (db w1)
         (events w1 ++ [Logged MsgStartedIntegrityCheck;
                        Logged MsgFinishedIntegrityCheck])).
Proof.
  apply (@X11_second_integrity_check_changes_nothing
           (refuses_delete_of (js "Portal (2007).zip")) 99 100
           [sample_candidate] two_rows).
  apply two_rows_wf.
Defined.

Lemma updatedGame_in_sync r g :
  takes_candidate_fields r g -> updatedGame r g = r.
Proof.
  intros (H1 & H2 & H3 & H4 & H5 & H6). destruct r, g. simpl in *.
  subst. reflexivity.
Qed.

Lemma restored_soft_deleted now r :
  deleted_at r = None -> restored (soft_deleted now r) = r.
Proof. intros H. destruct r. simpl in *. subst. reflexivity. Qed.

(** X12. Restore round trip. A row in step with its file, soft-deleted by
    an integrity check because the listing did not name the file, comes
    back exactly as it was when the file is indexed again: same identifier,
    same metadata, no soft-delete marker. No second row is made for the
    path, and the other rows stay as the check left them. *)
Theorem X12_soft_delete_then_reindex_gives_the_row_back
    (now : Z) (files : list IGameVaultFile) (file : IGameVaultFile)
    (g r : Game) (w : World) :
  store_wf (db w) -> gameToIndex file = Ok g ->
  findByPath (name file) (db w) = Some r ->
  deleted_at r = None -> takes_candidate_fields r g ->
  (forall f, In f files -> name f <> name file) ->
  exists w1 w2,
    integrityCheck never_fails now files (listActive (db w)) w
    = (Ok tt, w1) /\
    findByPath (name file) (db w1) = Some (soft_deleted now r) /\
    indexFiles never_fails [file] w1 = (Ok tt, w2) /\
    findByPath (name file) (db w2) = Some r /\
    length (rows (db w2)) = length (rows (db w)) /\
    store_wf (db w2) /\
    (forall q, q <> name file ->
       findByPath q (db w2) = findByPath q (db w1)).
Proof.
  intros Hw Hg Hf Hd Hsync Hn.
  destruct (@gameToIndex_fields file g Hg) as (Hp & _).
  destruct (@integrityCheck_sweeps now files w Hw) as (evs & E).
  set (s1 := MkStore (map (swept now files) (rows (db w)))
               (next_id (db w))) in *.
  assert (Hw1 : store_wf s1).
  { apply wf_map_keys; [intros x; apply swept_keys|exact Hw]. }
  pose proof Hf as Hf'. apply findByPath_some in Hf' as [Hin Hr].
  assert (Hs : swept now files r = soft_deleted now r).
  { apply swept_spec; [exact Hd|]. intros f Hfin. rewrite Hr.
    apply Hn; exact Hfin. }
  assert (Hf1 : findByPath (name file) s1 = Some (soft_deleted now r)).
  { unfold s1. rewrite findByPath_map_keys by (intros x; apply swept_keys).
    destruct (db w) as [l n]. cbn [rows next_id]. cbn [rows] in Hf.
    rewrite Hf. cbn [option_map]. rewrite Hs. reflexivity. }
  destruct (@wf_row_id (db w) r Hw Hin) as (i & Hi & _).
  destruct (soft_deleted_fields now r) as (Si & Sp & Sd & _).
  assert (Hu : updatedGame (restored (soft_deleted now r)) g = r).
  { rewrite (@restored_soft_deleted now r Hd).
    apply updatedGame_in_sync; exact Hsync. }
  assert (Hf1g : findByPath (file_path g) s1 = Some (soft_deleted now r))
    by (rewrite Hp; exact Hf1).
  assert (Hd1 : deleted_at (soft_deleted now r) <> None)
    by (rewrite Sd; discriminate).
  assert (Hi1 : id (soft_deleted now r) = Some i)
    by (rewrite Si; exact Hi).
  pose proof (@indexFile_deleted file g (soft_deleted now r) i
                (MkWorld s1 ((events w ++ evs) ++ [Logged MsgStartedIndexing]))
                Hw1 Hg Hf1g Hd1 Hi1) as E2.
  rewrite Hu in E2.
  pose proof Hf1 as Hf1'. apply findByPath_some in Hf1' as [Hin1 _].
  destruct (@update_around s1 (soft_deleted now r) i r Hw1 Hin1 Hi1 Hi
              (eq_sym Sp))
    as (l1 & l2 & _ & _ & Hw2 & Hfind & Hother).
  eexists. eexists. split; [exact E|]. split; [exact Hf1|].
  split.
  { rewrite indexFiles_eq. cbn [db events]. rewrite forEach_cons.
    rewrite E2. cbn [forEach]. unfold ret. cbn [db events]. reflexivity. }
  cbn [db]. split.
  { rewrite <- Hr at 1. rewrite <- Sp. exact Hfind. }
  split.
  { unfold map_row, s1. cbn [rows]. rewrite !length_map. reflexivity. }
  split; [exact Hw2|].
  intros q Hq. apply Hother. rewrite Sp, Hr. exact Hq.
Qed.

Lemma X12_witness_portal_comes_back :
  exists w1 w2,
    integrityCheck never_fails 99 [] (listActive (db two_rows)) two_rows
    = (Ok tt, w1) /\
    findByPath (name portal_7) (db w1)
    = Some (soft_deleted 99 (sample_row None)) /\
    indexFiles never_fails [portal_7] w1 = (Ok tt, w2) /\
    findByPath (name portal_7) (db w2) = Some (sample_row None) /\
    length (rows (db w2)) = length (rows (db two_rows)) /\
    store_wf (db w2) /\
    (forall q, q <> name portal_7 ->
       findByPath q (db w2) = findByPath q (db w1)).
Proof.
  apply (@X12_soft_delete_then_reindex_gives_the_row_back
           99 [] portal_7
           (match gameToIndex portal_7 with
            | Ok g => g
            | Err _ => new_Game
            end)
           (sample_row None) two_rows).
  - apply two_rows_wf.
  - reflexivity.
  - reflexivity.
  - reflexivity.
  - repeat split; reflexivity.
  - intros f [].
Defined.

(** X13. A scan: [indexFiles] over a listing without repeated names, then
    [integrityCheck] with the same listing over the active rows. With no
    failing call both end normally, the store stays well formed, every file
    of the listing that the parser accepts has an active row with its size,
    and every active row has its path named by the listing. *)
Theorem X13_scan_reconciles_the_store_with_the_listing
    (now : Z) (files : list IGameVaultFile) (w : World) :
  store_wf (db w) -> NoDup (map name files) ->
  exists w1 w2,
    indexFiles never_fails files w = (Ok tt, w1) /\
    integrityCheck never_fails now files (listActive (db w1)) w1
    = (Ok tt, w2) /\
    store_wf (db w2) /\
    (forall f g, In f files -> gameToIndex f = Ok g -> settled f (db w2)) /\
    (forall r, In r (listActive (db w2)) ->
       exists f, In f files /\ name f = file_path r).
Proof.
  intros Hw Hn.
  destruct (@forEach_settles files Hn
              (MkWorld (db w) (events w ++ [Logged MsgStartedIndexing])) Hw)
    as (w' & E & Hw' & _ & Hs).
  set (w1 := MkWorld (db w') (events w' ++ [Logged MsgFinishedIndexing])).
  assert (E1 : indexFiles never_fails files w = (Ok tt, w1)).
  { rewrite indexFiles_eq, E. reflexivity. }
  destruct (@integrityCheck_sweeps now files w1 Hw') as (evs & E2).
  exists w1. eexists. split; [exact E1|]. split; [exact E2|].
  cbn [db]. split; [|split].
  - apply wf_map_keys; [intros x; apply swept_keys|exact Hw'].
  - intros f g Hin Hg. destruct (Hs f g Hin Hg) as (r & Hf & Hd & Hsz).
    exists r. split; [|auto].
    rewrite findByPath_map_keys by (intros x; apply swept_keys).
    unfold w1. cbn [db]. destruct (db w') as [l n]. cbn [rows next_id].
    cbn [rows] in Hf. rewrite Hf. cbn [option_map]. f_equal.
    apply swept_spec. right. exists f. split; [exact Hin|].
    apply findByPath_some in Hf as [_ Hp]. symmetry; exact Hp.
  - intros r Hr. unfold listActive in Hr. cbn [rows] in Hr.
    rewrite active_after_sweep in Hr. apply filter_In in Hr as [_ Hr].
    apply listed_iff. exact Hr.
Qed.

Lemma X13_witness_sample_listing :
  exists w1 w2,
    indexFiles never_fails sample_listing two_rows = (Ok tt, w1) /\
    integrityCheck never_fails 99 sample_listing (listActive (db w1)) w1
    = (Ok tt, w2) /\
    store_wf (db w2) /\
    (forall f g,
       In f sample_listing -> gameToIndex f = Ok g -> settled f (db w2)) /\
    (forall r, In r (listActive (db w2)) ->
       exists f, In f sample_listing /\ name f = file_path r).
Proof.
  apply (@X13_scan_reconciles_the_store_with_the_listing
           99 sample_listing two_rows).
  - apply two_rows_wf.
  - apply sample_listing_NoDup.
Defined.

Lemma indexFile_keeps file w :
  store_wf (db w) ->
  exists w',
    indexFile never_fails file w = (Ok tt, w') /\
    store_wf (db w') /\
    forall q r,
      findByPath q (db w) = Some r ->
      exists r',
        findByPath q (db w') = Some r' /\ id r' = id r /\
        (deleted_at r = None -> deleted_at r' = None) /\
        (q <> name file -> r' = r).
Proof.
  intros Hw. destruct (gameToIndex file) as [g|e] eqn:Hg.
  2:{ eexists. split; [apply (@indexFile_parse_error never_fails file e w Hg)|].
      cbn [db]. split; [exact Hw|]. intros q r H. exists r. auto. }
  destruct (@gameToIndex_fields file g Hg) as (Hp & _).
  destruct (existence_cases g (db w))
    as [[E Hf]|(r0 & Hf & [(E & Hd & Hs)|[(E & Hd & Hs)|(E & Hd)]])].
  - eexists. split; [apply (@indexFile_new file g w Hg Hf)|]. cbn [db].
    split; [apply wf_create; assumption|].
    intros q r H. exists r.
    rewrite findByPath_create_other by congruence. auto.
  - eexists. split; [apply (@indexFile_exists file g r0 w Hg Hf Hd Hs)|].
    cbn [db]. split; [exact Hw|]. intros q r H. exists r. auto.
  - pose proof Hf as Hf'. apply findByPath_some in Hf' as [Hin Hr].
    destruct (@wf_row_id (db w) r0 Hw Hin) as (i & Hi & _).
    destruct (updatedGame_fields r0 g)
      as ((Up & _) & (Ui & Ud & _)).
    destruct (@update_around (db w) r0 i (updatedGame r0 g) Hw Hin Hi)
      as (l1 & l2 & _ & _ & Hw' & Hfind & Hother); try congruence.
    eexists.
    split; [apply (@indexFile_altered file g r0 i w Hw Hg Hf Hd Hs Hi)|].
    cbn [db]. split; [exact Hw'|]. intros q r H.
    destruct (list_eq_dec ascii_dec q (file_path r0)) as [->|Hq].
    + exists (updatedGame r0 g).
      assert (r = r0) by (rewrite Hr in H; congruence). subst r.
      split; [exact Hfind|]. split; [exact Ui|]. split; [congruence|].
      intros Hne. congruence.
    + exists r. rewrite (Hother q Hq). auto.
  - pose proof Hf as Hf'. apply findByPath_some in Hf' as [Hin Hr].
    destruct (@wf_row_id (db w) r0 Hw Hin) as (i & Hi & _).
    destruct (restored_fields r0) as (Ri & Rp & Rd & _).
    destruct (updatedGame_fields (restored r0) g)
      as ((Up & _) & (Ui & Ud & _)).
    destruct (@update_around (db w) r0 i (updatedGame (restored r0) g)
                Hw Hin Hi)
      as (l1 & l2 & _ & _ & Hw' & Hfind & Hother); try congruence.
    eexists.
    split; [apply (@indexFile_deleted file g r0 i w Hw Hg Hf Hd Hi)|].
    cbn [db]. split; [exact Hw'|]. intros q r H.
    destruct (list_eq_dec ascii_dec q (file_path r0)) as [->|Hq].
    + exists (updatedGame (restored r0) g).
      assert (r = r0) by (rewrite Hr in H; congruence). subst r.
      split; [exact Hfind|]. split; [congruence|]. split; [congruence|].
      intros Hne. congruence.
    + exists r. rewrite (Hother q Hq). auto.
Qed.

Lemma forEach_keeps files :
  forall w,
    store_wf (db w) ->
    exists w',
      forEach (indexFile never_fails) files w = (Ok tt, w') /\
      forall q r,
        findByPath q (db w) = Some r ->
        exists r',
          findByPath q (db w') = Some r' /\ id r' = id r /\
          (deleted_at r = None -> deleted_at r' = None) /\
          (~ In q (map name files) -> r' = r).
Proof.
  induction files as [|f files IH]; intros w Hw.
  - exists w. split; [reflexivity|]. intros q r H. exists r. auto.
  - destruct (@indexFile_keeps f w Hw) as (w1 & E1 & Hw1 & H1).
    destruct (IH w1 Hw1) as (w' & E & H2).
    exists w'. rewrite forEach_cons, E1. split; [exact E|].
    intros q r H.
    destruct (H1 q r H) as (r1 & Hf1 & Hi1 & Hd1 & Hn1).
    destruct (H2 q r1 Hf1) as (r2 & Hf2 & Hi2 & Hd2 & Hn2).
    exists r2. split; [exact Hf2|]. split; [congruence|].
    split; [auto|]. intros Hq. cbn [map] in Hq.
    rewrite Hn2 by (intros Hin; apply Hq; right; exact Hin).
    apply Hn1. intros ->. apply Hq. left; reflexivity.
Qed.

(** X14. With no failing call, [indexFiles] removes no row and soft-deletes
    none: after the run every row is still found by its path, under the
    same identifier, still active if it was; and the row of a path that the
    listing does not name is left exactly as it was. *)
Theorem X14_indexFiles_never_removes_or_deactivates_a_row
    (files : list IGameVaultFile) (w : World) :
  store_wf (db w) ->
  exists w',
    indexFiles never_fails files w = (Ok tt, w') /\
    forall q r,
      findByPath q (db w) = Some r ->
      exists r',
        findByPath q (db w') = Some r' /\ id r' = id r /\
        (deleted_at r = None -> deleted_at r' = None) /\
        (~ In q (map name files) -> r' = r).
Proof.
  intros Hw.
  destruct (@forEach_keeps files
              (MkWorld (db w) (events w ++ [Logged MsgStartedIndexing])) Hw)
    as (w' & E & H).
  eexists. rewrite indexFiles_eq, E. split; [reflexivity|]. exact H.
Qed.

Lemma X14_witness_listing_with_portal_5 :
  exists w',
    indexFiles never_fails listing_with_portal_5 two_rows = (Ok tt, w') /\
    forall q r,
      findByPath q (db two_rows) = Some r ->
      exists r',
        findByPath q (db w') = Some r' /\ id r' = id r /\
        (deleted_at r = None -> deleted_at r' = None) /\
        (~ In q (map name listing_with_portal_5) -> r' = r).
Proof.
  apply (@X14_indexFiles_never_removes_or_deactivates_a_row
           listing_with_portal_5 two_rows).
  apply two_rows_wf.
Defined.

(** X15. When a listing names a path several times, the last descriptor
    with that name wins: after the run the row of the path is active and
    has the size of that descriptor, and the store is well formed. *)
Theorem X15_with_a_repeated_name_the_last_descriptor_wins
    (l1 : list IGameVaultFile) (f : IGameVaultFile)
    (l2 : list IGameVaultFile) (g : Game) (w : World) :
  store_wf (db w) -> gameToIndex f = Ok g ->
  ~ In (name f) (map name l2) ->
  exists w',
    indexFiles never_fails (l1 ++ f :: l2) w = (Ok tt, w') /\
    settled f (db w') /\ store_wf (db w').
Proof.
  intros Hw Hg Hn. rewrite indexFiles_eq, forEach_app.
  set (w0 := MkWorld (db w) (events w ++ [Logged MsgStartedIndexing])).
  pose proof (forEach_always_ok never_fails l1 w0) as Hok.
  pose proof (@keeps_wf_forEach _ (indexFile never_fails) l1
                (keeps_wf_indexFile never_fails) w0 Hw) as Hw1.
  destruct (forEach (indexFile never_fails) l1 w0) as [[[]|e] w1];
    simpl in Hok, Hw1; [|discriminate Hok].
  rewrite forEach_cons.
  destruct (@indexFile_step f w1 Hw1) as (w2 & E2 & Hw2 & _ & Hs & _).
  rewrite E2.
  destruct (@forEach_keeps l2 w2 Hw2) as (w3 & E3 & Hk).
  pose proof (@keeps_wf_forEach _ (indexFile never_fails) l2
                (keeps_wf_indexFile never_fails) w2 Hw2) as Hw3.
  rewrite E3 in *. simpl in Hw3.
  eexists. split; [reflexivity|]. cbn [db]. split; [|exact Hw3].
  destruct (Hs g Hg) as (r & Hf & Hd & Hsz).
  destruct (Hk (name f) r Hf) as (r' & Hf' & _ & _ & Heq).
  rewrite (Heq Hn) in Hf'. exists r. auto.
Qed.

Lemma X15_witness_repeated_name :
  exists w',
    indexFiles never_fails
      ([MkFile (js "Portal (2007).zip") 1]
       ++ MkFile (js "Portal (2007).zip") 2 :: []) empty_world
    = (Ok tt, w') /\
    settled (MkFile (js "Portal (2007).zip") 2) (db w') /\
    store_wf (db w').
Proof.
  apply (@X15_with_a_repeated_name_the_last_descriptor_wins
           [MkFile (js "Portal (2007).zip") 1]
           (MkFile (js "Portal (2007).zip") 2) []
           (match gameToIndex (MkFile (js "Portal (2007).zip") 2) with
            | Ok g => g
            | Err _ => new_Game
            end) empty_world).
  - apply empty_world_wf.
  - reflexivity.
  - intros [].
Defined.

Lemma failures_of_app l l' :
  failures_of (l ++ l') = failures_of l ++ failures_of l'.
Proof. unfold failures_of. apply flat_map_app. Qed.

Lemma indexFile_reports file w :
  store_wf (db w) ->
  exists w' evs,
    indexFile never_fails file w = (Ok tt, w') /\
    store_wf (db w') /\ events w' = events w ++ evs /\
    failures_of evs
    = if rejected file then [(TypeError, name file)] else [].
Proof.
  intros Hw. unfold rejected.
  pose proof (@keeps_wf_indexFile never_fails file w Hw) as Hw'.
  destruct (gameToIndex file) as [g|e] eqn:Hg.
  2:{ pose proof Hg as He. apply gameToIndex_err_iff in He as [-> _].
      rewrite (@indexFile_parse_error never_fails file TypeError w Hg)
        in *.
      eexists. eexists. split; [reflexivity|]. split; [exact Hw'|].
      split; reflexivity. }
  destruct (existence_cases g (db w))
    as [[E Hf]|(r & Hf & [(E & Hd & Hs)|[(E & Hd & Hs)|(E & Hd)]])].
  - rewrite (@indexFile_new file g w Hg Hf) in *.
    eexists. eexists. split; [reflexivity|]. split; [exact Hw'|].
    split; reflexivity.
  - rewrite (@indexFile_exists file g r w Hg Hf Hd Hs) in *.
    eexists. eexists. split; [reflexivity|]. split; [exact Hw'|].
    split; reflexivity.
  - pose proof Hf as Hf'. apply findByPath_some in Hf' as [Hin _].
    destruct (@wf_row_id (db w) r Hw Hin) as (i & Hi & _).
    rewrite (@indexFile_altered file g r i w Hw Hg Hf Hd Hs Hi) in *.
    eexists. eexists. split; [reflexivity|]. split; [exact Hw'|].
    split; reflexivity.
  - pose proof Hf as Hf'. apply findByPath_some in Hf' as [Hin _].
    destruct (@wf_row_id (db w) r Hw Hin) as (i & Hi & _).
    rewrite (@indexFile_deleted file g r i w Hw Hg Hf Hd Hi) in *.
    eexists. eexists. split; [reflexivity|]. split; [exact Hw'|].
    split; reflexivity.
Qed.

Lemma forEach_reports files :
  forall w,
    store_wf (db w) ->
    exists w' evs,
      forEach (indexFile never_fails) files w = (Ok tt, w') /\
      events w' = events w ++ evs /\
      failures_of evs
      = map (fun f => (TypeError, name f)) (filter rejected files).
Proof.
  induction files as [|f files IH]; intros w Hw.
  - exists w, []. rewrite app_nil_r. auto.
  - destruct (@indexFile_reports f w Hw) as (w1 & ev1 & E1 & Hw1 & He1 & Hf1).
    destruct (IH w1 Hw1) as (w' & evs & E & He & Hf).
    exists w', (ev1 ++ evs). rewrite forEach_cons, E1.
    split; [exact E|]. split.
    + rewrite He, He1, app_assoc. reflexivity.
    + rewrite failures_of_app, Hf1, Hf. cbn [filter].
      destruct (rejected f); reflexivity.
Qed.

(** X16. With no failing call, the failures [indexFiles] logs are exactly
    the files the parser rejects: one "Failed to index" line for each of
    them, in the order of the listing, with the [TypeError] and the path of
    the file, and none for an accepted file. *)
Theorem X16_the_log_reports_the_rejected_files
    (files : list IGameVaultFile) (w : World) :
  store_wf (db w) ->
  exists w' evs,
    indexFiles never_fails files w = (Ok tt, w') /\
    events w' = events w ++ evs /\
    failures_of evs
    = map (fun f => (TypeError, name f)) (filter rejected files).
Proof.
  intros Hw.
  destruct (@forEach_reports files
              (MkWorld (db w) (events w ++ [Logged MsgStartedIndexing])) Hw)
    as (w' & evs & E & He & Hf).
  rewrite indexFiles_eq, E.
  exists (MkWorld (db w') (events w' ++ [Logged MsgFinishedIndexing])),
    ([Logged MsgStartedIndexing] ++ evs ++ [Logged MsgFinishedIndexing]).
  split; [reflexivity|]. cbn [events] in *. split.
  - rewrite He, <- !app_assoc. reflexivity.
  - rewrite !failures_of_app, Hf. cbn. rewrite app_nil_r. reflexivity.
Qed.

Lemma X16_witness_sample_listing :
  exists w' evs,
    indexFiles never_fails sample_listing two_rows = (Ok tt, w') /\
    events w' = events two_rows ++ evs /\
    failures_of evs
    = map (fun f => (TypeError, name f)) (filter rejected sample_listing).
Proof.
  apply (@X16_the_log_reports_the_rejected_files sample_listing two_rows).
  apply two_rows_wf.
Defined.

Lemma find_has_id_map_row j k f (s : Store) :
  j <> k -> (forall r, id (f r) = id r) ->
  find (has_id k) (rows (map_row j f s)) = find (has_id k) (rows s).
Proof.
  intros Hjk Hf. unfold map_row. cbn [rows].
  induction (rows s) as [|a l IH]; [reflexivity|].
  cbn [map find]. destruct (has_id j a) eqn:Ej; [|rewrite IH; reflexivity].
  apply has_id_true in Ej.
  assert (Ha : has_id k a = false).
  { apply has_id_false. rewrite Ej. intros [= H]. apply Hjk; exact H. }
  assert (Hfa : has_id k (f a) = false).
  { apply has_id_false. rewrite Hf, Ej. intros [= H]. apply Hjk; exact H. }
  rewrite Ha, Hfa. exact IH.
Qed.

(** The active records of a well-formed store have identifiers of their
    own. *)
Lemma listActive_ids (s : Store) :
  store_wf s -> NoDup (map id (listActive s)).
Proof.
  intros (_ & Hids & _). unfold listActive.
  induction (rows s) as [|r rws IH]; [constructor|].
  cbn [map] in Hids. inversion Hids as [|? ? Hr Hrws]; subst.
  cbn [filter]. destruct (is_active r); [|exact (IH Hrws)].
  cbn [map]. constructor; [|exact (IH Hrws)].
  intros Hin. apply Hr. apply in_map_iff in Hin as (x & Hx & Hin).
  apply filter_In in Hin as [Hin _]. rewrite <- Hx. apply in_map; exact Hin.
Qed.

(** The loop of the check over records that are rows of the store, each
    under an identifier of its own: the trace, event for event. *)
Lemma forEach_checkGame_trace now files games :
  forall w,
    NoDup (map id games) ->
    (forall g, In g games ->
       exists j, id g = Some j /\
                 find (has_id j) (rows (db w)) = Some g) ->
    exists w',
      forEach (checkGame never_fails now files) games w = (Ok tt, w') /\
      events w'
      = events w
        ++ flat_map (deletion_events now)
             (filter (fun g => negb (listed files g)) games).
Proof.
  induction games as [|g games IH]; intros w Hn Hrows.
  - exists w. split; [reflexivity|]. cbn. symmetry; apply app_nil_r.
  - cbn [map] in Hn. inversion Hn as [|? ? Hg Hn']; subst.
    rewrite forEach_cons, checkGame_eq. cbn [filter].
    destruct (listed files g) eqn:El; cbn [negb].
    + apply IH; [exact Hn'|].
      intros g' Hg'. apply Hrows. right; exact Hg'.
    + destruct (Hrows g (or_introl eq_refl)) as (j & Hj & Hfind).
      rewrite deleteGame_eq. cbn [never_fails]. rewrite Hj, Hfind.
      match goal with
      | |- context [forEach _ _ ?w1] =>
          destruct (IH w1 Hn') as (w' & E & He)
      end.
      { intros g' Hg'.
        destruct (Hrows g' (or_intror Hg')) as (k & Hk & Hf').
        exists k. split; [exact Hk|]. cbn [db].
        rewrite find_has_id_map_row; [exact Hf'| |].
        - intros ->. apply Hg. rewrite Hj, <- Hk. apply in_map; exact Hg'.
        - intros r. destruct r; reflexivity. }
      exists w'. rewrite E. split; [reflexivity|].
      rewrite He. cbn [events db flat_map deletion_events app].
      unfold soft_deleted. rewrite <- !app_assoc. reflexivity.
Qed.

(** X17. With no failing call, the trace of an integrity check over the
    active rows of a well-formed store is the line of the start, then, for
    each active record the listing does not name and in the order of the
    records, the soft-delete of that very record followed by its "marked as
    deleted" line with the path of the record, then the line of the end.
    The writes are these soft-deletes and no other: the check creates,
    updates and restores nothing. *)
Theorem X17_integrity_check_writes_soft_deletes_only
    (now : Z) (files : list IGameVaultFile) (w : World) :
  store_wf (db w) ->
  let unlisted :=
    filter (fun g => negb (listed files g)) (listActive (db w)) in
  exists w',
    integrityCheck never_fails now files (listActive (db w)) w
    = (Ok tt, w') /\
    events w'
    = events w
      ++ [Logged MsgStartedIntegrityCheck]
      ++ flat_map (deletion_events now) unlisted
      ++ [Logged MsgFinishedIntegrityCheck] /\
    writes_of
      ([Logged MsgStartedIntegrityCheck]
       ++ flat_map (deletion_events now) unlisted
       ++ [Logged MsgFinishedIntegrityCheck])
    = map (fun g => SoftDeleted (soft_deleted now g)) unlisted.
Proof.
  intros Hw unlisted. rewrite integrityCheck_eq.
  destruct (@forEach_checkGame_trace now files (listActive (db w))
              (MkWorld (db w)
                 (events w ++ [Logged MsgStartedIntegrityCheck])))
    as (w' & E & He).
  { apply listActive_ids. exact Hw. }
  { intros g Hg. apply filter_In in Hg as [Hg _].
    destruct (@wf_row_id (db w) g Hw Hg) as (j & Hj & _).
    exists j. split; [exact Hj|]. cbn [db].
    apply wf_find_id; assumption. }
  rewrite E. eexists. split; [reflexivity|]. cbn [events] in *.
  fold unlisted in He. split.
  - rewrite He, <- !app_assoc. reflexivity.
  - rewrite !writes_of_app. cbn [writes_of flat_map app].
    rewrite app_nil_r. clear. induction unlisted as [|g l IH];
      [reflexivity|].
    change (flat_map (deletion_events now) (g :: l))
      with (deletion_events now g ++ flat_map (deletion_events now) l).
    rewrite writes_of_app, IH. reflexivity.
Qed.

Lemma X17_witness_two_rows :
  exists w',
    integrityCheck never_fails 99 [sample_candidate]
      (listActive (db two_rows)) two_rows
    = (Ok tt, w') /\
    events w'
    = events two_rows
      ++ [Logged MsgStartedIntegrityCheck]
      ++ flat_map (deletion_events 99) [second_row]
      ++ [Logged MsgFinishedIntegrityCheck] /\
    writes_of
      ([Logged MsgStartedIntegrityCheck]
       ++ flat_map (deletion_events 99) [second_row]
       ++ [Logged MsgFinishedIntegrityCheck])
    = map (fun g => SoftDeleted (soft_deleted 99 g)) [second_row].
Proof.
  apply (@X17_integrity_check_writes_soft_deletes_only
           99 [sample_candidate] two_rows).
  apply two_rows_wf.
Defined.

(** X18. The object [updateGame] saves only depends on the six properties
    it reads from [updatesToApply]: a later update replaces an earlier one,
    and the update is the identity exactly on a row that already carries
    the six values. *)
Theorem X18_updates_compose_and_the_last_one_wins (e c1 c2 : Game) :
  updatedGame (updatedGame e c1) c2 = updatedGame e c2 /\
  updatedGame e (updatedGame c1 c2) = updatedGame e c2 /\
  (updatedGame e c2 = e <-> takes_candidate_fields e c2).
Proof.
  split; [destruct e, c1, c2; reflexivity|].
  split; [destruct e, c1, c2; reflexivity|].
  split.
  - intros H. destruct (updatedGame_fields e c2) as (Hf & _).
    cbv zeta in Hf. rewrite H in Hf. exact Hf.
  - apply updatedGame_in_sync.
Qed.

(** ** The filesystem lister *)

Lemma mapM_ok {A B : Type} (f : A -> result B) (l : list A) :
  forall ys, mapM f l = Ok ys <-> Forall2 (fun x y => f x = Ok y) l ys.
Proof.
  induction l as [|x l IH]; intros ys; cbn [mapM].
  - split; [intros [= <-]; constructor|intros H; inversion H; reflexivity].
  - unfold bind at 1. destruct (f x) as [y|e] eqn:Ex.
    + unfold bind. destruct (mapM f l) as [zs|e] eqn:El.
      * split.
        -- intros [= <-]. constructor; [exact Ex|]. apply IH; reflexivity.
        -- intros H. inversion H as [|? y' ? zs' Hy Hzs]; subst.
           rewrite Ex in Hy. injection Hy as <-.
           apply IH in Hzs. injection Hzs as <-. reflexivity.
      * split; [discriminate|].
        intros H. inversion H as [|? y' ? zs' Hy Hzs]; subst.
        apply IH in Hzs. discriminate.
    + split; [discriminate|].
      intros H. inversion H as [|? y' ? zs' Hy Hzs]; subst.
      rewrite Ex in Hy. discriminate.
Qed.

Lemma mapM_err {A B : Type} (f : A -> result B) (l : list A) (e : exn) :
  mapM f l = Err e <->
  exists pre x post,
    l = pre ++ x :: post /\
    (forall a, In a pre -> exists b, f a = Ok b) /\ f x = Err e.
Proof.
  induction l as [|x l IH]; cbn [mapM].
  - split; [discriminate|].
    intros (pre & y & post & H & _). destruct pre; discriminate.
  - unfold bind at 1. destruct (f x) as [y|e'] eqn:Ex.
    + unfold bind. destruct (mapM f l) as [zs|e'] eqn:El.
      * split; [discriminate|].
        intros ([|a pre] & z & post & H & Hpre & Hz).
        -- injection H as <- _. rewrite Ex in Hz. discriminate.
        -- injection H as <- H.
           assert (Hl : Ok zs = Err e).
           { apply IH. exists pre, z, post. split; [exact H|].
             split; [|exact Hz]. intros b Hb. apply Hpre. right; exact Hb. }
           discriminate.
      * split.
        -- intros [= ->].
           destruct (proj1 IH eq_refl) as (pre & z & post & -> & Hpre & Hz).
           exists (x :: pre), z, post. split; [reflexivity|].
           split; [|exact Hz].
           intros a [<-|Ha]; [exists y; exact Ex|apply Hpre; exact Ha].
        -- intros ([|a pre] & z & post & H & Hpre & Hz).
           ++ injection H as <- _. rewrite Ex in Hz. discriminate.
           ++ injection H as <- H. apply IH.
              exists pre, z, post. split; [exact H|].
              split; [|exact Hz]. intros b Hb. apply Hpre. right; exact Hb.
    + split.
      * intros [= ->]. exists [], x, l. split; [reflexivity|].
        split; [intros a []|exact Ex].
      * intros ([|a pre] & z & post & H & Hpre & Hz).
        -- injection H as <- _. rewrite Ex in Hz. injection Hz as ->.
           reflexivity.
        -- injection H as <- _.
           destruct (Hpre x (or_introl eq_refl)) as (b & Hb).
           rewrite Ex in Hb. discriminate.
Qed.

Lemma stat_all_ok (fs : FileSystem) (root : str) (kept : list str)
    (l : list IGameVaultFile) :
  Forall2
    (fun file y =>
       (sz <- statSync_size fs (root ++ js "/" ++ file) ;; Ok (MkFile file sz))
       = Ok y) kept l <->
  map name l = kept /\
  Forall (fun f => statSync_size fs (root ++ js "/" ++ name f)
                   = Ok (file_size f)) l.
Proof.
  revert l. induction kept as [|file kept IH]; intros l.
  - split.
    + intros H. inversion H. split; [reflexivity|constructor].
    + intros [H _]. destruct l; [constructor|discriminate].
  - split.
    + intros H. inversion H as [|? y ? l' Hy Hl]; subst.
      apply IH in Hl as [Hn Hf]. unfold bind in Hy.
      destruct (statSync_size fs (root ++ js "/" ++ file)) as [sz|e] eqn:E;
        [|discriminate].
      injection Hy as <-. cbn [map name]. rewrite Hn.
      split; [reflexivity|]. constructor; [exact E|exact Hf].
    + intros [Hn Hf]. destruct l as [|y l]; [discriminate|].
      cbn [map] in Hn. injection Hn as Hy Hn.
      inversion Hf as [|? ? Hs Hf']; subst.
      constructor; [|apply IH; split; [reflexivity|exact Hf']].
      rewrite Hs. destruct y; reflexivity.
Qed.

(** X19. Outside the mock mode, [getFiles] returns a listing exactly when
    the root directory can be read and the stat of every entry with an
    extension of the list succeeds; the names of the listing are then
    these entries, in the order of the directory listing, each with the
    size its stat reports. A single failing stat leaves no listing. *)
Theorem X19_getFiles_lists_the_allowed_entries_with_their_sizes
    (configuration : Configuration) (mock : list IGameVaultFile)
    (fs : FileSystem) (l : list IGameVaultFile) :
  MOCK_FILES configuration = false ->
  (getFiles configuration mock fs = Ok l <->
   exists entries,
     readdirSync fs (FILES configuration) = Ok entries /\
     map name l
     = filter (fun file => includes archive_extensions (extname file))
         entries /\
     Forall (fun f =>
               statSync_size fs (FILES configuration ++ js "/" ++ name f)
               = Ok (file_size f)) l).
Proof.
  intros Hm. unfold getFiles. rewrite Hm. unfold bind at 1.
  destruct (readdirSync fs (FILES configuration)) as [entries|e].
  - rewrite mapM_ok, stat_all_ok. split.
    + intros [H1 H2]. exists entries. auto.
    + intros (entries' & [= <-] & H1 & H2). auto.
  - split; [discriminate|]. intros (entries & H & _). discriminate.
Qed.

Lemma X19_witness_sample_directory :
  getFiles (MkConfiguration false (js "/files")) [] sample_fs
  = Ok [MkFile (js "Portal (2007).zip") 42] <->
  exists entries,
    readdirSync sample_fs (js "/files") = Ok entries /\
    map name [MkFile (js "Portal (2007).zip") 42]
    = filter (fun file => includes archive_extensions (extname file))
        entries /\
    Forall (fun f =>
              statSync_size sample_fs (js "/files" ++ js "/" ++ name f)
              = Ok (file_size f)) [MkFile (js "Portal (2007).zip") 42].
Proof.
  exact (@X19_getFiles_lists_the_allowed_entries_with_their_sizes
           (MkConfiguration false (js "/files")) [] sample_fs
           [MkFile (js "Portal (2007).zip") 42] eq_refl).
Defined.

Lemma mapM_ext_in {A B : Type} (f g : A -> result B) (l : list A) :
  (forall x, In x l -> f x = g x) -> mapM f l = mapM g l.
Proof.
  induction l as [|x l IH]; intros H; [reflexivity|].
  cbn [mapM]. rewrite (H x (or_introl eq_refl)).
  rewrite IH by (intros y Hy; apply H; right; exact Hy). reflexivity.
Qed.

(** X20. [getFiles] only depends on the listing of the root directory and
    on the stat of the entries it keeps: two filesystems that agree on
    these give the same result, whatever the stat of an entry with another
    extension would report, a failure included. In the mock mode the
    filesystem is not consulted at all. *)
Theorem X20_getFiles_ignores_the_entries_it_filters_out
    (configuration : Configuration) (mock : list IGameVaultFile)
    (fs fs' : FileSystem) :
  (MOCK_FILES configuration = false ->
   readdirSync fs (FILES configuration)
   = readdirSync fs' (FILES configuration) /\
   forall entries file,
     readdirSync fs (FILES configuration) = Ok entries ->
     In file entries ->
     includes archive_extensions (extname file) = true ->
     statSync_size fs (FILES configuration ++ js "/" ++ file)
     = statSync_size fs' (FILES configuration ++ js "/" ++ file)) ->
  getFiles configuration mock fs = getFiles configuration mock fs'.
Proof.
  intros H. unfold getFiles.
  destruct (MOCK_FILES configuration); [reflexivity|].
  destruct (H eq_refl) as [Hr Hs]. rewrite <- Hr. unfold bind at 1 3.
  destruct (readdirSync fs (FILES configuration)) as [entries|e];
    [|reflexivity].
  apply mapM_ext_in. intros file Hin. apply filter_In in Hin as [Hin Ha].
  rewrite (Hs entries file eq_refl Hin Ha). reflexivity.
Qed.


Lemma X20_witness_text_file_grows :
  getFiles (MkConfiguration false (js "/files")) [] sample_fs
  = getFiles (MkConfiguration false (js "/files")) [] sample_fs_other_notes.
Proof.
  apply (@X20_getFiles_ignores_the_entries_it_filters_out
           (MkConfiguration false (js "/files")) [] sample_fs
           sample_fs_other_notes).
  intros _. split; [reflexivity|].
  intros entries file H Hin Ha.
  cbn [readdirSync sample_fs FILES] in H.
  injection H as <-.
  destruct Hin as [<-|[<-|[<-|[]]]].
  - vm_compute. reflexivity.
  - vm_compute. reflexivity.
  - vm_compute in Ha. discriminate Ha.
Defined.

(** X21. The listing of [getFiles] names no path twice when the directory
    listing does not: it is a listing on which a second run of
    [indexFiles] writes nothing. *)
Theorem X21_getFiles_repeats_no_name
    (configuration : Configuration) (mock : list IGameVaultFile)
    (fs : FileSystem) (entries : list str) (l : list IGameVaultFile) :
  MOCK_FILES configuration = false ->
  readdirSync fs (FILES configuration) = Ok entries -> NoDup entries ->
  getFiles configuration mock fs = Ok l ->
  NoDup (map name l) /\
  (forall f, In f l -> In (name f) entries).
Proof.
  intros Hm Hr Hn H. unfold getFiles in H. rewrite Hm, Hr in H.
  unfold bind at 1 in H. apply mapM_ok in H. apply stat_all_ok in H as [H _].
  rewrite H. split; [apply NoDup_filter; exact Hn|].
  intros f Hf. apply (in_map name) in Hf. rewrite H in Hf.
  apply filter_In in Hf as [Hf _]. exact Hf.
Qed.

Lemma X21_witness_sample_directory :
  NoDup (map name [MkFile (js "Portal (2007).zip") 42]) /\
  (forall f, In f [MkFile (js "Portal (2007).zip") 42] ->
     In (name f)
       [js "Portal (2007).zip"; js "Half-Life (1998).tar.gz";
        js "notes.txt"]).
Proof.
  apply (@X21_getFiles_repeats_no_name
           (MkConfiguration false (js "/files")) [] sample_fs
           [js "Portal (2007).zip"; js "Half-Life (1998).tar.gz";
            js "notes.txt"]
           [MkFile (js "Portal (2007).zip") 42]).
  - reflexivity.
  - reflexivity.
  - constructor; [intros [H|[H|[]]]; discriminate H|].
    constructor; [intros [H|[]]; discriminate H|].
    constructor; [intros []|constructor].
  - reflexivity.
Defined.

Lemma extname_scan_stopped l :
  forall st, stopped st = true -> extname_scan l st = st.
Proof.
  induction l as [|c r IH]; intros st H; [reflexivity|].
  cbn [extname_scan]. unfold extname_step. rewrite H. apply IH; exact H.
Qed.

Lemma extname_step_slash i sd sp e p :
  extname_step i "/" (MkExtScan sd sp e false p false)
  = MkExtScan sd (i + 1) e false p true.
Proof. reflexivity. Qed.

Lemma extname_step_first_dot i sp :
  extname_step i "." (MkExtScan None sp None true 0 false)
  = MkExtScan (Some i) sp (Some (i + 1)) false 0 false.
Proof. reflexivity. Qed.

(** The scan of a segment that only starts with a dot: the dot is found,
    but nothing of a name before it. *)
Lemma extname_scan_dotfile ext rest :
  forallb ext_char ext = true ->
  exists sd e,
    extname_scan (rev ext ++ "."%char :: rest)
      (MkExtScan None 0 None true 0 false)
    = extname_scan rest (MkExtScan (Some sd) 0 (Some e) false 0 false).
Proof.
  intros H. rewrite <- forallb_rev in H.
  destruct (rev ext) as [|c l]; cbn [app extname_scan].
  - rewrite extname_step_first_dot. eauto.
  - cbn [forallb] in H. apply andb_true_iff in H as [Hc Hl].
    rewrite extname_step_first by exact Hc.
    rewrite extname_scan_ext_chars by exact Hl.
    cbn [extname_scan]. rewrite extname_step_dot. eauto.
Qed.

(** X22. [extname] sees no extension in a name that only starts with a
    dot, alone or after a directory: whatever follows the dot, ".zip"
    is a name without extension, and [getFiles] does not list it. *)
Theorem X22_a_leading_dot_starts_no_extension (dir ext : str) :
  forallb ext_char ext = true ->
  extname ("."%char :: ext) = [] /\
  extname (dir ++ "/"%char :: "."%char :: ext) = [] /\
  includes archive_extensions (extname (dir ++ "/"%char :: "."%char :: ext))
  = false.
Proof.
  intros H.
  assert (H1 : extname ("."%char :: ext) = []).
  { unfold extname. cbn [rev].
    destruct (@extname_scan_dotfile ext [] H) as (sd & e & E).
    rewrite E. reflexivity. }
  assert (H2 : extname (dir ++ "/"%char :: "."%char :: ext) = []).
  { unfold extname. rewrite rev_app_distr. cbn [rev].
    rewrite <- !app_assoc. cbn [app].
    destruct (@extname_scan_dotfile ext ("/"%char :: rev dir) H)
      as (sd & e & E).
    rewrite E. cbn [extname_scan]. rewrite extname_step_slash.
    rewrite extname_scan_stopped by reflexivity. reflexivity. }
  split; [exact H1|]. split; [exact H2|]. rewrite H2. reflexivity.
Qed.

Lemma X22_witness_dot_zip :
  extname (js ".zip") = [] /\
  extname (js "backup" ++ "/"%char :: js ".zip") = [] /\
  includes archive_extensions (extname (js "backup" ++ "/"%char :: js ".zip"))
  = false.
Proof.
  apply (@X22_a_leading_dot_starts_no_extension (js "backup") (js "zip")).
  reflexivity.
Defined.

(** X23. When the character before the last dot of a path is neither a dot
    nor a slash, and no dot or slash follows that dot, [extname] is the
    text from that dot to the end, whatever stands before: only the last
    dotted part of a file name decides whether [getFiles] lists it. *)
Theorem X23_extension_is_the_text_from_the_last_dot
    (stem : str) (x : ascii) (b : str) (c : ascii) :
  ext_char x = true -> forallb ext_char b = true -> ext_char c = true ->
  extname (stem ++ x :: "."%char :: b ++ [c]) = "."%char :: b ++ [c].
Proof.
  intros Hx Hb Hc. unfold extname.
  set (path := stem ++ x :: "."%char :: b ++ [c]).
  assert (Erev : rev path = c :: rev b ++ "."%char :: x :: rev stem).
  { unfold path. rewrite rev_app_distr. cbn [rev app].
    rewrite !rev_app_distr. cbn [rev app].
    rewrite <- !app_assoc. reflexivity. }
  set (n := length stem + 1).
  assert (Hlen : length path = n + 1 + length b + 1).
  { unfold path, n.
    repeat (rewrite length_app || rewrite length_cons || cbn [length app]).
    lia. }
  rewrite Erev. cbn [extname_scan].
  rewrite extname_step_first by exact Hc.
  rewrite extname_scan_ext_chars by (rewrite forallb_rev; exact Hb).
  cbn [extname_scan]. rewrite extname_step_dot.
  rewrite extname_step_name by exact Hx.
  match goal with
  | |- context [extname_scan (rev stem) ?st] =>
      destruct (@extname_scan_settled (rev stem) st _ _ eq_refl eq_refl)
        as (Hsd & He & Hp); [cbn; discriminate|]
  end.
  apply Z.eqb_neq in Hp. rewrite Hsd, He, Hp. cbn [orb].
  assert (Hn : length (x :: rev stem) = n).
  { unfold n. cbn [length]. rewrite length_rev. lia. }
  assert (He' : length (rev b ++ "."%char :: x :: rev stem) + 1
                = length path).
  { rewrite Hlen, length_app, length_rev, length_cons, Hn. lia. }
  rewrite He', Hn.
  assert (Hne : Nat.eqb n (length path - 1) = false).
  { apply Nat.eqb_neq. lia. }
  rewrite Hne, andb_false_r. cbn [orb andb].
  unfold slice, path.
  assert (Hpre : n = length (stem ++ [x])).
  { unfold n. rewrite length_app. cbn [length]. lia. }
  change (stem ++ x :: "."%char :: b ++ [c])
    with (stem ++ [x] ++ "."%char :: b ++ [c]).
  rewrite app_assoc.
  replace (length ((stem ++ [x]) ++ "."%char :: b ++ [c]) - n)
    with (length ("."%char :: b ++ [c]))
    by (rewrite length_app, <- Hpre; lia).
  rewrite Hpre, skipn_app, skipn_all, Nat.sub_diag.
  cbn [app skipn]. apply firstn_all.
Qed.

Lemma X23_witness_version_dots :
  extname (js "games/Doom (1993) (v1.9" ++ ")"%char :: "."%char
             :: js "zi" ++ ["p"%char])
  = "."%char :: js "zi" ++ ["p"%char].
Proof.
  apply (@X23_extension_is_the_text_from_the_last_dot
           (js "games/Doom (1993) (v1.9") ")"%char (js "zi") "p"%char);
    reflexivity.
Defined.

(** ** The download header *)

Lemma decode_encode_unit (c : ascii) (s : str) :
  decode_unit (encode_unit c ++ s) = Some (c, s).
Proof.
  destruct c as [[] [] [] [] [] [] [] []]; reflexivity.
Qed.

Lemma encode_unit_chars (c : ascii) :
  forallb encoded_char (encode_unit c) = true.
Proof.
  destruct c as [[] [] [] [] [] [] [] []]; reflexivity.
Qed.

Lemma encoded_char_plain (c : ascii) :
  encoded_char c = true ->
  re_dot c = true /\ is_ws c = false /\ chr_is ";" c = false /\
  chr_is "034" c = false /\ is_sep c = false.
Proof.
  destruct c as [[] [] [] [] [] [] [] []]; intros H;
    first [discriminate H | repeat split; reflexivity].
Qed.

Lemma encodeURIComponent_cons c s :
  encodeURIComponent (c :: s) = encode_unit c ++ encodeURIComponent s.
Proof. reflexivity. Qed.

(** X24. Whatever the path of the game, the file name that [downloadGame]
    writes in the [disposition] is made of unescaped characters and of
    percent signs only: it holds no line terminator, no white space, no
    semicolon, no quote and no path separator, and the header is a single
    line. A path made of unescaped characters is written as it is. *)
Theorem X24_disposition_file_name_is_percent_encoded (game : Game) :
  forallb encoded_char (encodeURIComponent (file_path game)) = true /\
  (forall c, In c (encodeURIComponent (file_path game)) ->
     re_dot c = true /\ is_ws c = false /\ chr_is ";" c = false /\
     chr_is "034" c = false /\ is_sep c = false) /\
  forallb re_dot (disposition game) = true /\
  (forallb uriUnescaped (file_path game) = true ->
   disposition game = js "attachment; filename=" ++ file_path game).
Proof.
  assert (H : forall s, forallb encoded_char (encodeURIComponent s) = true).
  { induction s as [|c s IH]; [reflexivity|].
    rewrite encodeURIComponent_cons, forallb_app, encode_unit_chars.
    exact IH. }
  split; [apply H|]. split; [|split].
  - intros c Hc. apply encoded_char_plain.
    pose proof (H (file_path game)) as Hall.
    rewrite forallb_forall in Hall. apply Hall; exact Hc.
  - unfold disposition. rewrite forallb_app. apply andb_true_iff.
    split; [reflexivity|]. apply forallb_forall. intros c Hc.
    apply encoded_char_plain.
    pose proof (H (file_path game)) as Hall.
    rewrite forallb_forall in Hall. apply Hall; exact Hc.
  - intros Hu. unfold disposition. f_equal.
    induction (file_path game) as [|c s IH]; [reflexivity|].
    cbn [forallb] in Hu. apply andb_true_iff in Hu as [Hc Hs].
    rewrite encodeURIComponent_cons. unfold encode_unit. rewrite Hc.
    cbn [app]. rewrite IH by exact Hs. reflexivity.
Qed.

(** X25. [encodeURIComponent] loses nothing: two paths with the same
    encoding are the same path, so that two games never share the file
    name of their [disposition]; and the encoding of a path is empty only
    for the empty path. *)
Theorem X25_encoded_file_names_tell_the_paths_apart :
  (forall a b, encodeURIComponent a = encodeURIComponent b -> a = b) /\
  (forall a, encodeURIComponent a = [] -> a = []) /\
  (forall g1 g2, disposition g1 = disposition g2 ->
     file_path g1 = file_path g2).
Proof.
  assert (Hinj : forall a b,
             encodeURIComponent a = encodeURIComponent b -> a = b).
  { induction a as [|c a IH]; intros b H.
    + destruct b as [|d b]; [reflexivity|].
      rewrite encodeURIComponent_cons in H.
      apply (f_equal decode_unit) in H.
      rewrite decode_encode_unit in H. discriminate H.
    + destruct b as [|d b].
      * rewrite encodeURIComponent_cons in H.
        apply (f_equal decode_unit) in H.
        rewrite decode_encode_unit in H. discriminate H.
      * rewrite !encodeURIComponent_cons in H.
        apply (f_equal decode_unit) in H.
        rewrite !decode_encode_unit in H. injection H as -> H.
        rewrite (IH b H). reflexivity. }
  split; [exact Hinj|]. split.
  - intros a H. apply Hinj. exact H.
  - intros g1 g2 H. unfold disposition in H.
    apply app_inv_head in H. apply Hinj. exact H.
Qed.

(** ** The database configuration *)

Lemma get_cons key k v (o : Options) :
  get key ((k, v) :: o) = if str_eqb k key then Some v else get key o.
Proof.
  unfold get. cbn [find fst]. destruct (str_eqb k key); reflexivity.
Qed.

Lemma get_app key (a b : Options) :
  get key (a ++ b)
  = match get key a with
    | Some v => Some v
    | None => get key b
    end.
Proof.
  induction a as [|[k v] a IH]; [reflexivity|].
  cbn [app]. rewrite !get_cons. destruct (str_eqb k key); [reflexivity|].
  exact IH.
Qed.

Lemma get_overridden key (a b : Options) :
  get key (map (fun kv =>
                  match get (fst kv) b with
                  | Some v => (fst kv, v)
                  | None => kv
                  end) a)
  = match get key a with
    | Some v => match get key b with
                | Some v' => Some v'
                | None => Some v
                end
    | None => None
    end.
Proof.
  induction a as [|[k v] a IH]; [reflexivity|].
  cbn [map fst]. rewrite get_cons.
  destruct (get k b) as [v'|] eqn:Ekb; rewrite get_cons;
    destruct (str_eqb k key) eqn:E; try exact IH.
  - apply str_eqb_eq in E. subst k. rewrite Ekb. reflexivity.
  - apply str_eqb_eq in E. subst k. rewrite Ekb. reflexivity.
Qed.

Lemma get_added key (a b : Options) :
  get key a = None ->
  get key (filter (fun kv => match get (fst kv) a with
                             | Some _ => false
                             | None => true
                             end) b)
  = get key b.
Proof.
  intros Ha. induction b as [|[k v] b IH]; [reflexivity|].
  cbn [filter fst]. rewrite get_cons.
  destruct (str_eqb k key) eqn:E.
  - apply str_eqb_eq in E. subst k. rewrite Ha. rewrite get_cons.
    rewrite str_eqb_refl. reflexivity.
  - destruct (get k a); [exact IH|]. rewrite get_cons, E. exact IH.
Qed.

(** In the object of two spreads the second object wins. *)
Lemma get_spread (key : str) (a b : Options) :
  get key (spread a b)
  = match get key b with
    | Some v => Some v
    | None => get key a
    end.
Proof.
  unfold spread. rewrite get_app, get_overridden.
  destruct (get key a) as [v|] eqn:Ha.
  - destruct (get key b); reflexivity.
  - rewrite (@get_added key a b Ha). destruct (get key b); reflexivity.
Qed.

Lemma getDatabaseConfiguration_cases (c : DatabaseConfiguration) :
  (SYSTEM c = js "SQLITE" /\
   getDatabaseConfiguration c = spread (baseConfig c) (sqliteConfig c)) \/
  (SYSTEM c <> js "SQLITE" /\
   getDatabaseConfiguration c = spread (baseConfig c) (postgresConfig c)).
Proof.
  unfold getDatabaseConfiguration.
  destruct (str_eqb (SYSTEM c) (js "SQLITE")) eqn:E.
  - left. apply str_eqb_eq in E. auto.
  - right. split.
    + intros H. rewrite H in E. discriminate E.
    + destruct (str_eqb (SYSTEM c) (js "POSTGRESQL")); reflexivity.
Qed.

(** X26. Whatever the configuration and whichever database system it
    names, the options returned carry the base options untouched by the
    spread of the driver options: [synchronize] and [migrationsRun] are
    both present and always opposite, so that the schema is either
    synchronized or migrated, never both and never neither; the cache is
    on, and [logging] follows the debug switch. *)
Theorem X26_schema_is_either_synchronized_or_migrated
    (c : DatabaseConfiguration) :
  get (js "synchronize") (getDatabaseConfiguration c)
  = Some (VBoolean (SYNCHRONIZE c)) /\
  get (js "migrationsRun") (getDatabaseConfiguration c)
  = Some (VBoolean (negb (SYNCHRONIZE c))) /\
  get (js "cache") (getDatabaseConfiguration c) = Some (VBoolean true) /\
  get (js "logging") (getDatabaseConfiguration c)
  = Some (VBoolean (DEBUG c)) /\
  get (js "namingStrategy") (getDatabaseConfiguration c)
  = Some VSnakeNamingStrategy.
Proof.
  destruct (getDatabaseConfiguration_cases c) as [[_ ->]|[_ ->]];
    rewrite !get_spread; repeat split; reflexivity.
Qed.

(** X27. Only the exact name "SQLITE" selects SQLite, with the in-memory
    database when the testing switch is set and the file [database.sqlite]
    of the volume otherwise, and without host or port. Every other name,
    "POSTGRESQL" as well as a misspelt or lower-case one, gives the options
    of PostgreSQL, with the host, port and database of the configuration. *)
Theorem X27_every_system_but_SQLITE_is_postgres
    (c : DatabaseConfiguration) :
  (SYSTEM c = js "SQLITE" ->
   get (js "type") (getDatabaseConfiguration c)
   = Some (VString (js "better-sqlite3")) /\
   get (js "database") (getDatabaseConfiguration c)
   = Some (VString (if IN_MEMORY_DB c then js ":memory:"
                    else SQLITEDB c ++ js "/database.sqlite")) /\
   get (js "migrations") (getDatabaseConfiguration c)
   = Some (VStrings [js "dist/database/migrations/sqlite/*.js"]) /\
   get (js "host") (getDatabaseConfiguration c) = None /\
   get (js "port") (getDatabaseConfiguration c) = None) /\
  (SYSTEM c <> js "SQLITE" ->
   getDatabaseConfiguration c = spread (baseConfig c) (postgresConfig c) /\
   get (js "type") (getDatabaseConfiguration c)
   = Some (VString (js "postgres")) /\
   get (js "database") (getDatabaseConfiguration c)
   = Some (VString (DATABASE c)) /\
   get (js "migrations") (getDatabaseConfiguration c)
   = Some (VStrings [js "dist/database/migrations/postgres/*.js"]) /\
   get (js "host") (getDatabaseConfiguration c) = Some (VString (HOST c)) /\
   get (js "port") (getDatabaseConfiguration c) = Some (VNumber (PORT c))).
Proof.
  destruct (getDatabaseConfiguration_cases c) as [[Hs E]|[Hs E]].
  - split; [|intros H; destruct (H Hs)].
    intros _. rewrite E, !get_spread. repeat split; reflexivity.
  - split; [intros H; destruct (Hs H)|].
    intros _. split; [exact E|].
    rewrite E, !get_spread. repeat split; reflexivity.
Qed.

(** ** The [size] column *)

Lemma digit_of_decimal (d : N) :
  (d < 10)%N ->
  digit_of 10 (ascii_of_nat (48 + N.to_nat d)) = Some d.
Proof.
  intros H.
  assert (E : d = 0%N \/ d = 1%N \/ d = 2%N \/ d = 3%N \/ d = 4%N \/
              d = 5%N \/ d = 6%N \/ d = 7%N \/ d = 8%N \/ d = 9%N) by lia.
  repeat (destruct E as [->|E]; [reflexivity|]). subst d. reflexivity.
Qed.

Lemma is_digit_decimal (d : N) :
  (d < 10)%N -> is_digit (ascii_of_nat (48 + N.to_nat d)) = true.
Proof.
  intros H.
  assert (E : d = 0%N \/ d = 1%N \/ d = 2%N \/ d = 3%N \/ d = 4%N \/
              d = 5%N \/ d = 6%N \/ d = 7%N \/ d = 8%N \/ d = 9%N) by lia.
  repeat (destruct E as [->|E]; [reflexivity|]). subst d. reflexivity.
Qed.

Lemma digits_from_app radix s t :
  forall acc,
    digits_from radix acc (s ++ t)
    = match digits_from radix acc s with
      | Some v => digits_from radix v t
      | None => None
      end.
Proof.
  induction s as [|c s IH]; intros acc; [reflexivity|].
  cbn [app digits_from]. destruct (digit_of radix c); [apply IH|reflexivity].
Qed.

Lemma decimal_digits_value (fuel : nat) :
  forall n,
    (n < 2 ^ N.of_nat fuel)%N ->
    digits_from 10 0 (decimal_digits fuel n) = Some n.
Proof.
  induction fuel as [|fuel IH]; intros n H.
  - cbn in H. assert (n = 0%N) by lia. subst n. reflexivity.
  - cbn [decimal_digits]. rewrite digits_from_app.
    assert (Hm : (n mod 10 < 10)%N) by (apply N.mod_lt; lia).
    destruct (N.ltb n 10) eqn:Hn.
    + apply N.ltb_lt in Hn. cbn [digits_from].
      rewrite (digit_of_decimal Hm). rewrite N.mod_small by exact Hn.
      f_equal; lia.
    + apply N.ltb_ge in Hn. rewrite IH.
      * cbn [digits_from]. rewrite (digit_of_decimal Hm).
        pose proof (N.div_mod n 10 ltac:(lia)). f_equal; lia.
      * rewrite Nat2N.inj_succ, N.pow_succ_r' in H.
        apply N.Div0.div_lt_upper_bound. lia.
Qed.

Lemma decimal_digits_digits (fuel : nat) :
  forall n, forallb is_digit (decimal_digits fuel n) = true.
Proof.
  induction fuel as [|fuel IH]; intros n; [reflexivity|].
  cbn [decimal_digits]. rewrite forallb_app. cbn [forallb].
  rewrite is_digit_decimal by (apply N.mod_lt; lia).
  destruct (N.ltb n 10); [reflexivity|]. rewrite IH. reflexivity.
Qed.

Lemma decimal_digits_cons (fuel : nat) (n : N) :
  exists c r, decimal_digits (S fuel) n = c :: r.
Proof.
  cbn [decimal_digits].
  destruct (if N.ltb n 10 then [] else decimal_digits fuel (n / 10))
    as [|c r]; cbn [app]; eauto.
Qed.

Lemma enough_fuel (n : N) : (n < 2 ^ N.of_nat (S (N.to_nat (N.log2 n))))%N.
Proof.
  rewrite Nat2N.inj_succ, N2Nat.id.
  destruct (N.eq_dec n 0) as [->|Hn]; [reflexivity|].
  apply N.log2_spec. lia.
Qed.

Lemma is_digit_plain (c : ascii) :
  is_digit c = true ->
  is_ws c = false /\ chr_is "+" c = false /\ chr_is "-" c = false /\
  chr_is "x" c = false /\ chr_is "X" c = false /\ chr_is "o" c = false /\
  chr_is "O" c = false /\ chr_is "b" c = false /\ chr_is "B" c = false.
Proof.
  destruct c as [[] [] [] [] [] [] [] []]; intros H;
    first [discriminate H | repeat split; reflexivity].
Qed.

Lemma trim_plain (s : str) :
  forallb (fun c => negb (is_ws c)) s = true -> trim s = s.
Proof.
  intros H. unfold trim, trimEnd.
  assert (Hs : forall t, forallb (fun c => negb (is_ws c)) t = true ->
                         trimStart t = t).
  { intros [|c t] Ht; [reflexivity|]. cbn [forallb] in Ht.
    apply andb_true_iff in Ht as [Hc _]. apply negb_true_iff in Hc.
    cbn [trimStart]. rewrite Hc. reflexivity. }
  rewrite (Hs s H). rewrite Hs by (rewrite forallb_rev; exact H).
  apply rev_involutive.
Qed.

Lemma StrIntegerLiteral_digits (t : str) :
  forallb is_digit t = true -> t <> [] ->
  StrIntegerLiteral t = integer_digits 10 t.
Proof.
  intros H Hne. destruct t as [|c r]; [destruct (Hne eq_refl)|].
  cbn [forallb] in H. apply andb_true_iff in H as [Hc Hr].
  apply is_digit_plain in Hc as (_ & Hp & Hm & _).
  unfold StrIntegerLiteral. rewrite Hp, Hm.
  destruct r as [|x r']; [reflexivity|].
  cbn [forallb] in Hr. apply andb_true_iff in Hr as [Hx _].
  apply is_digit_plain in Hx as (_ & _ & _ & -> & -> & -> & -> & -> & ->).
  cbn [orb]. rewrite !andb_false_r. reflexivity.
Qed.

Lemma digits_not_ws (t : str) :
  forallb is_digit t = true ->
  forallb (fun c => negb (is_ws c)) t = true.
Proof.
  intros H. apply forallb_forall. intros c Hc.
  rewrite forallb_forall in H. apply negb_true_iff.
  apply is_digit_plain. apply H; exact Hc.
Qed.

Lemma StringToBigInt_digits (n : N) :
  StringToBigInt (decimal_digits (S (N.to_nat (N.log2 n))) n)
  = Some (Z.of_N n).
Proof.
  set (d := decimal_digits (S (N.to_nat (N.log2 n))) n).
  pose proof (decimal_digits_digits (S (N.to_nat (N.log2 n))) n) as Hd.
  fold d in Hd.
  destruct (decimal_digits_cons (N.to_nat (N.log2 n)) n) as (c & r & E).
  fold d in E. unfold StringToBigInt.
  rewrite trim_plain by (apply digits_not_ws; exact Hd).
  rewrite StrIntegerLiteral_digits; [|exact Hd|rewrite E; discriminate].
  unfold integer_digits. rewrite E, <- E. unfold d.
  rewrite decimal_digits_value by apply enough_fuel. reflexivity.
Qed.

(** Parsing the decimal text of an integer gives the integer back. *)
Lemma StringToBigInt_toString (z : Z) :
  StringToBigInt (BigInt_toString z) = Some z.
Proof.
  unfold BigInt_toString.
  destruct (Z.ltb z 0) eqn:Hz.
  - apply Z.ltb_lt in Hz.
    set (n := Z.abs_N z).
    set (d := decimal_digits (S (N.to_nat (N.log2 n))) n).
    pose proof (decimal_digits_digits (S (N.to_nat (N.log2 n))) n) as Hd.
    fold d in Hd.
    destruct (decimal_digits_cons (N.to_nat (N.log2 n)) n) as (c & r & E).
    fold d in E.
    unfold StringToBigInt. rewrite trim_plain.
    2:{ cbn [forallb]. apply andb_true_iff. split; [reflexivity|].
        apply digits_not_ws; exact Hd. }
    unfold StrIntegerLiteral.
    change (chr_is "+" "-") with false. change (chr_is "-" "-") with true.
    cbv iota. unfold integer_digits. rewrite E, <- E. unfold d.
    rewrite decimal_digits_value by apply enough_fuel.
    cbn [option_map]. f_equal. unfold n. rewrite N2Z.inj_abs_N. lia.
  - apply Z.ltb_ge in Hz. rewrite StringToBigInt_digits.
    rewrite N2Z.inj_abs_N. f_equal. lia.
Qed.

Lemma BigInt_toString_cons (z : Z) :
  exists c r, BigInt_toString z = c :: r.
Proof.
  unfold BigInt_toString. destruct (Z.ltb z 0); [eauto|].
  apply decimal_digits_cons.
Qed.

Lemma transformer_from_text (z : Z) :
  transformer_from (JsString (BigInt_toString z))
  = inr (JsString (BigInt_toString z)).
Proof.
  unfold transformer_from.
  destruct (BigInt_toString_cons z) as (c & r & E).
  cbn [ToBoolean]. rewrite E, <- E. cbn [BigInt].
  rewrite StringToBigInt_toString. reflexivity.
Qed.

(** X28. What the transformer returns when a size is read is a fixed point
    of the transformer: reading it once more changes nothing. The decimal
    text of an integer is read back as itself. *)
Theorem X28_a_size_read_twice_is_read_once (value v : JsValue) :
  transformer_from value = inr v -> transformer_from v = inr v.
Proof.
  unfold transformer_from at 1.
  destruct (ToBoolean value) eqn:Hb.
  - destruct (BigInt value) as [e|z]; [discriminate|].
    intros [= <-]. apply transformer_from_text.
  - intros [= <-]. unfold transformer_from. rewrite Hb. reflexivity.
Qed.

Lemma X28_witness_padded_text :
  transformer_from (JsString (js "1234567890"))
  = inr (JsString (js "1234567890")).
Proof.
  apply (@X28_a_size_read_twice_is_read_once
           (JsString (js " 0001234567890 ")) (JsString (js "1234567890"))).
  reflexivity.
Defined.

(** X29. A size written as a [bigint] and read back comes out as its
    decimal text, and that text denotes the size that was written; the
    size 0 alone is falsy and comes back as the [bigint] it was, not as a
    text. *)
Theorem X29_a_written_size_is_read_back_as_its_decimal_text (z : Z) :
  transformer_from (transformer_to (JsBigInt z))
  = inr (if Z.eqb z 0 then JsBigInt 0 else JsString (BigInt_toString z)) /\
  StringToBigInt (BigInt_toString z) = Some z /\
  BigInt (JsString (BigInt_toString z)) = inr z.
Proof.
  split; [|split].
  - unfold transformer_from, transformer_to. cbn [ToBoolean BigInt].
    destruct (Z.eqb z 0) eqn:E; [|reflexivity].
    apply Z.eqb_eq in E. subst z. reflexivity.
  - apply StringToBigInt_toString.
  - cbn [BigInt]. rewrite StringToBigInt_toString. reflexivity.
Qed.

Lemma ToBoolean_false (value : JsValue) :
  ToBoolean value = false <->
  value = JsUndefined \/ value = JsNull \/ value = JsBoolean false \/
  value = JsNumber NaN \/ value = JsNumber (Integral 0) \/
  value = JsString [] \/ value = JsBigInt 0.
Proof.
  split.
  - destruct value as [| |[|]|[| |z|]|[|c s]|z|]; cbn [ToBoolean];
      intros H; try discriminate H; auto 10.
    + apply negb_false_iff, Z.eqb_eq in H. subst z. auto 10.
    + apply negb_false_iff, Z.eqb_eq in H. subst z. auto 10.
  - intros [->|[->|[->|[->|[->|[->| ->]]]]]]; reflexivity.
Qed.

(** X30. What reading a size does, value by value. A falsy value,
    [undefined], [null], [false], NaN, a zero, the empty string or [0n],
    is returned as it is. Any other value is passed to [BigInt]: when
    [BigInt] gives an integer, the decimal text of that integer is
    returned; the transformer throws a [SyntaxError] exactly on a
    non-empty string that denotes no integer, a [RangeError] exactly on an
    infinite number or a finite number with a fractional part, and a
    [TypeError] exactly on a symbol. *)
Theorem X30_reading_a_size_converts_or_keeps_or_throws (value : JsValue) :
  (ToBoolean value = false <->
   value = JsUndefined \/ value = JsNull \/ value = JsBoolean false \/
   value = JsNumber NaN \/ value = JsNumber (Integral 0) \/
   value = JsString [] \/ value = JsBigInt 0) /\
  (forall v,
     transformer_from value = inr v <->
     (ToBoolean value = false /\ v = value) \/
     (ToBoolean value = true /\
      exists z, BigInt value = inr z /\ v = JsString (BigInt_toString z))) /\
  (transformer_from value = inl Js.SyntaxError <->
   exists s, value = JsString s /\ s <> [] /\ StringToBigInt s = None) /\
  (transformer_from value = inl Js.RangeError <->
   value = JsNumber Fractional \/
   exists negative, value = JsNumber (Infinity negative)) /\
  (transformer_from value = inl Js.TypeError <-> value = JsSymbol).
Proof.
  split; [apply ToBoolean_false|]. split; [|split; [|split]].
  - intros v. unfold transformer_from.
    destruct (ToBoolean value) eqn:Hb.
    + destruct (BigInt value) as [e|z] eqn:Ez; split.
      * discriminate.
      * intros [[H _]|(_ & z & Hz & _)]; discriminate.
      * intros [= <-]. right. split; [reflexivity|]. eauto.
      * intros [[H _]|(_ & z' & [= <-] & ->)]; [discriminate|reflexivity].
    + split.
      * intros [= <-]. left. auto.
      * intros [[_ ->]|[H _]]; [reflexivity|discriminate].
  - unfold transformer_from. split.
    + destruct value as [| |[|]|[| |z|]|[|c s]|z|]; cbn [ToBoolean BigInt];
        try discriminate;
        try (destruct (Z.eqb z 0); cbn [negb]; discriminate).
      destruct (StringToBigInt (c :: s)) as [z|] eqn:E; [discriminate|].
      intros _. exists (c :: s). split; [reflexivity|].
      split; [discriminate|exact E].
    + intros (s & -> & Hs & E). destruct s as [|c s]; [destruct (Hs eq_refl)|].
      cbn [ToBoolean BigInt]. rewrite E. reflexivity.
  - unfold transformer_from. split.
    + destruct value as [| |[|]|[| |z|]|[|c s]|z|]; cbn [ToBoolean BigInt];
        try discriminate;
        try (destruct (Z.eqb z 0); cbn [negb]; discriminate); eauto.
      destruct (StringToBigInt (c :: s)); discriminate.
    + intros [->|(b & ->)]; reflexivity.
  - unfold transformer_from. split.
    + destruct value as [| |[|]|[| |z|]|[|c s]|z|]; cbn [ToBoolean BigInt];
        try discriminate;
        try (destruct (Z.eqb z 0); cbn [negb]; discriminate); auto.
      destruct (StringToBigInt (c :: s)); discriminate.
    + intros ->. reflexivity.
Qed.
